(** * DPCore [buildmain.c]: peripheral chaining and enumerator ROM packing

    A shallow embedding of [src/buildmain.c].  The program reads a
    description file (eight ROM header lines, then whitespace separated
    peripheral names), prints the Verilog glue of every peripheral on
    [stdout], one include line per peripheral on [includes.tmp], and the
    enumerator ROM image as sixteen [INIT_xx] records on
    [enumerator.lst].

    Conventions of the embedding.
    - A C [int] is a [Z]; no value of [main] leaves the 32-bit range
      (see [run_ints_bounded]).  The functions of the table, taken
      alone, give the value of the C code where their sums fit an
      [int]: what is stated of them for every address and pin carries
      that bound (see [is_int]).
    - A byte is an [ascii]; a buffer is a [list ascii]; a NUL terminated
      C string read out of a buffer is a [string] (see [c_str]).
    - Every [fprintf]/[printf] is kept as a [call] (format, arguments)
      in a chronological [trace]; [sprintf] renders a call to bytes.
    - A store outside the bounds of [rom], [romstr] or [peri] has no
      meaning in C.  The embedding keeps the buffers apart: such a store
      changes nothing (see [store]), a token longer than [peri] is kept
      whole, and the trace records the event as an [Overrun].  What
      the C program does once [fscanf] has run over [peri] is not
      defined (a build may be killed there, or go on with another
      name): the embedding goes on only to tell where the event is,
      and what is stated of the way a run ends, from its input, is
      stated for tokens that fit [peri] (see [short_tokens] and
      [peri_fits]).
    - Whether plain [char] is signed is left to the C implementation;
      it is a parameter, [signed_char], of the code that prints the ROM. *)

From Stdlib Require Import ZArith List Ascii String Bool Arith Lia.
From Stdlib Require Import DecimalString.
From Stdlib Require DecimalZ DecimalFacts.
Import ListNotations.

Open Scope string_scope.
Open Scope list_scope.
Open Scope Z_scope.

(** ** Constants of the source *)

Definition PERILEN : Z := 20.
Definition ROMSTRLN : Z := 256.
Definition ENUMROMSZ : Z := 2048.

(** ** Bytes, buffers and C strings *)

Definition NUL : ascii := "000"%char.
Definition LF : ascii := "010"%char.

Definition code (c : ascii) : Z := Z.of_N (N_of_ascii c).

Definition bytes (s : string) : list ascii := list_ascii_of_string s.

(** The C string held by a buffer: the bytes before the first NUL (the
    end of the list stands for the terminator that follows it). *)
Fixpoint c_str (buf : list ascii) : string :=
  match buf with
  | [] => EmptyString
  | c :: r => if Ascii.eqb c NUL then EmptyString else String c (c_str r)
  end.

Definition strlen (buf : list ascii) : Z := Z.of_nat (String.length (c_str buf)).

Fixpoint upd {A : Type} (n : nat) (x : A) (l : list A) : list A :=
  match l, n with
  | [], _ => []
  | _ :: t, O => x :: t
  | h :: t, S n' => h :: upd n' x t
  end.

(** [buf[i] = b].  An index outside the buffer is dropped. *)
Definition store (buf : list ascii) (i : Z) (b : ascii) : list ascii :=
  if i <? 0 then buf else upd (Z.to_nat i) b buf.

(** [buf[i]], NUL outside the buffer. *)
Definition load (buf : list ascii) (i : Z) : ascii :=
  if i <? 0 then NUL else nth (Z.to_nat i) buf NUL.

Fixpoint write (buf : list ascii) (i : Z) (bs : list ascii) : list ascii :=
  match bs with
  | [] => buf
  | b :: r => write (store buf i b) (i + 1) r
  end.

(** ** String literals and [printf] formats *)

Definition octal (c : ascii) : option N :=
  let n := N_of_ascii c in
  if ((48 <=? n) && (n <=? 55))%N then Some (n - 48)%N else None.

(** The value of a C string literal: the escapes [\n] and [\ooo] are
    decoded (the source uses [\n] and an escaped double quote, written
    [\042] here). *)
Fixpoint c_lit (s : string) : string :=
  match s with
  | EmptyString => EmptyString
  | String c t =>
      if Ascii.eqb c "\"%char then
        match t with
        | String "n"%char r => String LF (c_lit r)
        | String a (String b (String d r)) =>
            match octal a, octal b, octal d with
            | Some x, Some y, Some z =>
                String (ascii_of_N (64 * x + 8 * y + z)) (c_lit r)
            | _, _, _ => String c (c_lit t)
            end
        | _ => String c (c_lit t)
        end
      else String c (c_lit t)
  end.

Inductive conv : Type := Conv_s | Conv_c | Conv_02d | Conv_02x | Conv_02X.

Inductive piece : Type :=
| Lit (c : ascii)
| Directive (k : conv).

Fixpoint parse_fmt (s : string) : list piece :=
  match s with
  | EmptyString => []
  | String c t =>
      if Ascii.eqb c "%"%char then
        match t with
        | String "s"%char r => Directive Conv_s :: parse_fmt r
        | String "c"%char r => Directive Conv_c :: parse_fmt r
        | String "0"%char (String "2"%char (String "d"%char r)) =>
            Directive Conv_02d :: parse_fmt r
        | String "0"%char (String "2"%char (String "x"%char r)) =>
            Directive Conv_02x :: parse_fmt r
        | String "0"%char (String "2"%char (String "X"%char r)) =>
            Directive Conv_02X :: parse_fmt r
        | _ => Lit c :: parse_fmt t
        end
      else Lit c :: parse_fmt t
  end.

Inductive arg : Type :=
| Int (z : Z)
| Str (s : string).

Record call : Type := fprintf { fmt : string; args : list arg }.

(** [%02d]: signed decimal, zero padded to two characters. *)
Definition fmt_02d (z : Z) : list ascii :=
  let s := bytes (NilZero.string_of_int (Z.to_int z)) in
  if (List.length s <? 2)%nat then "0"%char :: s else s.

Definition hexdigit (upper : bool) (n : Z) : ascii :=
  ascii_of_N (Z.to_N (if n <? 10 then 48 + n else if upper then 55 + n else 87 + n)).

Definition hex8 (upper : bool) (u : Z) : list ascii :=
  map (fun k => hexdigit upper ((u / 16 ^ k) mod 16)) [7; 6; 5; 4; 3; 2; 1; 0].

Fixpoint strip0 (width : nat) (l : list ascii) : list ascii :=
  match l with
  | [] => []
  | c :: r =>
      if Ascii.eqb c "0"%char && (width <? List.length l)%nat then strip0 width r else l
  end.

(** [%02x] and [%02X]: the argument is converted to [unsigned int] and
    printed in hexadecimal, zero padded to at least two characters. *)
Definition fmt_02x (upper : bool) (z : Z) : list ascii :=
  strip0 2 (hex8 upper (z mod 2 ^ 32)).

Definition convert (k : conv) (a : arg) : list ascii :=
  match k, a with
  | Conv_s, Str s => bytes s
  | Conv_c, Int z => [ascii_of_N (Z.to_N (z mod 256))]
  | Conv_02d, Int z => fmt_02d z
  | Conv_02x, Int z => fmt_02x false z
  | Conv_02X, Int z => fmt_02x true z
  | _, _ => []
  end.

Fixpoint format (ps : list piece) (xs : list arg) : list ascii :=
  match ps with
  | [] => []
  | Lit c :: ps' => c :: format ps' xs
  | Directive k :: ps' =>
      match xs with
      | [] => format ps' []
      | a :: xs' => convert k a ++ format ps' xs'
      end
  end.

(** The characters a call prints. *)
Definition sprintf (c : call) : list ascii :=
  format (parse_fmt (c_lit (fmt c))) (args c).

(** The connector pins a call assigns: the arguments of the [%02d]
    directives that follow the text [`PIN_]. *)
Fixpoint pins_of_pieces (last : list ascii) (ps : list piece) (xs : list arg) : list Z :=
  match ps with
  | [] => []
  | Lit c :: ps' => pins_of_pieces (c :: firstn 4 last) ps' xs
  | Directive k :: ps' =>
      match xs with
      | [] => []
      | a :: xs' =>
          match k, a with
          | Conv_02d, Int z =>
              if String.eqb (string_of_list_ascii (rev last)) "`PIN_"
              then z :: pins_of_pieces [] ps' xs'
              else pins_of_pieces [] ps' xs'
          | _, _ => pins_of_pieces [] ps' xs'
          end
      end
  end.

Definition pins_of_call (c : call) : list Z :=
  pins_of_pieces [] (parse_fmt (c_lit (fmt c))) (args c).

Definition pins_of (cs : list call) : list Z := flat_map pins_of_call cs.

(** ** The peripheral invocation functions
    Each takes the peripheral address and the first free pin, prints the
    instance on [stdout] and returns the next free pin.  The sums are
    taken in [Z]: they are those of the C code where they fit an
    [int]. *)

Definition printbus (slot : Z) (peri : string) : list call :=
  [ fprintf "\n    // %s\n" [Str peri];
    fprintf "    %s p%02d(p%02dclk,p%02drdwr," [Str peri; Int slot; Int slot; Int slot];
    fprintf "p%02dstrobe,p%02dour_addr,p%02daddr,\n" [Int slot; Int slot; Int slot];
    fprintf "        p%02dbusy_in,p%02dbusy_out,p%02daddr_match_in," [Int slot; Int slot; Int slot];
    fprintf "p%02daddr_match_out,p%02ddatin,p%02ddatout,\n" [Int slot; Int slot; Int slot] ].

Definition perilist (addr startpin : Z) (peri : string) : list call * Z :=
  (  [ fprintf "\n    // %s\n" [Str peri];
       fprintf "    %s p%02d(p%02dclk,p%02drdwr," [Str peri; Int addr; Int addr; Int addr];
       fprintf "p%02dstrobe,p%02dour_addr,p%02daddr,\n" [Int addr; Int addr; Int addr];
       fprintf "        p%02dbusy_in,p%02dbusy_out,p%02daddr_match_in," [Int addr; Int addr; Int addr];
       fprintf "p%02daddr_match_out,p%02ddatin,p%02ddatout);\n" [Int addr; Int addr; Int addr] ],
   startpin + 0).

Definition bb4io (addr startpin : Z) (peri : string) : list call * Z :=
  (  [ fprintf "\n    wire [7:0] p%02dleds;" [Int addr];
       fprintf "\n    wire p%02dbntn1;" [Int addr];
       fprintf "\n    wire p%02dbntn2;" [Int addr];
       fprintf "\n    wire p%02dbntn3;" [Int addr] ]
     ++ printbus addr peri
     ++ [ fprintf "        p%02dleds,p%02dbntn1,p%02dbntn2,p%02dbntn3);\n" [Int addr; Int addr; Int addr; Int addr];
       fprintf "    assign p%02dbntn1 = BNTN1;\n" [Int addr];
       fprintf "    assign p%02dbntn2 = BNTN2;\n" [Int addr];
       fprintf "    assign p%02dbntn3 = BNTN3;\n" [Int addr];
       fprintf "    assign LED = p%02dleds;\n" [Int addr] ],
   startpin + 0).

Definition stepu (addr startpin : Z) (peri : string) : list call * Z :=
  (  printbus addr peri
     ++ [ fprintf "        p%02dm1clk,p%02du100clk,p%02du10clk,p%02du1clk," [Int addr; Int addr; Int addr; Int addr];
       fprintf "        p%02dcoila,p%02dcoilb,p%02dcoilc,p%02dcoild);\n" [Int addr; Int addr; Int addr; Int addr];
       fprintf "    assign p%02dm1clk = bc0m1clk;\n" [Int addr];
       fprintf "    assign p%02du100clk = bc0u100clk;\n" [Int addr];
       fprintf "    assign p%02du10clk = bc0u10clk;\n" [Int addr];
       fprintf "    assign p%02du1clk = bc0u1clk;\n" [Int addr];
       fprintf "    assign `PIN_%02d = p%02dcoila;\n" [Int startpin; Int addr];
       fprintf "    assign `PIN_%02d = p%02dcoilb;\n" [Int (startpin + 1); Int addr];
       fprintf "    assign `PIN_%02d = p%02dcoilc;\n" [Int (startpin + 2); Int addr];
       fprintf "    assign `PIN_%02d = p%02dcoild;\n" [Int (startpin + 3); Int addr] ],
   startpin + 4).

Definition stepb (addr startpin : Z) (peri : string) : list call * Z :=
  (  printbus addr peri
     ++ [ fprintf "        p%02dm1clk,p%02du100clk,p%02du10clk,p%02du1clk,\n" [Int addr; Int addr; Int addr; Int addr];
       fprintf "        p%02dain1,p%02dain2,p%02dbin1,p%02dbin2);\n" [Int addr; Int addr; Int addr; Int addr];
       fprintf "    assign p%02dm1clk = bc0m1clk;\n" [Int addr];
       fprintf "    assign p%02du100clk = bc0u100clk;\n" [Int addr];
       fprintf "    assign p%02du10clk = bc0u10clk;\n" [Int addr];
       fprintf "    assign p%02du1clk = bc0u1clk;\n" [Int addr];
       fprintf "    assign `PIN_%02d = p%02dain1;\n" [Int startpin; Int addr];
       fprintf "    assign `PIN_%02d = p%02dain2;\n" [Int (startpin + 1); Int addr];
       fprintf "    assign `PIN_%02d = p%02dbin1;\n" [Int (startpin + 2); Int addr];
       fprintf "    assign `PIN_%02d = p%02dbin2;\n" [Int (startpin + 3); Int addr] ],
   startpin + 4).

Definition dc2 (addr startpin : Z) (peri : string) : list call * Z :=
  (  printbus addr "dc2"
     ++ [ fprintf "   p%02dm100clk,p%02du100clk,\n" [Int addr; Int addr];
       fprintf "   p%02du10clk,p%02du1clk,p%02dn100clk,\n" [Int addr; Int addr; Int addr];
       fprintf "   p%02dain1,p%02dain2,p%02dbin1,p%02dbin2);\n" [Int addr; Int addr; Int addr; Int addr];
       fprintf "    assign p%02dm100clk = bc0m100clk;\n" [Int addr];
       fprintf "    assign p%02dm10clk = bc0m10clk;\n" [Int addr];
       fprintf "    assign p%02dm1clk = bc0m1clk;\n" [Int addr];
       fprintf "    assign p%02du100clk = bc0u100clk;\n" [Int addr];
       fprintf "    assign p%02du10clk = bc0u10clk;\n" [Int addr];
       fprintf "    assign p%02du1clk = bc0u1clk;\n" [Int addr];
       fprintf "    assign p%02dn100clk = bc0n100clk;\n" [Int addr];
       fprintf "    assign `PIN_%02d = p%02dain1;\n" [Int startpin; Int addr];
       fprintf "    assign `PIN_%02d = p%02dain2;\n" [Int (startpin + 1); Int addr];
       fprintf "    assign `PIN_%02d = p%02dbin1;\n" [Int (startpin + 2); Int addr];
       fprintf "    assign `PIN_%02d = p%02dbin2;\n" [Int (startpin + 3); Int addr] ],
   startpin + 4).

Definition pgen16 (addr startpin : Z) (peri : string) : list call * Z :=
  (  [ fprintf "\n    wire [3:0] p%02dpattern;" [Int addr] ]
     ++ printbus addr "pgen16"
     ++ [ fprintf "        p%02dm100clk,p%02dm10clk,p%02dm1clk," [Int addr; Int addr; Int addr];
       fprintf "        p%02du100clk,p%02du10clk,p%02du1clk,p%02dn100clk," [Int addr; Int addr; Int addr; Int addr];
       fprintf "        p%02dpattern);\n" [Int addr];
       fprintf "    assign p%02dm100clk = bc0m100clk;\n" [Int addr];
       fprintf "    assign p%02dm10clk = bc0m10clk;\n" [Int addr];
       fprintf "    assign p%02dm1clk = bc0m1clk;\n" [Int addr];
       fprintf "    assign p%02du100clk = bc0u100clk;\n" [Int addr];
       fprintf "    assign p%02du10clk = bc0u10clk;\n" [Int addr];
       fprintf "    assign p%02du1clk = bc0u1clk;\n" [Int addr];
       fprintf "    assign p%02dn100clk = bc0n100clk;\n" [Int addr];
       fprintf "    assign `PIN_%02d = p%02dpattern[0];\n" [Int startpin; Int addr];
       fprintf "    assign `PIN_%02d = p%02dpattern[1];\n" [Int (startpin + 1); Int addr];
       fprintf "    assign `PIN_%02d = p%02dpattern[2];\n" [Int (startpin + 2); Int addr];
       fprintf "    assign `PIN_%02d = p%02dpattern[3];\n" [Int (startpin + 3); Int addr] ],
   startpin + 4).

Definition quad2 (addr startpin : Z) (peri : string) : list call * Z :=
  (  [ fprintf "\n    wire p%02dm10clk;" [Int addr];
       fprintf "\n    wire p%02du1clk;" [Int addr];
       fprintf "\n    wire p%02da1;" [Int addr];
       fprintf "\n    wire p%02da2;" [Int addr];
       fprintf "\n    wire p%02db1;" [Int addr];
       fprintf "\n    wire p%02db2;" [Int addr] ]
     ++ printbus addr peri
     ++ [ fprintf "    p%02dm10clk,p%02du1clk,p%02da1,p%02da2,           p%02db1,p%02db2);\n" [Int addr; Int addr; Int addr; Int addr; Int addr; Int addr];
       fprintf "    assign p%02dm10clk = bc0m10clk;\n" [Int addr];
       fprintf "    assign p%02du1clk = bc0u1clk;\n" [Int addr];
       fprintf "    assign p%02da1 = `PIN_%02d;\n" [Int addr; Int startpin];
       fprintf "    assign p%02da2 = `PIN_%02d;\n" [Int addr; Int (startpin + 1)];
       fprintf "    assign p%02db1 = `PIN_%02d;\n" [Int addr; Int (startpin + 2)];
       fprintf "    assign p%02db2 = `PIN_%02d;\n" [Int addr; Int (startpin + 3)] ],
   startpin + 4).

Definition qtr4 (addr startpin : Z) (peri : string) : list call * Z :=
  (  [ fprintf "\n    wire p%02dm10clk;" [Int addr];
       fprintf "\n    wire p%02du10clk;" [Int addr];
       fprintf "\n    tri [3:0] p%02dq;" [Int addr] ]
     ++ printbus addr peri
     ++ [ fprintf "    p%02dm10clk,p%02du10clk,p%02dq);\n" [Int addr; Int addr; Int addr];
       fprintf "    assign p%02dm10clk = bc0m10clk;\n" [Int addr];
       fprintf "    assign p%02du10clk = bc0u10clk;\n" [Int addr];
       fprintf "    assign `PIN_%02d = p%02dq[0];\n" [Int startpin; Int addr];
       fprintf "    assign `PIN_%02d = p%02dq[1];\n" [Int (startpin + 1); Int addr];
       fprintf "    assign `PIN_%02d = p%02dq[2];\n" [Int (startpin + 2); Int addr];
       fprintf "    assign `PIN_%02d = p%02dq[3];\n" [Int (startpin + 3); Int addr] ],
   startpin + 4).

Definition qtr8 (addr startpin : Z) (peri : string) : list call * Z :=
  (  [ fprintf "\n    wire p%02dm10clk;" [Int addr];
       fprintf "\n    wire p%02du10clk;" [Int addr];
       fprintf "\n    tri [7:0] p%02dq;" [Int addr] ]
     ++ printbus addr peri
     ++ [ fprintf "    p%02dm10clk,p%02du10clk,p%02dq);\n" [Int addr; Int addr; Int addr];
       fprintf "    assign p%02dm10clk = bc0m10clk;\n" [Int addr];
       fprintf "    assign p%02du10clk = bc0u10clk;\n" [Int addr];
       fprintf "    assign `PIN_%02d = p%02dq[0];\n" [Int startpin; Int addr];
       fprintf "    assign `PIN_%02d = p%02dq[1];\n" [Int (startpin + 1); Int addr];
       fprintf "    assign `PIN_%02d = p%02dq[2];\n" [Int (startpin + 2); Int addr];
       fprintf "    assign `PIN_%02d = p%02dq[3];\n" [Int (startpin + 3); Int addr];
       fprintf "    assign `PIN_%02d = p%02dq[4];\n" [Int (startpin + 4); Int addr];
       fprintf "    assign `PIN_%02d = p%02dq[5];\n" [Int (startpin + 5); Int addr];
       fprintf "    assign `PIN_%02d = p%02dq[6];\n" [Int (startpin + 6); Int addr];
       fprintf "    assign `PIN_%02d = p%02dq[7];\n" [Int (startpin + 7); Int addr] ],
   startpin + 8).

Definition roten (addr startpin : Z) (peri : string) : list call * Z :=
  (  printbus addr peri
     ++ [ fprintf "    p%02dbtn,p%02dq1,p%02dq2,p%02dled);\n" [Int addr; Int addr; Int addr; Int addr];
       fprintf "    assign p%02dpollevt = bc0pollevt;\n" [Int addr];
       fprintf "    assign p%02dbtn = `PIN_%02d;\n" [Int addr; Int startpin];
       fprintf "    assign p%02dq1 = `PIN_%02d;\n" [Int addr; Int (startpin + 1)];
       fprintf "    assign p%02dq2 = `PIN_%02d;\n" [Int addr; Int (startpin + 2)];
       fprintf "    assign `PIN_%02d = p%02dled;\n" [Int (startpin + 3); Int addr] ],
   startpin + 4).

Definition count4 (addr startpin : Z) (peri : string) : list call * Z :=
  (  printbus addr "count4"
     ++ [ fprintf "    p%02dm10clk,p%02du1clk,p%02da,p%02db,p%02dc,p%02dd);\n" [Int addr; Int addr; Int addr; Int addr; Int addr; Int addr];
       fprintf "    assign p%02dm10clk = bc0m10clk;\n" [Int addr];
       fprintf "    assign p%02du1clk = bc0u1clk;\n" [Int addr];
       fprintf "    assign p%02da = `PIN_%02d;\n" [Int addr; Int startpin];
       fprintf "    assign p%02db = `PIN_%02d;\n" [Int addr; Int (startpin + 1)];
       fprintf "    assign p%02dc = `PIN_%02d;\n" [Int addr; Int (startpin + 2)];
       fprintf "    assign p%02dd = `PIN_%02d;\n" [Int addr; Int (startpin + 3)] ],
   startpin + 4).

Definition servo4 (addr pin : Z) (peri : string) : list call * Z :=
  (  [ fprintf "\n    wire [3:0] p%02dservo;" [Int addr] ]
     ++ printbus addr peri
     ++ [ fprintf "        p%02dservo);\n" [Int addr];
       fprintf "    assign `PIN_%02d = p%02dservo[0];\n" [Int pin; Int addr];
       fprintf "    assign `PIN_%02d = p%02dservo[1];\n" [Int (pin + 1); Int addr];
       fprintf "    assign `PIN_%02d = p%02dservo[2];\n" [Int (pin + 2); Int addr];
       fprintf "    assign `PIN_%02d = p%02dservo[3];\n" [Int (pin + 3); Int addr] ],
   pin + 4).

Definition ping4 (addr pin : Z) (peri : string) : list call * Z :=
  (  [ fprintf "\n    tri [3:0] p%02dpng;" [Int addr] ]
     ++ printbus addr peri
     ++ [ fprintf "    p%02du1clk, p%02dm10clk, p%02dpng);\n" [Int addr; Int addr; Int addr];
       fprintf "    assign p%02du1clk = bc0u1clk;\n" [Int addr];
       fprintf "    assign p%02dm10clk = bc0m10clk;\n" [Int addr];
       fprintf "    assign `PIN_%02d = p%02dpng[0];\n" [Int pin; Int addr];
       fprintf "    assign `PIN_%02d = p%02dpng[1];\n" [Int (pin + 1); Int addr];
       fprintf "    assign `PIN_%02d = p%02dpng[2];\n" [Int (pin + 2); Int addr];
       fprintf "    assign `PIN_%02d = p%02dpng[3];\n" [Int (pin + 3); Int addr] ],
   pin + 4).

Definition irio (addr pin : Z) (peri : string) : list call * Z :=
  (  [ fprintf "\n    tri p%02dspare0;" [Int addr];
       fprintf "\n    tri p%02dspare1;" [Int addr] ]
     ++ printbus addr peri
     ++ [ fprintf " p%02du100clk, p%02du1clk, p%02drxled, " [Int addr; Int addr; Int addr];
       fprintf "p%02dtxled, p%02dirout, p%02dirin);\n" [Int addr; Int addr; Int addr];
       fprintf "    assign p%02du100clk = bc0u100clk;\n" [Int addr];
       fprintf "    assign p%02du1clk = bc0u1clk;\n" [Int addr];
       fprintf "    assign `PIN_%02d = p%02drxled;\n" [Int (pin + 0); Int addr];
       fprintf "    assign `PIN_%02d = p%02dtxled;\n" [Int (pin + 1); Int addr];
       fprintf "    assign `PIN_%02d = p%02dirout;\n" [Int (pin + 2); Int addr];
       fprintf "    assign p%02dirin = `PIN_%02d;\n" [Int addr; Int (pin + 3)] ],
   pin + 4).

Definition rcrx (addr pin : Z) (peri : string) : list call * Z :=
  (  [ fprintf "\n    tri p%02dspare0;" [Int addr];
       fprintf "\n    tri p%02dspare1;" [Int addr] ]
     ++ printbus addr peri
     ++ [ fprintf "        p%02dn100clk, p%02drcin, p%02dpktled, " [Int addr; Int addr; Int addr];
       fprintf "p%02dspare0, p%02dspare1);\n" [Int addr; Int addr];
       fprintf "    assign p%02dn100clk = bc0n100clk;\n" [Int addr];
       fprintf "    assign p%02drcin = `PIN_%02d;\n" [Int addr; Int pin];
       fprintf "    assign `PIN_%02d = p%02dpktled;\n" [Int (pin + 1); Int addr];
       fprintf "    assign `PIN_%02d = p%02dspare0;\n" [Int (pin + 2); Int addr];
       fprintf "    assign `PIN_%02d = p%02dspare1;\n" [Int (pin + 3); Int addr] ],
   pin + 4).

Definition rfob (addr pin : Z) (peri : string) : list call * Z :=
  (  printbus addr peri
     ++ [ fprintf "        p%02du10clk, p%02dm1clk, p%02drfdin, " [Int addr; Int addr; Int addr];
       fprintf "p%02drssi, p%02dpwml, p%02dpwmh);\n" [Int addr; Int addr; Int addr];
       fprintf "    assign p%02du10clk = bc0u10clk;\n" [Int addr];
       fprintf "    assign p%02dm1clk = bc0m1clk;\n" [Int addr];
       fprintf "    assign p%02drfdin = `PIN_%02d;\n" [Int addr; Int pin];
       fprintf "    assign p%02drssi = `PIN_%02d;\n" [Int addr; Int (pin + 1)];
       fprintf "    assign `PIN_%02d = p%02dpwml;\n" [Int (pin + 2); Int addr];
       fprintf "    assign `PIN_%02d = p%02dpwmh;\n" [Int (pin + 3); Int addr] ],
   pin + 4).

Definition espi (addr pin : Z) (peri : string) : list call * Z :=
  (  printbus addr "espi"
     ++ [ fprintf "        p%02du100clk, p%02du10clk, " [Int addr; Int addr];
       fprintf "        p%02du1clk, p%02dn100clk, " [Int addr; Int addr];
       fprintf "        p%02dmosi, p%02da, p%02db, p%02dmiso);\n" [Int addr; Int addr; Int addr; Int addr];
       fprintf "    assign p%02du100clk = bc0u100clk;\n" [Int addr];
       fprintf "    assign p%02du10clk = bc0u10clk;\n" [Int addr];
       fprintf "    assign p%02du1clk = bc0u1clk;\n" [Int addr];
       fprintf "    assign p%02dn100clk = bc0n100clk;\n" [Int addr];
       fprintf "    assign `PIN_%02d = p%02dmosi;\n" [Int pin; Int addr];
       fprintf "    assign `PIN_%02d = p%02da;\n" [Int (pin + 1); Int addr];
       fprintf "    assign `PIN_%02d = p%02db;\n" [Int (pin + 2); Int addr];
       fprintf "    assign p%02dmiso = `PIN_%02d;\n" [Int addr; Int (pin + 3)] ],
   pin + 4).

Definition adc12 (addr pin : Z) (peri : string) : list call * Z :=
  (  [ fprintf "\n    wire p%02dn100clk;\n" [Int addr];
       fprintf "    wire p%02dm1clk;\n" [Int addr];
       fprintf "    wire p%02dmosi;\n" [Int addr];
       fprintf "    wire p%02da;\n" [Int addr];
       fprintf "    wire p%02db;\n" [Int addr];
       fprintf "    wire p%02dmiso;" [Int addr] ]
     ++ printbus addr "adc12"
     ++ [ fprintf "    p%02dn100clk, p%02dm1clk, p%02dmosi, " [Int addr; Int addr; Int addr];
       fprintf "    p%02da, p%02db, p%02dmiso);\n" [Int addr; Int addr; Int addr];
       fprintf "    assign p%02dn100clk = bc0n100clk;\n" [Int addr];
       fprintf "    assign p%02dm1clk = bc0m1clk;\n" [Int addr];
       fprintf "    assign `PIN_%02d = p%02dmosi;\n" [Int pin; Int addr];
       fprintf "    assign `PIN_%02d = p%02da;\n" [Int (pin + 1); Int addr];
       fprintf "    assign `PIN_%02d = p%02db;\n" [Int (pin + 2); Int addr];
       fprintf "    assign p%02dmiso = `PIN_%02d;\n" [Int addr; Int (pin + 3)] ],
   pin + 4).

Definition ws2812 (addr pin : Z) (peri : string) : list call * Z :=
  (  printbus addr "ws2812"
     ++ [ fprintf "    p%02dled1,p%02dled2," [Int addr; Int addr];
       fprintf "    p%02dled3,p%02dled4);\n" [Int addr; Int addr];
       fprintf "    assign `PIN_%02d = p%02dled1;\n" [Int pin; Int addr];
       fprintf "    assign `PIN_%02d = p%02dled2;\n" [Int (pin + 1); Int addr];
       fprintf "    assign `PIN_%02d = p%02dled3;\n" [Int (pin + 2); Int addr];
       fprintf "    assign `PIN_%02d = p%02dled4;\n" [Int (pin + 3); Int addr] ],
   pin + 4).

Definition out4 (addr pin : Z) (peri : string) : list call * Z :=
  (  [ fprintf "\n    wire [3:0] p%02dbitout;" [Int addr] ]
     ++ printbus addr "out4"
     ++ [ fprintf "        p%02dbitout);\n" [Int addr];
       fprintf "    assign `PIN_%02d = p%02dbitout[0];\n" [Int pin; Int addr];
       fprintf "    assign `PIN_%02d = p%02dbitout[1];\n" [Int (pin + 1); Int addr];
       fprintf "    assign `PIN_%02d = p%02dbitout[2];\n" [Int (pin + 2); Int addr];
       fprintf "    assign `PIN_%02d = p%02dbitout[3];\n" [Int (pin + 3); Int addr] ],
   pin + 4).

Definition out4l (addr pin : Z) (peri : string) : list call * Z :=
  (  [ fprintf "\n    wire [3:0] p%02dbitout;" [Int addr] ]
     ++ printbus addr "out4l"
     ++ [ fprintf "        p%02dbitout);\n" [Int addr];
       fprintf "    assign `PIN_%02d = p%02dbitout[0];\n" [Int pin; Int addr];
       fprintf "    assign `PIN_%02d = p%02dbitout[1];\n" [Int (pin + 1); Int addr];
       fprintf "    assign `PIN_%02d = p%02dbitout[2];\n" [Int (pin + 2); Int addr];
       fprintf "    assign `PIN_%02d = p%02dbitout[3];\n" [Int (pin + 3); Int addr] ],
   pin + 4).

Definition gpio4 (addr pin : Z) (peri : string) : list call * Z :=
  (  [ fprintf "\n    tri [3:0] p%02dsbio;" [Int addr] ]
     ++ printbus addr peri
     ++ [ fprintf "        p%02dsbio);\n" [Int addr];
       fprintf "    assign `PIN_%02d = p%02dsbio[0];\n" [Int pin; Int addr];
       fprintf "    assign `PIN_%02d = p%02dsbio[1];\n" [Int (pin + 1); Int addr];
       fprintf "    assign `PIN_%02d = p%02dsbio[2];\n" [Int (pin + 2); Int addr];
       fprintf "    assign `PIN_%02d = p%02dsbio[3];\n" [Int (pin + 3); Int addr] ],
   pin + 4).

Definition in4 (addr startpin : Z) (peri : string) : list call * Z :=
  (  [ fprintf "\n    wire [3:0] p%02din;" [Int addr] ]
     ++ printbus addr "in4"
     ++ [ fprintf "        p%02din);\n" [Int addr];
       fprintf "    assign p%02dpollevt = bc0pollevt;\n" [Int addr];
       fprintf "    assign p%02din[0] = `PIN_%02d;\n" [Int addr; Int startpin];
       fprintf "    assign p%02din[1] = `PIN_%02d;\n" [Int addr; Int (startpin + 1)];
       fprintf "    assign p%02din[2] = `PIN_%02d;\n" [Int addr; Int (startpin + 2)];
       fprintf "    assign p%02din[3] = `PIN_%02d;\n" [Int addr; Int (startpin + 3)] ],
   startpin + 4).

Definition watchdog2 (addr pin : Z) (peri : string) : list call * Z :=
  (  printbus addr peri
     ++ [ fprintf "        p%02ds1clk, p%02dwd0in, p%02dwd0out," [Int addr; Int addr; Int addr];
       fprintf "p%02dwd1in, p%02dwd1out);\n" [Int addr; Int addr];
       fprintf "    assign p%02ds1clk = bc0s1clk;\n" [Int addr];
       fprintf "    assign p%02dwd0in = `PIN_%02d;\n" [Int addr; Int pin];
       fprintf "    assign `PIN_%02d = p%02dwd0out;\n" [Int (pin + 1); Int addr];
       fprintf "    assign p%02dwd1in = `PIN_%02d;\n" [Int addr; Int (pin + 2)];
       fprintf "    assign `PIN_%02d = p%02dwd1out;\n" [Int (pin + 3); Int addr] ],
   pin + 4).

Definition out32 (addr startpin : Z) (peri : string) : list call * Z :=
  (  printbus addr peri
     ++ [ fprintf "    p%02du10clk, " [Int addr];
       fprintf "    p%02dpin2,p%02dpin4,p%02dpin6,p%02dpin8);\n" [Int addr; Int addr; Int addr; Int addr];
       fprintf "    assign `PIN_%02d = p%02dpin2;\n" [Int startpin; Int addr];
       fprintf "    assign `PIN_%02d = p%02dpin4;\n" [Int (startpin + 1); Int addr];
       fprintf "    assign `PIN_%02d = p%02dpin6;\n" [Int (startpin + 2); Int addr];
       fprintf "    assign `PIN_%02d = p%02dpin8;\n" [Int (startpin + 3); Int addr] ],
   startpin + 4).

Definition lcd6 (addr startpin : Z) (peri : string) : list call * Z :=
  (  [ fprintf "\n    wire p%02du100clk;" [Int addr];
       fprintf "\n    wire p%02dpin2;" [Int addr];
       fprintf "\n    wire p%02dpin4;" [Int addr];
       fprintf "\n    wire p%02dpin6;" [Int addr];
       fprintf "\n    wire p%02dpin8;" [Int addr] ]
     ++ printbus addr peri
     ++ [ fprintf "    p%02du100clk, " [Int addr];
       fprintf "    p%02dpin2,p%02dpin4,p%02dpin6,p%02dpin8);\n" [Int addr; Int addr; Int addr; Int addr];
       fprintf "    assign p%02du100clk = bc0u100clk;\n" [Int addr];
       fprintf "    assign `PIN_%02d = p%02dpin2;\n" [Int startpin; Int addr];
       fprintf "    assign `PIN_%02d = p%02dpin4;\n" [Int (startpin + 1); Int addr];
       fprintf "    assign `PIN_%02d = p%02dpin6;\n" [Int (startpin + 2); Int addr];
       fprintf "    assign `PIN_%02d = p%02dpin8;\n" [Int (startpin + 3); Int addr] ],
   startpin + 4).

Definition io8 (addr startpin : Z) (peri : string) : list call * Z :=
  (  [ fprintf "\n    wire p%02du10clk;" [Int addr];
       fprintf "\n    wire p%02dpin2;" [Int addr];
       fprintf "\n    wire p%02dpin4;" [Int addr];
       fprintf "\n    wire p%02dpin6;" [Int addr];
       fprintf "\n    wire p%02dpin8;" [Int addr] ]
     ++ printbus addr peri
     ++ [ fprintf "    p%02du10clk, " [Int addr];
       fprintf "    p%02dpin2,p%02dpin4,p%02dpin6,p%02dpin8);\n" [Int addr; Int addr; Int addr; Int addr];
       fprintf "    assign p%02du10clk = bc0u10clk;\n" [Int addr];
       fprintf "    assign `PIN_%02d = p%02dpin2;\n" [Int startpin; Int addr];
       fprintf "    assign `PIN_%02d = p%02dpin4;\n" [Int (startpin + 1); Int addr];
       fprintf "    assign `PIN_%02d = p%02dpin6;\n" [Int (startpin + 2); Int addr];
       fprintf "    assign p%02dpin8 = `PIN_%02d;\n" [Int addr; Int (startpin + 3)] ],
   startpin + 4).

Definition tif (addr startpin : Z) (peri : string) : list call * Z :=
  (  printbus addr peri
     ++ [ fprintf "    p%02du1clk, p%02dm10clk, " [Int addr; Int addr];
       fprintf "    p%02dpin2,p%02dpin4,p%02dpin6,p%02dpin8);\n" [Int addr; Int addr; Int addr; Int addr];
       fprintf "    assign p%02du1clk = bc0u1clk;\n" [Int addr];
       fprintf "    assign p%02dm10clk = bc0m10clk;\n" [Int addr];
       fprintf "    assign `PIN_%02d = p%02dpin2;\n" [Int startpin; Int addr];
       fprintf "    assign `PIN_%02d = p%02dpin4;\n" [Int (startpin + 1); Int addr];
       fprintf "    assign `PIN_%02d = p%02dpin6;\n" [Int (startpin + 2); Int addr];
       fprintf "    assign p%02dpin8 = `PIN_%02d;\n" [Int addr; Int (startpin + 3)] ],
   startpin + 4).

Definition us8 (addr startpin : Z) (peri : string) : list call * Z :=
  (  printbus addr peri
     ++ [ fprintf "    p%02dn100clk,p%02du10clk,p%02dm10clk, " [Int addr; Int addr; Int addr];
       fprintf "    p%02dpin2,p%02dpin4,p%02dpin6,p%02dpin8);\n" [Int addr; Int addr; Int addr; Int addr];
       fprintf "    assign p%02dn100clk = bc0n100clk;\n" [Int addr];
       fprintf "    assign p%02du10clk = bc0u10clk;\n" [Int addr];
       fprintf "    assign p%02dm10clk = bc0m10clk;\n" [Int addr];
       fprintf "    assign `PIN_%02d = p%02dpin2;\n" [Int startpin; Int addr];
       fprintf "    assign `PIN_%02d = p%02dpin4;\n" [Int (startpin + 1); Int addr];
       fprintf "    assign `PIN_%02d = p%02dpin6;\n" [Int (startpin + 2); Int addr];
       fprintf "    assign p%02dpin8 = `PIN_%02d;\n" [Int addr; Int (startpin + 3)] ],
   startpin + 4).

Definition in32 (addr startpin : Z) (peri : string) : list call * Z :=
  (  [ fprintf "\n    wire p%02du10clk;" [Int addr];
       fprintf "\n    wire p%02dpin2;" [Int addr];
       fprintf "\n    wire p%02dpin4;" [Int addr];
       fprintf "\n    wire p%02dpin6;" [Int addr];
       fprintf "\n    wire p%02dpin8;" [Int addr] ]
     ++ printbus addr peri
     ++ [ fprintf "    p%02du10clk, " [Int addr];
       fprintf "    p%02dpin2,p%02dpin4,p%02dpin6,p%02dpin8);\n" [Int addr; Int addr; Int addr; Int addr];
       fprintf "    assign p%02du10clk = bc0u10clk;\n" [Int addr];
       fprintf "    assign `PIN_%02d = p%02dpin2;\n" [Int startpin; Int addr];
       fprintf "    assign `PIN_%02d = p%02dpin4;\n" [Int (startpin + 1); Int addr];
       fprintf "    assign `PIN_%02d = p%02dpin6;\n" [Int (startpin + 2); Int addr];
       fprintf "    assign p%02dpin8 = `PIN_%02d;\n" [Int addr; Int (startpin + 3)] ],
   startpin + 4).

Definition ei2c (addr pin : Z) (peri : string) : list call * Z :=
  (  [ fprintf "\n    wire p%02dpin2;" [Int addr];
       fprintf "\n    wire p%02dpin4;" [Int addr];
       fprintf "\n    wire p%02dpin6;" [Int addr];
       fprintf "\n    wire p%02dpin8;" [Int addr] ]
     ++ printbus addr "ei2c"
     ++ [ fprintf "    p%02dpin2,p%02dpin4,p%02dpin6,p%02dpin8);\n" [Int addr; Int addr; Int addr; Int addr];
       fprintf "    assign `PIN_%02d = p%02dpin2;\n" [Int (pin + 0); Int addr];
       fprintf "    assign `PIN_%02d = p%02dpin4;\n" [Int (pin + 1); Int addr];
       fprintf "    assign `PIN_%02d = p%02dpin6;\n" [Int (pin + 2); Int addr];
       fprintf "    assign p%02dpin8 = `PIN_%02d;\n" [Int addr; Int (pin + 3)] ],
   pin + 4).

Definition null (addr pin : Z) (peri : string) : list call * Z :=
  (  [ fprintf "\n    wire p%02ddummy;" [Int addr] ]
     ++ printbus addr "null"
     ++ [ fprintf "        p%02ddummy);\n" [Int addr] ],
   pin).

(** ** The table of peripherals (and of their aliases) *)

Record ENUMERATORS : Type := entry {
  periname : string;                           (* DP internal name of the peripheral *)
  incname : string;                            (* name of the include file *)
  libname : string;                            (* DP daemon loadable module name *)
  invoke : Z -> Z -> string -> list call * Z   (* function to build main.v *)
}.

Definition enumerators : list ENUMERATORS := [
  entry "enumerator" "enumerator" "enumerator" perilist;
  entry "bb4io" "bb4io" "bb4io" bb4io;
  entry "servo4" "servo4" "servo4" servo4;
  entry "stepu" "stepu" "stepu" stepu;
  entry "stepb" "stepb" "stepb" stepb;
  entry "dc2" "dc2" "dc2" dc2;
  entry "aamp" "out4" "aamp" out4;
  entry "pgen16" "pgen16" "pgen16" pgen16;
  entry "pwmout4" "pgen16" "pwmout4" pgen16;
  entry "quad2" "quad2" "quad2" quad2;
  entry "qtr4" "qtr4" "qtr4" qtr4;
  entry "qtr8" "qtr8" "qtr8" qtr8;
  entry "roten" "roten" "roten" roten;
  entry "count4" "count4" "count4" count4;
  entry "touch4" "count4" "touch4" count4;
  entry "ping4" "ping4" "ping4" ping4;
  entry "irio" "irio" "irio" irio;
  entry "espi" "espi" "espi" espi;
  entry "dac8" "espi" "dac8" espi;
  entry "qpot" "espi" "qpot" espi;
  entry "rtc" "espi" "rtc" espi;
  entry "avr" "espi" "avr" espi;
  entry "adc812" "adc12" "adc812" adc12;
  entry "slide4" "adc12" "slide4" adc12;
  entry "out4" "out4" "out4" out4;
  entry "out4l" "out4l" "out4l" out4l;
  entry "ws2812" "ws2812" "ws2812" ws2812;
  entry "rly4" "out4l" "rly4" out4l;
  entry "drv4" "out4" "drv3" out4;
  entry "hub4" "out4" "hub4" out4;
  entry "gpio4" "gpio4" "gpio4" gpio4;
  entry "out32" "out32" "out32" out32;
  entry "lcd6" "lcd6" "lcd6" lcd6;
  entry "in4" "in4" "in4" in4;
  entry "sw4" "in4" "sw4" in4;
  entry "io8" "io8" "io8" io8;
  entry "tif" "tif" "tif" tif;
  entry "us8" "us8" "us8" us8;
  entry "in32" "in32" "in32" in32;
  entry "ei2c" "ei2c" "ei2c" ei2c;
  entry "rcrx" "rcrx" "rcrx" rcrx;
  entry "rfob" "rfob" "rfob" rfob;
  entry "null" "null" "null" null ].

Definition NPERI : Z := Z.of_nat (List.length enumerators).

(** ** Library functions used by [main] *)

Definition head_char (s : string) : ascii :=
  match s with EmptyString => NUL | String c _ => c end.

Definition tail_chars (s : string) : string :=
  match s with EmptyString => EmptyString | String _ t => t end.

(** [strncmp(s1, s2, n)]: the difference of the first characters (as
    [unsigned char]) that differ within the first [n], 0 when there is
    none before the end of the strings. *)
Fixpoint strncmp (s1 s2 : string) (n : nat) : Z :=
  match n with
  | O => 0
  | S n' =>
      let c1 := head_char s1 in
      let c2 := head_char s2 in
      if negb (Ascii.eqb c1 c2) then code c1 - code c2
      else if Ascii.eqb c1 NUL then 0
      else strncmp (tail_chars s1) (tail_chars s2) n'
  end.

Fixpoint gets (k : nat) (f : list ascii) : list ascii * list ascii :=
  match k with
  | O => ([], f)
  | S k' =>
      match f with
      | [] => ([], [])
      | c :: f' =>
          if Ascii.eqb c LF then ([c], f')
          else let (l, r) := gets k' f' in (c :: l, r)
      end
  end.

(** [fgets(buf, n, f)]: at most [n - 1] characters, up to and including
    the first newline; nothing at the end of the file.  The result is
    the characters stored and the rest of the stream. *)
Definition fgets (n : Z) (f : list ascii) : option (list ascii * list ascii) :=
  match f with
  | [] => None
  | _ :: _ => Some (gets (Z.to_nat (n - 1)) f)
  end.

Definition isspace (c : ascii) : bool :=
  let n := code c in (n =? 32) || ((9 <=? n) && (n <=? 13)).

(** The results of the successive [fscanf(f, "%s", peri)] up to the end
    of the file: the maximal runs of characters that are not white
    space. *)
Fixpoint tokens (f : list ascii) : list (list ascii) :=
  match f with
  | [] => []
  | c :: f' =>
      if isspace c then tokens f'
      else
        match f' with
        | [] => [[c]]
        | c' :: _ =>
            if isspace c' then [c] :: tokens f'
            else
              match tokens f' with
              | [] => [[c]]
              | t :: ts => (c :: t) :: ts
              end
        end
  end.

(** ** The state of [main] and its trace *)

Inductive stream : Type := stdout | stderr | pincludes | penumlst.

Inductive event : Type :=
| Output (f : stream) (c : call)
| Invoke (e : ENUMERATORS) (slot pin : Z) (peri : string)
| RomWrite (dst : Z) (out : list ascii)
| Overrun (buffer : string).

Record state : Type := mkState {
  slot : Z;               (* address of the next peripheral *)
  pin : Z;                (* next free pin *)
  rom : list ascii;       (* image of what goes into the enumerator ROM *)
  romindx : Z;            (* how many bytes of rom are used *)
  trace : list event
}.

Definition log (evs : list event) (st : state) : state :=
  mkState (slot st) (pin st) (rom st) (romindx st) (trace st ++ evs).

Definition print (f : stream) (c : call) (st : state) : state :=
  log [Output f c] st.

Definition set_pin (p : Z) (st : state) : state :=
  mkState (slot st) p (rom st) (romindx st) (trace st).

Definition set_slot (s : Z) (st : state) : state :=
  mkState s (pin st) (rom st) (romindx st) (trace st).

(** What was printed on a stream, in order. *)
Definition printed (f : stream) (tr : list event) : list call :=
  flat_map (fun ev =>
              match ev with
              | Output g c =>
                  match f, g with
                  | stdout, stdout | stderr, stderr
                  | pincludes, pincludes | penumlst, penumlst => [c]
                  | _, _ => []
                  end
              | _ => []
              end) tr.

Definition rom_writes (tr : list event) : list (Z * list ascii) :=
  flat_map (fun ev => match ev with RomWrite d o => [(d, o)] | _ => [] end) tr.

Definition invocations (tr : list event) : list (ENUMERATORS * Z * Z * string) :=
  flat_map (fun ev => match ev with Invoke e s p n => [(e, s, p, n)] | _ => [] end) tr.

(** [romindx += sprintf(&(rom[romindx]), "%s%c", s, (char) 0)]: the
    string, the NUL of [%c] and the terminator of [sprintf] are stored;
    the count returned leaves the terminator out. *)
Definition rom_sprintf (s : string) (st : state) : state :=
  let out := sprintf (fprintf "%s%c" [Str s; Int 0]) in
  let n := Z.of_nat (List.length out) in
  mkState (slot st) (pin st)
          (write (rom st) (romindx st) (out ++ [NUL]))
          (romindx st + n)
          (trace st ++ RomWrite (romindx st) out
             :: (if romindx st + n <? ENUMROMSZ then [] else [Overrun "rom"])).

(** The loop over the first 8 lines of the description file.  [inr] is
    [exit(1)]. *)
Fixpoint header_lines (n : nat) (st : state) (f : list ascii)
  : state * list ascii + state :=
  match n with
  | O => inl (st, f)
  | S n' =>
      match fgets ROMSTRLN f with
      | None => inr (print stdout (fprintf "Not enough ROM strings\n" []) st)
      | Some (romstr, f') =>
          (* replace the newline with a null *)
          let romstr' := store romstr (strlen romstr - 1) NUL in
          let st' := if 0 <? strlen romstr then st else log [Overrun "romstr"] st in
          header_lines n' (rom_sprintf (c_str romstr') st') f'
      end
  end.

(** Plain [char] promoted to [int]: sign extended where [char] is
    signed (as on x86), zero extended where it is unsigned (as on ARM). *)
Definition int_of_char (signed_char : bool) (c : ascii) : Z :=
  if signed_char && (128 <=? code c) then code c - 256 else code c.

Definition countdown (hi : Z) (n : nat) : list Z :=
  map (fun k => hi - Z.of_nat k) (seq 0 n).

(** One pass of the loop that copies the image to enumerator.lst. *)
Definition rom_record (signed_char : bool) (rom : list ascii) (i : Z) : list call :=
  fprintf "    .INIT_%02X(256'h" [Int i]
  :: map (fun j => fprintf "%02x" [Int (int_of_char signed_char (load rom j))])
         (countdown (32 * (i + 1) - 1) 32)
  ++ [if negb (i =? 15) then fprintf "),\n" [] else fprintf ")\n" []].

Definition rom_listing (signed_char : bool) (rom : list ascii) : list call :=
  flat_map (fun i => rom_record signed_char rom (Z.of_nat i)) (seq 0 16).

(** The loop over the table: the first entry whose name compares equal
    to [peri] within [PERILEN - 1] characters; nothing where the loop
    ends with [i == NPERI]. *)
Fixpoint search (peri : string) (tbl : list ENUMERATORS) : option ENUMERATORS :=
  match tbl with
  | [] => None
  | e :: tbl' =>
      if strncmp peri (periname e) (Z.to_nat (PERILEN - 1)) =? 0 then Some e
      else search peri tbl'
  end.

(** How one pass of a loop of [main] ends: with the next pass, or with
    [exit(status)]. *)
Inductive flow : Type :=
| Next (st : state)
| Exit (status : Z) (st : state).

(** [peri[0] == '#'] *)
Definition is_comment (peri : list ascii) : bool := Ascii.eqb (load peri 0) "#"%char.

(** [fscanf(pdescfile, "%s", peri)] stores the whole token and a NUL:
    a token of [PERILEN] characters or more runs over [peri].  The C
    program has no defined behaviour from there on; the embedding
    records the event and goes on with the whole token, a continuation
    that stands for no run of the program (see [peri_fits]). *)
Definition fscanf_peri (peri : list ascii) (st : state) : state :=
  if Z.of_nat (List.length peri) <? PERILEN then st else log [Overrun "peri"] st.

(** One pass of the loop through the list of peripherals, for the token
    [peri] just read. *)
Definition peripheral (argv0 : string) (peri : list ascii) (st : state) : flow :=
  let st0 := fscanf_peri peri st in
  (* Skip lines beginning with a # *)
  if is_comment peri then Next st0
  else
    match search (c_str peri) enumerators with
    | None =>
        Exit 1 (print stderr (fprintf "FATAL: %s: Unknown peripheral: %s\n"
                                      [Str argv0; Str (c_str peri)]) st0)
    | Some e =>
        (* Found the peripheral.  Invoke it with its slot # and starting pin # *)
        let (out, p) := invoke e (slot st0) (pin st0) (c_str peri) in
        let st1 := set_pin p (log (Invoke e (slot st0) (pin st0) (c_str peri)
                                     :: map (Output stdout) out) st0) in
        (* add it to the includes file *)
        let st2 := print pincludes
                         (fprintf "`include \042%s.v\042\n" [Str (incname e)]) st1 in
        (* Put the library name in the rom image *)
        let st3 := rom_sprintf (libname e) st2 in
        if romindx st3 >? ENUMROMSZ then
          Exit 1 (print stdout (fprintf "Oops, Enumerator ROM overflow\n" []) st3)
        else
          (* Go to next slot/peripheral *)
          Next (set_slot (slot st3 + 1) st3)
    end.

(** The passes over a list of tokens, without the end of the file. *)
Fixpoint steps (argv0 : string) (toks : list (list ascii)) (st : state) : flow :=
  match toks with
  | [] => Next st
  | peri :: rest =>
      match peripheral argv0 peri st with
      | Next st' => steps argv0 rest st'
      | Exit status st' => Exit status st'
      end
  end.

(** No more peripherals to process: close the module, copy the ROM
    image to enumerator.lst and [exit(0)]. *)
Definition finish (signed_char : bool) (st : state) : Z * state :=
  let st1 := print stdout (fprintf "\nendmodule\n" []) st in
  (0, log (map (Output penumlst) (rom_listing signed_char (rom st1))) st1).

(** The loop through the list of peripherals and what follows it.  The
    result is the exit status and the final state. *)
Definition peripherals (signed_char : bool) (argv0 : string)
           (toks : list (list ascii)) (st : state) : Z * state :=
  match steps argv0 toks st with
  | Next st' => finish signed_char st'
  | Exit status st' => (status, st')
  end.

Definition initial : state :=
  mkState 0 0 (repeat NUL (Z.to_nat ENUMROMSZ)) 0 [].

(** [main], once its three files are open.  [desc] is the content of
    the description file. *)
Definition main (signed_char : bool) (argv0 : string) (desc : list ascii) : Z * state :=
  match header_lines 8 initial desc with
  | inr st => (1, st)
  | inl (st, f) => peripherals signed_char argv0 (tokens f) st
  end.

(** ** Notions used to state the properties *)

(** *** Pins and instances *)

(** The number of pins a table entry takes: what its function adds to
    the pin it is given (shown independent of the arguments in
    [invoke_all]). *)
Definition pinCount (e : ENUMERATORS) : Z := snd (invoke e 0 0 EmptyString).

(** The pins [p], [p + 1], ..., [p + n - 1]. *)
Definition pin_range (p : Z) (n : Z) : list Z :=
  map (fun k => p + Z.of_nat k) (seq 0 (Z.to_nat n)).

Definition sumZ (l : list Z) : Z := fold_right Z.add 0 l.

(** The tokens that are not comments. *)
Definition names (toks : list (list ascii)) : list (list ascii) :=
  filter (fun t => negb (is_comment t)) toks.

(** The instances of a list of entries and names from address [s] and
    pin [p] on: each takes the next address and the pins after those of
    the one before. *)
Fixpoint allocate (s p : Z) (l : list (ENUMERATORS * string))
  : list (ENUMERATORS * Z * Z * string) :=
  match l with
  | [] => []
  | (e, n) :: r => (e, s, p, n) :: allocate (s + 1) (p + pinCount e) r
  end.

(** The instances of the peripherals [es] found for the tokens [toks]. *)
Definition instances (es : list ENUMERATORS) (toks : list (list ascii))
  : list (ENUMERATORS * string) :=
  combine es (map c_str (names toks)).

(** What an invocation prints. *)
Definition emitted (i : ENUMERATORS * Z * Z * string) : list call :=
  let '(e, s, p, n) := i in fst (invoke e s p n).

(** *** The messages of [main] *)

Definition endmodule : call := fprintf "\nendmodule\n" [].

Definition rom_overflow : call := fprintf "Oops, Enumerator ROM overflow\n" [].

Definition unknown_peripheral (argv0 peri : string) : call :=
  fprintf "FATAL: %s: Unknown peripheral: %s\n" [Str argv0; Str peri].

Definition include_line (e : ENUMERATORS) : call :=
  fprintf "`include \042%s.v\042\n" [Str (incname e)].

Definition is_endmodule (c : call) : bool := String.eqb (fmt c) (fmt endmodule).

(** *** The passes of the loops *)

(** The string a header read leaves in [romstr] once its last character
    is overwritten. *)
Definition header_string (romstr : list ascii) : string :=
  c_str (store romstr (strlen romstr - 1) NUL).

(** One pass of the header loop, on the string [romstr] just read. *)
Definition header_step (st : state) (romstr : list ascii) : state :=
  rom_sprintf (header_string romstr)
              (if 0 <? strlen romstr then st else log [Overrun "romstr"] st).

(** The strings read by [n] successive [fgets(romstr, ROMSTRLN, f)]. *)
Fixpoint fgets_lines (n : nat) (f : list ascii) : option (list (list ascii) * list ascii) :=
  match n with
  | O => Some ([], f)
  | S n' =>
      match fgets ROMSTRLN f with
      | None => None
      | Some (c, f') =>
          match fgets_lines n' f' with
          | None => None
          | Some (cs, r) => Some (c :: cs, r)
          end
      end
  end.

(** The state of a pass of the peripheral loop once the entry [e] found
    for [peri] is invoked, included and packed in the ROM. *)
Definition after_invoke (e : ENUMERATORS) (peri : string) (st : state) : state :=
  rom_sprintf (libname e)
    (print pincludes (include_line e)
       (set_pin (snd (invoke e (slot st) (pin st) peri))
          (log (Invoke e (slot st) (pin st) peri
                  :: map (Output stdout) (fst (invoke e (slot st) (pin st) peri))) st))).

(** *** The content of the ROM *)

(** A string and its NUL, as packed in the ROM. *)
Definition packed_string (s : list ascii) : list ascii := s ++ [NUL].

(** What a header read appends to the ROM: the string read without its
    last character, and a NUL. *)
Definition header_bytes (romstr : list ascii) : list ascii :=
  packed_string (removelast (bytes (c_str romstr))).

(** The library names packed for the peripherals invoked, in order. *)
Definition drivers (tr : list event) : list ascii :=
  flat_map (fun '(e, _, _, _) => packed_string (bytes (libname e))) (invocations tr).

(** The bytes the ROM needs for the library names of [es]. *)
Definition rom_need (es : list ENUMERATORS) : Z :=
  sumZ (map (fun e => Z.of_nat (String.length (libname e)) + 1) es).

(** The ROM holds [content] and zeros up to its size. *)
Definition rom_holds (st : state) (content : list ascii) : Prop :=
  rom st = content ++ repeat NUL (Z.to_nat ENUMROMSZ - List.length content) /\
  romindx st = Z.of_nat (List.length content) /\
  (List.length content <= Z.to_nat ENUMROMSZ)%nat.

(** *** The listing *)

(** The hexadecimal digits of a record of the listing: what its [%02x]
    calls print, between the label and the closing parenthesis. *)
Definition record_payload (record : list call) : list ascii :=
  flat_map sprintf (removelast (tl record)).

(** The payloads of the 16 records of a listing. *)
Definition listing_payloads (signed_char : bool) (buf : list ascii) : list (list ascii) :=
  map (fun i => record_payload (rom_record signed_char buf (Z.of_nat i))) (seq 0 16).

(** The bytes [32 * i .. 32 * i + 31] of a buffer. *)
Definition chunk (buf : list ascii) (i : nat) : list ascii :=
  firstn 32 (skipn (32 * i) buf).

(** Bytes that print the same whether plain [char] is signed or not. *)
Definition plain (signed_char : bool) (c : ascii) : bool :=
  negb signed_char || (code c <? 128).

(** *** Readings of the specification, to compare with the code *)

(** The lines of a text: the runs of characters between newlines. *)
Fixpoint spec_lines (cur : list ascii) (f : list ascii) : list (list ascii) :=
  match f with
  | [] => match cur with [] => [] | _ :: _ => [rev cur] end
  | c :: f' =>
      if Ascii.eqb c LF then rev cur :: spec_lines [] f'
      else spec_lines (c :: cur) f'
  end.

(** The ROM image as the specification has it: the first 8 lines of the
    description file, each without its terminator and with a NUL, then
    the library names of the peripherals, then zeros. *)
Definition spec_rom (desc : list ascii) (tr : list event) : list ascii :=
  let content := flat_map packed_string (firstn 8 (spec_lines [] desc)) ++ drivers tr in
  content ++ repeat NUL (Z.to_nat ENUMROMSZ - List.length content).

Definition unhex_digit (c : ascii) : option Z :=
  let n := code c in
  if (48 <=? n) && (n <=? 57) then Some (n - 48)
  else if (97 <=? n) && (n <=? 102) then Some (n - 87)
  else if (65 <=? n) && (n <=? 70) then Some (n - 55)
  else None.

(** Parsing a hexadecimal payload, two digits a byte. *)
Fixpoint unhex (l : list ascii) : option (list ascii) :=
  match l with
  | [] => Some []
  | h :: l' =>
      match l' with
      | [] => None
      | d :: r =>
          match unhex_digit h, unhex_digit d, unhex r with
          | Some x, Some y, Some bs => Some (ascii_of_N (Z.to_N (16 * x + y)) :: bs)
          | _, _, _ => None
          end
      end
  end.

(** Decoding a record: its payload parsed into bytes, in reverse order. *)
Definition decode_record (payload : list ascii) : option (list ascii) :=
  option_map (@rev ascii) (unhex payload).

(** Decoding the records of a listing and putting the chunks end to
    end. *)
Fixpoint decode_listing (payloads : list (list ascii)) : option (list ascii) :=
  match payloads with
  | [] => Some []
  | p :: r =>
      match decode_record p, decode_listing r with
      | Some a, Some b => Some (a ++ b)
      | _, _ => None
      end
  end.

(** *** Invariants of the loops *)

(** An append [(d, out)] to the ROM that ends within it. *)
Definition fits (w : Z * list ascii) : Prop :=
  fst w + Z.of_nat (List.length (snd w)) <= ENUMROMSZ.

(** Every append so far ends within the ROM, and nothing is written to
    enumerator.lst. *)
Definition no_overflow_yet (st : state) : Prop :=
  Forall fits (rom_writes (trace st)) /\ printed penumlst (trace st) = [].

(** A run stopped by the ROM overflow: the append [(d, out)] that
    exceeds the ROM is the last one, the exit status is 1, nothing was
    written to enumerator.lst, and the append is followed by the
    overflow message and nothing else. *)
Definition overflow_stops (status : Z) (st : state) : Prop :=
  forall pre d out post,
    rom_writes (trace st) = pre ++ (d, out) :: post ->
    d + Z.of_nat (List.length out) > ENUMROMSZ ->
    post = [] /\ status = 1 /\ printed penumlst (trace st) = [] /\
    exists tr, trace st = tr ++ [RomWrite d out; Overrun "rom"; Output stdout rom_overflow].

(** The ROM holds the header bytes [hdr], then the library names of the
    peripherals invoked so far. *)
Definition packs (hdr : list ascii) (st : state) : Prop :=
  rom_holds st (hdr ++ drivers (trace st)).

(** Nothing on [stderr] nor on enumerator.lst, and the module not
    closed. *)
Definition quiet (st : state) : Prop :=
  printed penumlst (trace st) = [] /\ printed stderr (trace st) = [] /\
  existsb is_endmodule (printed stdout (trace st)) = false.

(** The integers of the state at the head of the peripheral loop. *)
Definition bounded (st : state) : Prop :=
  0 <= slot st /\ 0 <= pin st <= 8 * slot st /\
  4 * slot st <= romindx st <= ENUMROMSZ /\
  Forall (fun i => let '(_, s, p, _) := i in 0 <= s <= 512 /\ 0 <= p <= 8 * s)
         (invocations (trace st)).

(** The integers of the state at an exit. *)
Definition bounded_at_exit (st : state) : Prop :=
  0 <= slot st <= 512 /\ 0 <= pin st <= 4104 /\
  0 <= romindx st <= ENUMROMSZ + 11 /\
  Forall (fun i => let '(_, s, p, _) := i in 0 <= s <= 512 /\ 0 <= p <= 4096)
         (invocations (trace st)).

(** *** Description files used as examples *)

(** A text: its lines, each ended by a newline. *)
Definition text (ls : list string) : list ascii :=
  flat_map (fun l => bytes l ++ [LF]) ls.

Definition placeholder_headers : list string :=
  ["h1"; "h2"; "h3"; "h4"; "h5"; "h6"; "h7"; "h8"].

(** Eight placeholder header lines, then servo4 and null. *)
Definition servo4_null : list ascii := text (placeholder_headers ++ ["servo4"; "null"]).

(** The same with an unknown name between the two peripherals. *)
Definition unknown_second : list ascii :=
  text (placeholder_headers ++ ["servo4"; "bogus"; "null"]).

(** A first line of 300 characters, seven empty lines, one peripheral. *)
Definition long_first_line : list ascii :=
  repeat "a"%char 300 ++ [LF] ++ repeat LF 7 ++ text ["null"].

(** A line of 300 characters, five short ones and a last line of three
    characters without a newline: eight header reads. *)
Definition unterminated : list ascii :=
  repeat "a"%char 300 ++ [LF] ++ text ["b"; "b"; "b"; "b"; "b"] ++ bytes "xyz".

(** Eight header lines of 254 characters, which leave 8 bytes of ROM. *)
Definition full_headers : list ascii :=
  flat_map (fun _ => repeat "h"%char 254 ++ [LF]) (seq 0 8).

(** The ROM overflows on the first peripheral; the second is unknown. *)
Definition overflow_then_unknown : list ascii :=
  full_headers ++ text ["enumerator"; "bogus"].

(** Full header lines and one peripheral: a ROM used up to its byte
    2044. *)
Definition large_rom : list ascii := full_headers ++ text ["null"].

(** A header line that starts with the byte E9 (an e acute in Latin-1). *)
Definition latin1_header : list ascii :=
  ascii_of_nat 233 :: text (placeholder_headers ++ ["null"]).

(** ** Notions used to state further properties of the code *)

(** *** Instances, modules and include files *)

(** The table entry of an instance. *)
Definition entry_of (i : ENUMERATORS * Z * Z * string) : ENUMERATORS :=
  let '(e, _, _, _) := i in e.

(** The entries invoked, in order. *)
Definition invoked (tr : list event) : list ENUMERATORS := map entry_of (invocations tr).

(** The line of [printbus] (and of [perilist]) that opens an instance:
    its [%s] is the Verilog module instantiated. *)
Definition instance_line : string := "    %s p%02d(p%02dclk,p%02drdwr,".

Definition module_of (c : call) : list string :=
  if String.eqb (fmt c) instance_line then
    match args c with
    | Str m :: _ => [m]
    | _ => []
    end
  else [].

(** The modules instantiated by what was printed, in order. *)
Definition modules_of (cs : list call) : list string := flat_map module_of cs.

(** The file an include line names, without its [.v]. *)
Definition included (c : call) : list string :=
  if String.eqb (fmt c) "`include \042%s.v\042\n" then
    match args c with
    | [Str m] => [m]
    | _ => []
    end
  else [].

(** The instances and the include lines printed so far name the same
    modules, those of the entries invoked. *)
Definition included_modules (st : state) : Prop :=
  modules_of (printed stdout (trace st)) = map incname (invoked (trace st)) /\
  printed pincludes (trace st) = map include_line (invoked (trace st)).

(** *** The ends of a run *)

Definition not_enough : call := fprintf "Not enough ROM strings\n" [].

(** *** Addresses and pins in every run *)

(** The entry and the name of an instance, without its address and
    pin. *)
Definition request_of (i : ENUMERATORS * Z * Z * string) : ENUMERATORS * string :=
  let '(e, _, _, n) := i in (e, n).

(** The instances so far took the addresses 0, 1, ... and the pins 0,
    1, ... without a gap, and the pins assigned on stdout are those
    below the next free pin. *)
Definition gap_free (st : state) : Prop :=
  invocations (trace st) = allocate 0 0 (map request_of (invocations (trace st))) /\
  pin st = sumZ (map pinCount (invoked (trace st))) /\
  pins_of (printed stdout (trace st)) = pin_range 0 (pin st).

(** A run that reached [exit(0)]: the module is closed, once and at the
    end of stdout, the listing of the final ROM is on enumerator.lst
    and nothing is on stderr. *)
Definition completed (signed_char : bool) (st : state) : Prop :=
  printed stderr (trace st) = [] /\
  printed penumlst (trace st) = rom_listing signed_char (rom st) /\
  romindx st <= ENUMROMSZ /\
  exists body, printed stdout (trace st) = body ++ [endmodule] /\
               existsb is_endmodule body = false.

(** The three [exit(1)] of [main], each after one message. *)
Definition missing_header_exit (st : state) : Prop :=
  printed stdout (trace st) = [not_enough] /\ printed stderr (trace st) = [] /\
  invocations (trace st) = [].

Definition unknown_exit (argv0 : string) (st : state) : Prop :=
  exists tr peri, trace st = tr ++ [Output stderr (unknown_peripheral argv0 peri)] /\
                  printed stderr tr = [] /\ search peri enumerators = None.

Definition overflow_exit (st : state) : Prop :=
  exists tr, trace st = tr ++ [Output stdout rom_overflow] /\
             printed stderr (trace st) = [] /\ ENUMROMSZ < romindx st.

(** A run that reached an [exit(1)] of [main]: the module is not closed,
    nothing is on enumerator.lst, and the last thing the run did was to
    print one of the three messages. *)
Definition aborted (argv0 : string) (st : state) : Prop :=
  printed penumlst (trace st) = [] /\
  existsb is_endmodule (printed stdout (trace st)) = false /\
  (missing_header_exit st \/ unknown_exit argv0 st \/ overflow_exit st).

(** The same for the exits of the peripheral loop. *)
Definition loop_aborted (argv0 : string) (st : state) : Prop :=
  printed penumlst (trace st) = [] /\
  existsb is_endmodule (printed stdout (trace st)) = false /\
  (unknown_exit argv0 st \/ overflow_exit st).

(** *** What a run leaves behind *)

(** Two states with the same variables and the same effects: what was
    printed on each stream, the invocations and the appends to the ROM.
    (Their traces may differ by the overruns recorded.) *)
Definition same_output (a b : state) : Prop :=
  slot a = slot b /\ pin a = pin b /\ rom a = rom b /\ romindx a = romindx b /\
  (forall g, printed g (trace a) = printed g (trace b)) /\
  invocations (trace a) = invocations (trace b) /\
  rom_writes (trace a) = rom_writes (trace b).

(** Two passes or two runs that end the same way. *)
Definition same_flow (x y : flow) : Prop :=
  match x, y with
  | Next a, Next b => same_output a b
  | Exit c a, Exit d b => c = d /\ same_output a b
  | _, _ => False
  end.

(** The file [servo4_null] with servo4 on a line that starts with a
    [#] and a space, and with other white space between the names. *)
Definition commented_servo4 : list ascii :=
  text placeholder_headers ++ bytes "#one" ++ [LF] ++ bytes "# servo4" ++ [LF; LF]
  ++ bytes "   null #".

(** *** Reading the ROM back *)

(** The NUL terminated strings packed one after the other in a buffer,
    as a reader of the ROM finds them; [cur] is the string being read,
    last character first. *)
Fixpoint unpack (cur : list ascii) (buf : list ascii) : list (list ascii) :=
  match buf with
  | [] => []
  | c :: r => if Ascii.eqb c NUL then rev cur :: unpack [] r else unpack (c :: cur) r
  end.

(** The part of the ROM in use. *)
Definition rom_used (st : state) : list ascii := firstn (Z.to_nat (romindx st)) (rom st).

(** *** The room taken in the ROM *)

(** The bytes the ROM needs for the header strings read: each without
    its last character, and a NUL. *)
Definition header_need (cs : list (list ascii)) : Z :=
  sumZ (map (fun c => Z.of_nat (String.length (header_string c)) + 1) cs).

(** Full header lines and the enumerator: 2051 bytes of ROM asked
    for. *)
Definition overflowing : list ascii := full_headers ++ text ["enumerator"].

(** Full header lines, then dc2 and rtc: exactly 2048 bytes of ROM. *)
Definition exactly_full : list ascii := full_headers ++ text ["dc2"; "rtc"].

(** *** Stores outside a buffer *)

(** The buffers overrun in a run, in order. *)
Definition overruns (tr : list event) : list string :=
  flat_map (fun ev => match ev with Overrun b => [b] | _ => [] end) tr.

(** A token that [fscanf] stores within [peri], with its NUL. *)
Definition short (peri : list ascii) : Prop := Z.of_nat (List.length peri) < PERILEN.

(** From [st] to [st']: the ROM index does not decrease, and the passes
    over [toks] overrun no buffer exactly when the tokens are short and
    the appends, if any, end below the last byte of the ROM. *)
Definition overrun_free_iff (toks : list (list ascii)) (st st' : state) : Prop :=
  romindx st <= romindx st' /\
  exists l, overruns (trace st') = overruns (trace st) ++ l /\
            (l = [] <-> Forall short toks /\
                        (romindx st' < ENUMROMSZ \/ romindx st' = romindx st)).

(** *** Signal names *)

(** The addresses a call prints in its signal names: the arguments of
    the [%02d] directives that do not follow the text [`PIN_]. *)
Fixpoint slots_of_pieces (last : list ascii) (ps : list piece) (xs : list arg) : list Z :=
  match ps with
  | [] => []
  | Lit c :: ps' => slots_of_pieces (c :: firstn 4 last) ps' xs
  | Directive k :: ps' =>
      match xs with
      | [] => []
      | a :: xs' =>
          match k, a with
          | Conv_02d, Int z =>
              if String.eqb (string_of_list_ascii (rev last)) "`PIN_"
              then slots_of_pieces [] ps' xs'
              else z :: slots_of_pieces [] ps' xs'
          | _, _ => slots_of_pieces [] ps' xs'
          end
      end
  end.

Definition slots_of_call (c : call) : list Z :=
  slots_of_pieces [] (parse_fmt (c_lit (fmt c))) (args c).

Definition slots_of (cs : list call) : list Z := flat_map slots_of_call cs.

(** The strings a call prints with [%s]. *)
Definition strings_of_call (c : call) : list string :=
  flat_map (fun a => match a with Str s => [s] | Int _ => [] end) (args c).

(** ** The start of [main]: its arguments and its three files *)





(** *** What stdout holds *)

(** The text of the instances invoked, in order. *)
Definition fragments (tr : list event) : list call := flat_map emitted (invocations tr).

(** How stdout ends, for an exit status and what stderr holds. *)
Definition last_line (argv0 : string) (status : Z) (err tail : list call) : Prop :=
  (status = 0 /\ tail = [endmodule] /\ err = []) \/
  (status = 1 /\ tail = [rom_overflow] /\ err = []) \/
  (status = 1 /\ tail = [not_enough] /\ err = []) \/
  (status = 1 /\ tail = [] /\ exists peri, err = [unknown_peripheral argv0 peri]).

(** *** The largest design *)

(** Eight empty header lines and 510 peripherals with a library name
    of three characters. *)
Definition largest_design : list ascii :=
  repeat LF 8 ++ List.concat (repeat (bytes "dc2" ++ [LF]) 510).

(** Seven header lines, one short of the eight that [main] reads. *)
Definition seven_lines : list ascii := text (firstn 7 placeholder_headers).

(** ** The domain of the embedding *)

(** *** Tokens that fit [peri] *)

(** Every token read after the 8 header strings, comment or name, has
    fewer than [PERILEN] characters, so that [fscanf] stores it in
    [peri] with its NUL.  (Where the header strings are missing no
    token is read.) *)
Definition short_tokens (desc : list ascii) : Prop :=
  forall cs f, fgets_lines 8 desc = Some (cs, f) -> Forall short (tokens f).

(** No [fscanf] of the run ran over [peri]. *)
Definition peri_fits (st : state) : Prop := ~ In (Overrun "peri") (trace st).

(** *** The range of [int] *)

Definition INT_MIN : Z := - 2 ^ 31.
Definition INT_MAX : Z := 2 ^ 31 - 1.

(** An integer that a C [int] of 32 bits holds. *)
Definition is_int (z : Z) : Prop := INT_MIN <= z <= INT_MAX.

(** The [int] that a sum gives on a two's complement machine when it
    leaves the range (in C the overflow of an [int] is undefined; this
    is what the usual builds do). *)
Definition wrap_int (z : Z) : Z := (z - INT_MIN) mod 2 ^ 32 + INT_MIN.

(** *** Readings of the specification: comments *)

(** A comment as the specification has it: a token that begins with
    the marker [#]. *)
Definition spec_comment (t : list ascii) : bool :=
  match t with
  | c :: _ => Ascii.eqb c "#"%char
  | [] => false
  end.

(** The tokens that are not comments, in the order of the file. *)
Definition spec_names (toks : list (list ascii)) : list (list ascii) :=
  filter (fun t => negb (spec_comment t)) toks.

(** *** More description files *)

(** Placeholder headers, then a comment, servo4, an unknown name and
    null. *)
Definition unknown_after_comment : list ascii :=
  text (placeholder_headers ++ ["#motors"; "servo4"; "bogus"; "null"]).


(** * Properties *)

(** ** Bytes, C strings and stores *)

Lemma length_bytes (s : string) : List.length (bytes s) = String.length s.
Proof. induction s as [|c s IH]; simpl; [reflexivity | now rewrite IH]. Qed.

Lemma bytes_inj (s t : string) : bytes s = bytes t -> s = t.
Proof.
  intros H. rewrite <- (string_of_list_ascii_of_string s), <- (string_of_list_ascii_of_string t).
  unfold bytes in H. now rewrite H.
Qed.

Lemma code_range (c : ascii) : 0 <= code c < 256.
Proof.
  unfold code. pose proof (N_ascii_bounded c) as H. lia.
Qed.

Lemma code_inj (a b : ascii) : code a = code b -> a = b.
Proof.
  unfold code. intros H. apply N2Z.inj in H.
  rewrite <- (ascii_N_embedding a), <- (ascii_N_embedding b). now rewrite H.
Qed.

Lemma code_NUL (c : ascii) : code c = 0 -> c = NUL.
Proof. intros H. apply code_inj. exact H. Qed.

(** A C string holds no NUL. *)
Lemma c_str_nul_free (buf : list ascii) : ~ In NUL (bytes (c_str buf)).
Proof.
  induction buf as [|c r IH]; simpl; [tauto|].
  destruct (Ascii.eqb c NUL) eqn:E; simpl; [tauto|].
  intros [H | H]; [|tauto]. subst c. discriminate E.
Qed.

Lemma c_str_bytes (s : string) : ~ In NUL (bytes s) -> c_str (bytes s) = s.
Proof.
  induction s as [|c s IH]; simpl; [reflexivity|]. intros H.
  destruct (Ascii.eqb c NUL) eqn:E.
  - apply Ascii.eqb_eq in E. tauto.
  - f_equal. apply IH. tauto.
Qed.

Lemma c_str_nul_free_id (l : list ascii) : ~ In NUL l -> bytes (c_str l) = l.
Proof.
  induction l as [|c r IH]; simpl; [reflexivity|]. intros H.
  destruct (Ascii.eqb c NUL) eqn:E.
  - apply Ascii.eqb_eq in E. subst. tauto.
  - simpl. f_equal. apply IH. tauto.
Qed.

Lemma strlen_length (buf : list ascii) : 0 <= strlen buf <= Z.of_nat (List.length buf).
Proof.
  unfold strlen. induction buf as [|c r IH]; simpl; [lia|].
  destruct (Ascii.eqb c NUL); simpl; lia.
Qed.

Lemma length_upd {A : Type} (n : nat) (x : A) (l : list A) :
  List.length (upd n x l) = List.length l.
Proof.
  revert n; induction l as [|h t IH]; intros [|n]; simpl; auto.
Qed.

Lemma upd_beyond {A : Type} (n : nat) (x : A) (l : list A) :
  (List.length l <= n)%nat -> upd n x l = l.
Proof.
  revert n; induction l as [|h t IH]; intros [|n] H; simpl in *; auto; try lia.
  f_equal. apply IH. lia.
Qed.

Lemma upd_app {A : Type} (l : list A) (x y : A) (r : list A) :
  upd (List.length l) x (l ++ y :: r) = l ++ x :: r.
Proof. induction l as [|h t IH]; simpl; [reflexivity | now rewrite IH]. Qed.

Lemma length_store (buf : list ascii) (i : Z) (b : ascii) :
  List.length (store buf i b) = List.length buf.
Proof. unfold store. destruct (i <? 0); [reflexivity | apply length_upd]. Qed.

Lemma length_write (bs buf : list ascii) (i : Z) :
  List.length (write buf i bs) = List.length buf.
Proof.
  revert buf i; induction bs as [|b r IH]; intros buf i; simpl; [reflexivity|].
  rewrite IH. apply length_store.
Qed.

(** Overwriting the last character of the string in a buffer leaves the
    string without its last character (and an empty string empty: the
    store then falls before the buffer). *)
Lemma header_string_removelast (romstr : list ascii) :
  bytes (header_string romstr) = removelast (bytes (c_str romstr)).
Proof.
  unfold header_string, strlen.
  induction romstr as [|c r IH]; [reflexivity|].
  cbn [c_str]. destruct (Ascii.eqb c NUL) eqn:E.
  - cbn. rewrite E. reflexivity.
  - cbn [String.length bytes list_ascii_of_string].
    destruct (c_str r) as [|d s] eqn:Er.
    + cbn. reflexivity.
    + assert (Hs : store (c :: r) (Z.of_nat (S (String.length (String d s))) - 1) NUL
                   = c :: store r (Z.of_nat (String.length (String d s)) - 1) NUL).
      { unfold store.
        replace (Z.of_nat (S (String.length (String d s))) - 1 <? 0) with false
          by (symmetry; apply Z.ltb_ge; lia).
        replace (Z.of_nat (String.length (String d s)) - 1 <? 0) with false
          by (symmetry; apply Z.ltb_ge; cbn [String.length]; lia).
        replace (Z.to_nat (Z.of_nat (S (String.length (String d s))) - 1))
          with (S (Z.to_nat (Z.of_nat (String.length (String d s)) - 1)))
          by (cbn [String.length]; lia).
        reflexivity. }
      rewrite Hs. cbn [c_str]. rewrite E.
      cbn [bytes list_ascii_of_string]. fold (bytes (c_str (store r (Z.of_nat (String.length (String d s)) - 1) NUL))).
      rewrite IH. reflexivity.
Qed.

Lemma write_zeros (bs content : list ascii) (k : nat) :
  (List.length bs <= k)%nat ->
  write (content ++ repeat NUL k) (Z.of_nat (List.length content)) (bs ++ [NUL])
  = content ++ bs ++ repeat NUL (k - List.length bs).
Proof.
  revert content k; induction bs as [|b r IH]; intros content k Hk.
  - cbn [List.app write List.length]. rewrite Nat.sub_0_r. unfold store.
    replace (Z.of_nat (List.length content) <? 0) with false by (symmetry; apply Z.ltb_ge; lia).
    rewrite Nat2Z.id. destruct k as [|k]; cbn [repeat].
    + apply upd_beyond. rewrite length_app. simpl. lia.
    + apply upd_app.
  - cbn [List.length] in Hk. destruct k as [|k]; [lia|].
    cbn [List.app write List.length repeat]. unfold store.
    replace (Z.of_nat (List.length content) <? 0) with false by (symmetry; apply Z.ltb_ge; lia).
    rewrite Nat2Z.id, upd_app.
    replace (content ++ b :: repeat NUL k) with ((content ++ [b]) ++ repeat NUL k)
      by (rewrite <- app_assoc; reflexivity).
    replace (Z.of_nat (List.length content) + 1) with (Z.of_nat (List.length (content ++ [b])))
      by (rewrite length_app; simpl; lia).
    rewrite IH by lia. rewrite <- app_assoc. reflexivity.
Qed.

(** What [sprintf(..., "%s%c", s, (char) 0)] prints. *)
Lemma sprintf_string_nul (s : string) :
  sprintf (fprintf "%s%c" [Str s; Int 0]) = packed_string (bytes s).
Proof. reflexivity. Qed.

Lemma rom_sprintf_romindx (s : string) (st : state) :
  romindx (rom_sprintf s st) = romindx st + Z.of_nat (String.length s) + 1.
Proof.
  unfold rom_sprintf. rewrite sprintf_string_nul. cbn [romindx]. unfold packed_string.
  rewrite length_app, length_bytes. simpl. lia.
Qed.

Lemma rom_sprintf_slot_pin (s : string) (st : state) :
  slot (rom_sprintf s st) = slot st /\ pin (rom_sprintf s st) = pin st.
Proof. split; reflexivity. Qed.

Lemma rom_sprintf_length (s : string) (st : state) :
  List.length (rom (rom_sprintf s st)) = List.length (rom st).
Proof. unfold rom_sprintf. cbn [rom]. apply length_write. Qed.

Lemma rom_sprintf_trace (s : string) (st : state) :
  trace (rom_sprintf s st)
  = trace st ++ RomWrite (romindx st) (packed_string (bytes s))
      :: (if romindx st + Z.of_nat (String.length s) + 1 <? ENUMROMSZ then []
          else [Overrun "rom"]).
Proof.
  unfold rom_sprintf. rewrite sprintf_string_nul. cbn [trace]. unfold packed_string.
  rewrite length_app, length_bytes. simpl List.length.
  replace (romindx st + Z.of_nat (String.length s + 1)) with
    (romindx st + Z.of_nat (String.length s) + 1) by lia.
  reflexivity.
Qed.

(** An append that fits keeps the image packed. *)
Lemma rom_sprintf_holds (s : string) (st : state) (content : list ascii) :
  rom_holds st content ->
  romindx st + Z.of_nat (String.length s) + 1 <= ENUMROMSZ ->
  rom_holds (rom_sprintf s st) (content ++ packed_string (bytes s)).
Proof.
  intros (Hrom & Hidx & Hlen) Hfit.
  assert (Hl : (List.length content + (String.length s + 1) <= Z.to_nat ENUMROMSZ)%nat).
  { unfold ENUMROMSZ in *. lia. }
  unfold rom_holds. rewrite rom_sprintf_romindx.
  unfold packed_string. rewrite !length_app, length_bytes. simpl List.length.
  split; [|split; [lia | lia]].
  unfold rom_sprintf. rewrite sprintf_string_nul. cbn [rom]. unfold packed_string.
  rewrite Hrom, Hidx.
  rewrite write_zeros.
  - rewrite !length_app, length_bytes. simpl List.length.
    rewrite <- !app_assoc. do 3 f_equal.
    replace (Z.to_nat ENUMROMSZ - List.length content - (String.length s + 1))%nat
      with (Z.to_nat ENUMROMSZ - (List.length content + (String.length s + 1)))%nat by lia.
    reflexivity.
  - rewrite length_app, length_bytes. cbn [List.length]. lia.
Qed.

Lemma initial_holds : rom_holds initial [].
Proof. repeat split; simpl; lia. Qed.

(** *** Projections of the trace *)

Lemma printed_app (f : stream) (a b : list event) :
  printed f (a ++ b) = printed f a ++ printed f b.
Proof. apply flat_map_app. Qed.

Lemma rom_writes_app (a b : list event) :
  rom_writes (a ++ b) = rom_writes a ++ rom_writes b.
Proof. apply flat_map_app. Qed.

Lemma invocations_app (a b : list event) :
  invocations (a ++ b) = invocations a ++ invocations b.
Proof. apply flat_map_app. Qed.

Lemma printed_Output_same (f : stream) (cs : list call) :
  printed f (map (Output f) cs) = cs.
Proof.
  induction cs as [|c r IH]; [reflexivity|].
  cbn [map]. change (Output f c :: map (Output f) r) with ([Output f c] ++ map (Output f) r).
  rewrite printed_app, IH. destruct f; reflexivity.
Qed.

Lemma printed_Output_other (f g : stream) (cs : list call) :
  f <> g -> printed f (map (Output g) cs) = [].
Proof.
  intros H. induction cs as [|c r IH]; [reflexivity|].
  cbn [map]. change (Output g c :: map (Output g) r) with ([Output g c] ++ map (Output g) r).
  rewrite printed_app, IH. destruct f, g; try reflexivity; congruence.
Qed.

Lemma rom_writes_Output (g : stream) (cs : list call) : rom_writes (map (Output g) cs) = [].
Proof. induction cs as [|c r IH]; [reflexivity | exact IH]. Qed.

Lemma invocations_Output (g : stream) (cs : list call) : invocations (map (Output g) cs) = [].
Proof. induction cs as [|c r IH]; [reflexivity | exact IH]. Qed.

Lemma drivers_app (a b : list event) : drivers (a ++ b) = drivers a ++ drivers b.
Proof. unfold drivers. rewrite invocations_app. apply flat_map_app. Qed.

Lemma rom_writes_nil : rom_writes [] = [].
Proof. reflexivity. Qed.

Lemma rom_writes_RomWrite (d : Z) (o : list ascii) (l : list event) :
  rom_writes (RomWrite d o :: l) = (d, o) :: rom_writes l.
Proof. reflexivity. Qed.

Lemma rom_writes_Invoke (e : ENUMERATORS) (s p : Z) (n : string) (l : list event) :
  rom_writes (Invoke e s p n :: l) = rom_writes l.
Proof. reflexivity. Qed.

Lemma rom_writes_Output_cons (g : stream) (c : call) (l : list event) :
  rom_writes (Output g c :: l) = rom_writes l.
Proof. reflexivity. Qed.

Lemma rom_writes_Overrun (b : string) (l : list event) :
  rom_writes (Overrun b :: l) = rom_writes l.
Proof. reflexivity. Qed.

Lemma rom_writes_if_Overrun (c : bool) (b : string) :
  rom_writes (if c then [] else [Overrun b]) = [].
Proof. destruct c; reflexivity. Qed.

Lemma invocations_nil : invocations [] = [].
Proof. reflexivity. Qed.

Lemma invocations_RomWrite (d : Z) (o : list ascii) (l : list event) :
  invocations (RomWrite d o :: l) = invocations l.
Proof. reflexivity. Qed.

Lemma invocations_Invoke (e : ENUMERATORS) (s p : Z) (n : string) (l : list event) :
  invocations (Invoke e s p n :: l) = (e, s, p, n) :: invocations l.
Proof. reflexivity. Qed.

Lemma invocations_Output_cons (g : stream) (c : call) (l : list event) :
  invocations (Output g c :: l) = invocations l.
Proof. reflexivity. Qed.

Lemma invocations_Overrun (b : string) (l : list event) :
  invocations (Overrun b :: l) = invocations l.
Proof. reflexivity. Qed.

Lemma invocations_if_Overrun (c : bool) (b : string) :
  invocations (if c then [] else [Overrun b]) = [].
Proof. destruct c; reflexivity. Qed.

Lemma printed_nil (f : stream) : printed f [] = [].
Proof. reflexivity. Qed.

Lemma printed_RomWrite (f : stream) (d : Z) (o : list ascii) (l : list event) :
  printed f (RomWrite d o :: l) = printed f l.
Proof. reflexivity. Qed.

Lemma printed_Invoke (f : stream) (e : ENUMERATORS) (s p : Z) (n : string) (l : list event) :
  printed f (Invoke e s p n :: l) = printed f l.
Proof. reflexivity. Qed.

Lemma printed_Overrun (f : stream) (b : string) (l : list event) :
  printed f (Overrun b :: l) = printed f l.
Proof. reflexivity. Qed.

Lemma printed_if_Overrun (f : stream) (c : bool) (b : string) :
  printed f (if c then [] else [Overrun b]) = [].
Proof. destruct c; reflexivity. Qed.

Lemma printed_same_cons (f : stream) (c : call) (l : list event) :
  printed f (Output f c :: l) = c :: printed f l.
Proof. destruct f; reflexivity. Qed.

Lemma printed_other_cons (f g : stream) (c : call) (l : list event) :
  f <> g -> printed f (Output g c :: l) = printed f l.
Proof. intros H. destruct f, g; try reflexivity; congruence. Qed.

Create Rewrite HintDb proj.

#[export] Hint Rewrite
  printed_app rom_writes_app invocations_app
  rom_writes_nil rom_writes_RomWrite rom_writes_Invoke rom_writes_Output_cons
  rom_writes_Overrun rom_writes_if_Overrun rom_writes_Output
  invocations_nil invocations_RomWrite invocations_Invoke invocations_Output_cons
  invocations_Overrun invocations_if_Overrun invocations_Output
  printed_nil printed_RomWrite printed_Invoke printed_Overrun printed_if_Overrun
  printed_same_cons printed_Output_same
  app_nil_r app_nil_l : proj.

#[export] Hint Rewrite printed_other_cons printed_Output_other using discriminate : proj.

(** ** The table lookup *)

Lemma strncmp_zero_iff (n : nat) (s1 s2 : string) :
  ~ In NUL (bytes s1) -> ~ In NUL (bytes s2) -> (String.length s2 < n)%nat ->
  strncmp s1 s2 n = 0 <-> s1 = s2.
Proof.
  revert s1 s2; induction n as [|n IH]; intros s1 s2 H1 H2 Hn; [lia|].
  cbn [strncmp].
  destruct s1 as [|c1 t1], s2 as [|c2 t2]; cbn [head_char tail_chars].
  - simpl. tauto.
  - destruct (Ascii.eqb NUL c2) eqn:E.
    + apply Ascii.eqb_eq in E. subst c2. simpl in H2. tauto.
    + cbn [negb]. split; [|discriminate]. intros H.
      apply Zminus_eq, code_inj in H. subst c2.
      rewrite Ascii.eqb_refl in E. discriminate.
  - destruct (Ascii.eqb c1 NUL) eqn:E.
    + apply Ascii.eqb_eq in E. subst c1. simpl in H1. tauto.
    + cbn [negb]. split; [|discriminate]. intros H.
      apply Zminus_eq, code_inj in H. subst c1.
      rewrite Ascii.eqb_refl in E. discriminate.
  - destruct (Ascii.eqb c1 c2) eqn:E; cbn [negb].
    + apply Ascii.eqb_eq in E. subst c2.
      destruct (Ascii.eqb c1 NUL) eqn:E1.
      * apply Ascii.eqb_eq in E1. subst c1. simpl in H1. tauto.
      * simpl in H1, H2, Hn. rewrite IH by (tauto || lia).
        split; intros H; [now subst | now inversion H].
    + split; intros H.
      * apply Zminus_eq, code_inj in H. subst c2.
        rewrite Ascii.eqb_refl in E. discriminate.
      * inversion H; subst. rewrite Ascii.eqb_refl in E. discriminate.
Qed.

(** The names of the table hold no NUL and are shorter than the 19
    characters [strncmp] is given. *)
Lemma enumerators_names :
  Forall (fun e => ~ In NUL (bytes (periname e)) /\
                   (String.length (periname e) < Z.to_nat (PERILEN - 1))%nat) enumerators.
Proof.
  unfold enumerators.
  repeat (apply Forall_cons;
          [split; [cbn; unfold NUL; intuition discriminate | cbn; lia]|]).
  apply Forall_nil.
Qed.

Lemma search_find (peri : string) (tbl : list ENUMERATORS) :
  Forall (fun e => ~ In NUL (bytes (periname e)) /\
                   (String.length (periname e) < Z.to_nat (PERILEN - 1))%nat) tbl ->
  ~ In NUL (bytes peri) ->
  search peri tbl = find (fun e => String.eqb (periname e) peri) tbl.
Proof.
  intros Htbl Hperi. induction Htbl as [|e tbl [He1 He2] _ IH]; [reflexivity|].
  cbn [search find].
  destruct (String.eqb (periname e) peri) eqn:E.
  - apply String.eqb_eq in E.
    replace (strncmp peri (periname e) (Z.to_nat (PERILEN - 1)) =? 0) with true; [reflexivity|].
    symmetry. apply Z.eqb_eq. apply strncmp_zero_iff; auto.
  - replace (strncmp peri (periname e) (Z.to_nat (PERILEN - 1)) =? 0) with false; [exact IH|].
    symmetry. apply Z.eqb_neq. intros H. apply strncmp_zero_iff in H; auto.
    subst peri. rewrite String.eqb_refl in E. discriminate.
Qed.

Lemma find_first {A : Type} (f : A -> bool) (l : list A) (x : A) :
  find f l = Some x <->
  exists l1 l2, l = l1 ++ x :: l2 /\ f x = true /\ Forall (fun y => f y = false) l1.
Proof.
  induction l as [|a l IH]; cbn [find].
  - split; [discriminate|]. intros (l1 & l2 & H & _). destruct l1; discriminate.
  - destruct (f a) eqn:E.
    + split.
      * intros H. inversion H; subst. exists [], l. auto.
      * intros (l1 & l2 & H & Hx & Hl1). destruct l1 as [|b l1].
        -- inversion H; subst. reflexivity.
        -- inversion H; subst. inversion Hl1; subst. congruence.
    + rewrite IH. split.
      * intros (l1 & l2 & H & Hx & Hl1). exists (a :: l1), l2. subst l. auto.
      * intros (l1 & l2 & H & Hx & Hl1). destruct l1 as [|b l1].
        -- inversion H; subst. congruence.
        -- inversion H; subst. inversion Hl1; subst. exists l1, l2. auto.
Qed.

Lemma find_none {A : Type} (f : A -> bool) (l : list A) :
  find f l = None <-> Forall (fun y => f y = false) l.
Proof.
  induction l as [|a l IH]; cbn [find].
  - split; auto.
  - destruct (f a) eqn:E.
    + split; [discriminate|]. intros H. inversion H; congruence.
    + rewrite IH. split; [auto|]. intros H. now inversion H.
Qed.

Lemma search_In (peri : string) (tbl : list ENUMERATORS) (e : ENUMERATORS) :
  search peri tbl = Some e -> In e tbl.
Proof.
  induction tbl as [|a tbl IH]; cbn [search]; [discriminate|].
  destruct (_ =? 0).
  - intros H. inversion H. now left.
  - intros H. right. auto.
Qed.

Lemma prefix_length (a b : string) :
  String.prefix a b = true -> (String.length a <= String.length b)%nat.
Proof.
  revert b; induction a as [|c a IH]; intros b H; [simpl; lia|].
  destruct b as [|d b]; [discriminate|]. simpl in H.
  destruct (ascii_dec c d); [|discriminate]. apply IH in H. simpl. lia.
Qed.

(** C6.  The lookup of [main] (a [strncmp] over the first 19 characters,
    down the table) is an exact match on the registered name.  For the
    string [peri] of any token: the lookup yields [e] exactly when [e] is
    the first entry of the table named [peri]; it yields nothing exactly
    when no entry is named [peri]; and an entry whose name [peri] only
    starts, or only extends, is never the result. *)
Theorem lookup_exact_match (tok : list ascii) :
  let peri := c_str tok in
  (forall e, search peri enumerators = Some e <->
             exists l1 l2, enumerators = l1 ++ e :: l2 /\ periname e = peri /\
                           Forall (fun x => periname x <> peri) l1)
  /\ (search peri enumerators = None <->
      Forall (fun x => periname x <> peri) enumerators)
  /\ (forall e, periname e <> peri /\
                (String.prefix peri (periname e) = true \/
                 String.prefix (periname e) peri = true) ->
                search peri enumerators <> Some e).
Proof.
  intros peri.
  assert (Hs : search peri enumerators
               = find (fun e => String.eqb (periname e) peri) enumerators)
    by (apply search_find; [apply enumerators_names | apply c_str_nul_free]).
  assert (Hneq : forall l, Forall (fun y => String.eqb (periname y) peri = false) l <->
                           Forall (fun x => periname x <> peri) l).
  { intros l. split; intros H; induction H; constructor; auto.
    - now apply String.eqb_neq.
    - now apply String.eqb_neq. }
  rewrite Hs. split; [|split].
  - intros e. rewrite find_first. split.
    + intros (l1 & l2 & H & Hx & Hl). exists l1, l2. repeat split; auto.
      * now apply String.eqb_eq.
      * now apply Hneq.
    + intros (l1 & l2 & H & Hx & Hl). exists l1, l2. repeat split; auto.
      * now apply String.eqb_eq.
      * now apply Hneq.
  - rewrite find_none. apply Hneq.
  - intros e [Hne _] H. apply find_first in H. destruct H as (_ & _ & _ & Hx & _).
    apply String.eqb_eq in Hx. contradiction.
Qed.

(** ** The invocation functions *)

Ltac invoke_entry :=
  split;
  [ vm_compute; split; discriminate
  | intros addr p peri;
    match goal with
    | |- context [pinCount ?e] =>
        let n := eval vm_compute in (pinCount e) in change (pinCount e) with n
    end;
    split;
    [ cbv -[Z.add]; rewrite ?Z.add_0_r; reflexivity
    | cbv -[Z.add]; rewrite ?Z.add_0_r; reflexivity ] ].

Lemma invoke_all :
  Forall (fun e =>
            0 <= pinCount e <= 8 /\
            forall (addr p : Z) (peri : string),
              snd (invoke e addr p peri) = p + pinCount e /\
              pins_of (fst (invoke e addr p peri)) = pin_range p (pinCount e))
         enumerators.
Proof.
  unfold enumerators.
  repeat (apply Forall_cons; [invoke_entry|]).
  apply Forall_nil.
Qed.

Lemma invoke_snd (e : ENUMERATORS) (addr p : Z) (peri : string) :
  In e enumerators -> snd (invoke e addr p peri) = p + pinCount e.
Proof.
  intros H. pose proof invoke_all as A. rewrite Forall_forall in A.
  apply (A e H).
Qed.

Lemma invoke_pins (e : ENUMERATORS) (addr p : Z) (peri : string) :
  In e enumerators -> pins_of (fst (invoke e addr p peri)) = pin_range p (pinCount e).
Proof.
  intros H. pose proof invoke_all as A. rewrite Forall_forall in A.
  apply (A e H).
Qed.

Lemma pinCount_bounds (e : ENUMERATORS) : In e enumerators -> 0 <= pinCount e <= 8.
Proof.
  intros H. pose proof invoke_all as A. rewrite Forall_forall in A.
  apply (A e H).
Qed.

(** No invocation function closes the module. *)
Lemma invoke_no_endmodule (e : ENUMERATORS) (addr p : Z) (peri : string) :
  In e enumerators -> existsb is_endmodule (fst (invoke e addr p peri)) = false.
Proof.
  revert e. apply Forall_forall. unfold enumerators.
  repeat (apply Forall_cons; [reflexivity|]).
  apply Forall_nil.
Qed.

(** The library names take 3 to 10 characters. *)
Lemma libname_length (e : ENUMERATORS) :
  In e enumerators -> (3 <= String.length (libname e) <= 10)%nat.
Proof.
  revert e. apply Forall_forall. unfold enumerators.
  repeat (apply Forall_cons; [cbn; lia|]).
  apply Forall_nil.
Qed.

Lemma pin_range_is_int (p n : Z) :
  is_int p -> is_int (p + n) -> Forall is_int (pin_range p n).
Proof.
  unfold is_int, pin_range. intros Hp Hn. apply Forall_forall. intros x Hx.
  apply in_map_iff in Hx. destruct Hx as (k & <- & Hk). apply in_seq in Hk. lia.
Qed.

(** C7, amended.  Every entry of the table has a fixed number of pins,
    between 0 and 8.  Whatever the name it is given, and for every
    address and first pin that are [int]s such that the first pin plus
    that number is an [int] too: its function returns the first pin
    plus that number, and the pin assignments it prints are those of
    the pins from the first pin on, that many, in order (all of them
    [int]s).  The entries with no pin are the enumerator, bb4io and
    null. *)
Theorem invoke_contract :
  Forall (fun e =>
            0 <= pinCount e <= 8 /\
            forall (addr p : Z) (peri : string),
              is_int addr -> is_int p -> is_int (p + pinCount e) ->
              snd (invoke e addr p peri) = p + pinCount e /\
              is_int (snd (invoke e addr p peri)) /\
              pins_of (fst (invoke e addr p peri)) = pin_range p (pinCount e) /\
              Forall is_int (pins_of (fst (invoke e addr p peri))))
         enumerators
  /\ map periname (filter (fun e => pinCount e =? 0) enumerators)
     = ["enumerator"; "bb4io"; "null"].
Proof.
  split; [|reflexivity].
  eapply Forall_impl; [|exact invoke_all]. cbn beta.
  intros e [B H]. split; [exact B|]. intros addr p peri Ha Hp Hr.
  destruct (H addr p peri) as [H1 H2]. rewrite H1, H2.
  split; [reflexivity|]. split; [exact Hr|]. split; [reflexivity|].
  apply pin_range_is_int; assumption.
Qed.

Lemma invoke_contract_witness :
  is_int 3 /\ is_int 2147483643 /\ is_int (2147483643 + 4) /\
  snd (servo4 3 2147483643 "servo4") = 2147483647 /\
  pins_of (fst (servo4 3 2147483643 "servo4"))
  = [2147483643; 2147483644; 2147483645; 2147483646].
Proof.
  assert (A : is_int 3) by (unfold is_int, INT_MIN, INT_MAX; lia).
  assert (B : is_int 2147483643) by (unfold is_int, INT_MIN, INT_MAX; lia).
  assert (C : is_int (2147483643 + 4)) by (unfold is_int, INT_MIN, INT_MAX; lia).
  split; [exact A|]. split; [exact B|]. split; [exact C|].
  destruct invoke_contract as [F _]. rewrite Forall_forall in F.
  destruct (F (entry "servo4" "servo4" "servo4" servo4)) as [_ H].
  { right. right. left. reflexivity. }
  destruct (H 3 2147483643 "servo4" A B C) as (H1 & _ & H2 & _).
  split; [exact H1 | exact H2].
Defined.

(** The claim as it is written, for every input: at the first pin
    [INT_MAX] the sum that servo4 is to return is not an [int]; the
    [int] returned where the sum wraps is negative. *)
Lemma invoke_contract_counterexample :
  is_int 0 /\ is_int INT_MAX /\
  pinCount (entry "servo4" "servo4" "servo4" servo4) = 4 /\
  ~ is_int (snd (servo4 0 INT_MAX "servo4")) /\
  wrap_int (snd (servo4 0 INT_MAX "servo4")) = -2147483645 /\
  wrap_int (snd (servo4 0 INT_MAX "servo4")) <> INT_MAX + 4.
Proof.
  split; [unfold is_int, INT_MIN, INT_MAX; lia|].
  split; [unfold is_int, INT_MIN, INT_MAX; lia|].
  split; [reflexivity|]. split; [|split].
  - unfold is_int, INT_MIN, INT_MAX. cbn [servo4 snd]. lia.
  - reflexivity.
  - vm_compute. discriminate.
Qed.

(** ** Reading the header lines *)

Lemma gets_split (k : nat) (f : list ascii) :
  f = fst (gets k f) ++ snd (gets k f) /\ (List.length (fst (gets k f)) <= k)%nat.
Proof.
  revert f; induction k as [|k IH]; intros f; cbn [gets]; [simpl; auto|].
  destruct f as [|c f]; [simpl; split; [reflexivity | lia]|].
  destruct (Ascii.eqb c LF); [simpl; split; [reflexivity | lia]|].
  specialize (IH f). destruct (gets k f) as [l r]. cbn [fst snd] in *.
  destruct IH as [H1 H2]. split; [simpl; congruence | simpl; lia].
Qed.

Lemma gets_line (l rest : list ascii) (k : nat) :
  ~ In LF l -> (List.length l < k)%nat -> gets k (l ++ LF :: rest) = (l ++ [LF], rest).
Proof.
  revert k; induction l as [|c l IH]; intros k Hl Hk.
  - destruct k; [simpl in Hk; lia|]. reflexivity.
  - destruct k; [simpl in Hk; lia|]. cbn [gets List.app].
    destruct (Ascii.eqb c LF) eqn:E.
    + apply Ascii.eqb_eq in E. subst. simpl in Hl. tauto.
    + rewrite IH; [reflexivity | simpl in Hl; tauto | simpl in Hk; lia].
Qed.

Lemma fgets_some (n : Z) (f c r : list ascii) :
  fgets n f = Some (c, r) -> f = c ++ r /\ (List.length c <= Z.to_nat (n - 1))%nat.
Proof.
  unfold fgets. destruct f as [|a f]; [discriminate|]. intros H. inversion H as [E].
  pose proof (gets_split (Z.to_nat (n - 1)) (a :: f)) as G. rewrite E in G. exact G.
Qed.

Lemma fgets_lines_chunks (n : nat) (f : list ascii) (cs : list (list ascii)) (r : list ascii) :
  fgets_lines n f = Some (cs, r) ->
  f = List.concat cs ++ r /\ List.length cs = n /\
  Forall (fun c => (List.length c <= 255)%nat) cs.
Proof.
  revert f cs r; induction n as [|n IH]; intros f cs r; cbn [fgets_lines].
  - intros H. inversion H; subst. auto.
  - destruct (fgets ROMSTRLN f) as [[c f']|] eqn:E; [|discriminate].
    destruct (fgets_lines n f') as [[cs' r']|] eqn:E'; [|discriminate].
    intros H. inversion H; subst. apply fgets_some in E. destruct E as [E1 E2].
    destruct (IH _ _ _ E') as (I1 & I2 & I3). repeat split.
    + simpl. rewrite <- app_assoc. congruence.
    + simpl. congruence.
    + constructor; [exact E2 | exact I3].
Qed.

(** Files whose first lines end in a newline and fit the read window
    are read line by line. *)
Lemma fgets_lines_text (hs : list (list ascii)) (rest : list ascii) :
  Forall (fun l => ~ In LF l /\ (List.length l <= 254)%nat) hs ->
  fgets_lines (List.length hs) (flat_map (fun l => l ++ [LF]) hs ++ rest)
  = Some (map (fun l => l ++ [LF]) hs, rest).
Proof.
  induction 1 as [|l hs [Hl1 Hl2] _ IH]; [reflexivity|].
  cbn [List.length fgets_lines flat_map map].
  rewrite <- !app_assoc. cbn [List.app].
  unfold fgets. destruct (l ++ LF :: flat_map (fun l0 => l0 ++ [LF]) hs ++ rest) eqn:E.
  - destruct l; discriminate.
  - rewrite <- E. rewrite gets_line; [| exact Hl1 | unfold ROMSTRLN; simpl; lia].
    rewrite IH. reflexivity.
Qed.

Lemma header_lines_inl (n : nat) (st : state) (f : list ascii) (st' : state) (f' : list ascii) :
  header_lines n st f = inl (st', f') ->
  exists cs, fgets_lines n f = Some (cs, f') /\ st' = fold_left header_step cs st.
Proof.
  revert st f; induction n as [|n IH]; intros st f; cbn [header_lines fgets_lines].
  - intros H. inversion H; subst. exists []. auto.
  - destruct (fgets ROMSTRLN f) as [[c f1]|]; [|discriminate].
    intros H. apply IH in H. destruct H as (cs & H1 & H2).
    exists (c :: cs). rewrite H1. split; [reflexivity | exact H2].
Qed.

Lemma header_lines_inr (n : nat) (st : state) (f : list ascii) (st' : state) :
  header_lines n st f = inr st' ->
  exists cs, Forall (fun c => (List.length c <= 255)%nat) cs /\
             (List.length cs < n)%nat /\
             st' = print stdout (fprintf "Not enough ROM strings\n" [])
                         (fold_left header_step cs st).
Proof.
  revert st f; induction n as [|n IH]; intros st f; cbn [header_lines]; [discriminate|].
  destruct (fgets ROMSTRLN f) as [[c f1]|] eqn:E.
  - intros H. apply IH in H. destruct H as (cs & H1 & H2 & H3).
    exists (c :: cs). split; [|split; [simpl; lia | exact H3]].
    constructor; [|exact H1]. apply fgets_some in E. apply E.
  - intros H. inversion H. exists []. repeat split; [constructor | simpl; lia].
Qed.

Lemma header_lines_ok (n : nat) (st : state) (f : list ascii) (cs : list (list ascii)) (r : list ascii) :
  fgets_lines n f = Some (cs, r) ->
  header_lines n st f = inl (fold_left header_step cs st, r).
Proof.
  revert st f cs r; induction n as [|n IH]; intros st f cs r; cbn [header_lines fgets_lines].
  - intros H. inversion H. reflexivity.
  - destruct (fgets ROMSTRLN f) as [[c f1]|]; [|discriminate].
    destruct (fgets_lines n f1) as [[cs' r']|] eqn:E; [|discriminate].
    intros H. inversion H; subst. cbn [fold_left]. apply IH. exact E.
Qed.

Lemma header_string_length (c : list ascii) :
  (List.length c <= 255)%nat -> (String.length (header_string c) <= 254)%nat.
Proof.
  intros H. rewrite <- length_bytes, header_string_removelast.
  pose proof (strlen_length c) as S. unfold strlen in S.
  destruct (bytes (c_str c)) as [|a l] eqn:E using rev_ind; [simpl; lia|].
  rewrite removelast_last.
  assert (L : List.length (l ++ [a]) = String.length (c_str c))
    by (rewrite <- E; apply length_bytes).
  rewrite length_app in L. simpl in L. lia.
Qed.

Lemma header_step_trace (st : state) (c : list ascii) :
  exists evs,
    trace (header_step st c) = trace st ++ evs /\
    rom_writes evs = [(romindx st, header_bytes c)] /\
    invocations evs = [] /\ (forall f, printed f evs = []) /\
    (In (Overrun "rom") evs ->
     ENUMROMSZ <= romindx st + Z.of_nat (String.length (header_string c)) + 1).
Proof.
  unfold header_step. rewrite rom_sprintf_trace.
  rewrite header_string_removelast. fold (header_bytes c).
  assert (R : forall st0, romindx st0 = romindx st ->
     exists evs, trace st0 ++ RomWrite (romindx st0) (header_bytes c)
        :: (if romindx st0 + Z.of_nat (String.length (header_string c)) + 1 <? ENUMROMSZ
            then [] else [Overrun "rom"]) = trace st0 ++ evs /\
     rom_writes evs = [(romindx st, header_bytes c)] /\
     invocations evs = [] /\ (forall f, printed f evs = []) /\
     (In (Overrun "rom") evs ->
      ENUMROMSZ <= romindx st + Z.of_nat (String.length (header_string c)) + 1)).
  { intros st0 E. rewrite E. eexists. split; [reflexivity|].
    destruct (romindx st + Z.of_nat (String.length (header_string c)) + 1 <? ENUMROMSZ) eqn:F;
      repeat split; try reflexivity; try (intros f; destruct f; reflexivity).
    - intros [H|[]]. discriminate.
    - intros _. apply Z.ltb_ge in F. exact F. }
  destruct (0 <? strlen c).
  - apply R. reflexivity.
  - destruct (R (log [Overrun "romstr"] st) eq_refl) as (evs & E1 & E2 & E3 & E4 & E5).
    exists (Overrun "romstr" :: evs). cbn [log trace romindx] in *.
    rewrite E1, <- app_assoc. split; [reflexivity|].
    repeat split; auto.
    intros [H|H]; [discriminate | auto].
Qed.

Lemma header_step_romindx (st : state) (c : list ascii) :
  romindx (header_step st c) = romindx st + Z.of_nat (String.length (header_string c)) + 1.
Proof.
  unfold header_step. rewrite rom_sprintf_romindx. destruct (0 <? strlen c); reflexivity.
Qed.

Lemma header_step_slot_pin (st : state) (c : list ascii) :
  slot (header_step st c) = slot st /\ pin (header_step st c) = pin st.
Proof.
  unfold header_step. destruct (0 <? strlen c); split; reflexivity.
Qed.

Lemma header_step_holds (st : state) (c : list ascii) (content : list ascii) :
  rom_holds st content ->
  romindx st + Z.of_nat (String.length (header_string c)) + 1 <= ENUMROMSZ ->
  rom_holds (header_step st c) (content ++ header_bytes c).
Proof.
  intros H Hfit. unfold header_step, header_bytes.
  rewrite <- header_string_removelast.
  apply rom_sprintf_holds; destruct (0 <? strlen c); auto.
Qed.

Lemma header_bytes_length (c : list ascii) :
  List.length (header_bytes c) = S (String.length (header_string c)).
Proof.
  unfold header_bytes, packed_string.
  rewrite <- header_string_removelast, length_app, length_bytes. simpl. lia.
Qed.

Lemma header_fold (cs : list (list ascii)) (st : state) (content : list ascii) :
  Forall (fun c => (List.length c <= 255)%nat) cs ->
  rom_holds st content ->
  romindx st + 255 * Z.of_nat (List.length cs) < ENUMROMSZ ->
  let st' := fold_left header_step cs st in
  exists evs,
    trace st' = trace st ++ evs /\
    map snd (rom_writes evs) = map header_bytes cs /\
    Forall (fun w => romindx st <= fst w /\
                     fst w + Z.of_nat (List.length (snd w))
                     <= romindx st + 255 * Z.of_nat (List.length cs)) (rom_writes evs) /\
    invocations evs = [] /\ (forall f, printed f evs = []) /\
    ~ In (Overrun "rom") evs /\
    rom_holds st' (content ++ flat_map header_bytes cs) /\
    romindx st <= romindx st' <= romindx st + 255 * Z.of_nat (List.length cs) /\
    slot st' = slot st /\ pin st' = pin st.
Proof.
  intros Hcs. revert st content.
  induction Hcs as [|c cs Hc _ IH]; intros st content Hrom Hfit; cbn [fold_left].
  - exists []. cbn [flat_map List.length map rom_writes invocations].
    rewrite !app_nil_r.
    repeat split; auto; try lia; try apply Hrom.
  - pose proof (header_string_length c Hc) as L.
    cbn [List.length] in Hfit.
    destruct (header_step_trace st c) as (ev1 & T1 & W1 & I1 & P1 & O1).
    pose proof (header_step_romindx st c) as R1.
    destruct (header_step_slot_pin st c) as [S1 S2].
    assert (H1 : rom_holds (header_step st c) (content ++ header_bytes c))
      by (apply header_step_holds; [exact Hrom | lia]).
    destruct (IH (header_step st c) _ H1) as (ev2 & T2 & W2 & F2 & I2 & P2 & O2 & H2 & R2 & S3 & S4);
      [lia|].
    exists (ev1 ++ ev2). rewrite T2, T1, <- app_assoc.
    split; [reflexivity|].
    rewrite rom_writes_app, invocations_app, W1, I1, I2.
    cbn [map List.app snd flat_map]. rewrite W2.
    split; [reflexivity|]. split.
    { constructor.
      - cbn [fst snd]. rewrite header_bytes_length. cbn [List.length]. lia.
      - eapply Forall_impl; [|exact F2]. cbn beta. intros w [A B].
        cbn [List.length]. lia. }
    split; [reflexivity|]. split.
    { intros f. rewrite printed_app, P1, P2. reflexivity. }
    split.
    { intros H. apply in_app_or in H. destruct H as [H|H]; [|tauto].
      apply O1 in H. lia. }
    split.
    { rewrite <- app_assoc in H2. exact H2. }
    cbn [List.length]. repeat split; try lia; congruence.
Qed.

(** The state after the header loop, for the strings [cs] it read. *)
Lemma header_lines_result (desc : list ascii) (st : state) (f : list ascii) :
  header_lines 8 initial desc = inl (st, f) ->
  exists cs,
    fgets_lines 8 desc = Some (cs, f) /\
    List.length cs = 8%nat /\
    Forall (fun c => (List.length c <= 255)%nat) cs /\
    map snd (rom_writes (trace st)) = map header_bytes cs /\
    Forall (fun w => 0 <= fst w /\ fst w + Z.of_nat (List.length (snd w)) <= 2040)
           (rom_writes (trace st)) /\
    invocations (trace st) = [] /\ (forall g, printed g (trace st) = []) /\
    ~ In (Overrun "rom") (trace st) /\
    rom_holds st (flat_map header_bytes cs) /\
    0 <= romindx st <= 2040 /\ slot st = 0 /\ pin st = 0.
Proof.
  intros H. apply header_lines_inl in H. destruct H as (cs & H1 & H2).
  destruct (fgets_lines_chunks _ _ _ _ H1) as (_ & L & F).
  exists cs. split; [exact H1|]. split; [exact L|]. split; [exact F|].
  destruct (header_fold cs initial [] F initial_holds) as
    (evs & T & W & FW & I & P & O & Hh & R & S1 & S2).
  { rewrite L. unfold ENUMROMSZ. simpl. lia. }
  rewrite <- H2 in *. cbn [initial trace romindx slot pin List.app] in *.
  rewrite T. rewrite L in *.
  split; [exact W|]. split.
  { eapply Forall_impl; [|exact FW]. cbn beta. intros w [A B]. lia. }
  split; [exact I|]. split; [exact P|]. split; [exact O|]. split; [exact Hh|].
  split; [lia|]. split; assumption.
Qed.

(** C9.  Each of the 8 header reads loses the last character of the
    string read, whatever that character is: when the loop is over, the
    strings appended to the ROM are, in order, the strings [cs] read by
    the 8 [fgets], each without its last character and followed by a
    NUL, and the ROM holds them one after the other.  A string read
    without a newline (the end of a file with no final newline, or the
    first 255 characters of a longer line) so loses the last character
    of its content. *)
Theorem header_last_char_deleted (desc : list ascii) (st : state) (f : list ascii) :
  header_lines 8 initial desc = inl (st, f) ->
  exists cs,
    fgets_lines 8 desc = Some (cs, f) /\
    map snd (rom_writes (trace st)) = map header_bytes cs /\
    rom_holds st (flat_map header_bytes cs) /\
    Forall (fun c => forall body x, bytes (c_str c) = body ++ [x] ->
                                    header_bytes c = packed_string body) cs.
Proof.
  intros H. destruct (header_lines_result _ _ _ H) as (cs & H1 & _ & _ & W & _ & _ & _ & _ & Hh & _).
  exists cs. repeat split; try assumption; try apply Hh.
  apply Forall_forall. intros c _ body x E. unfold header_bytes.
  rewrite E, removelast_last. reflexivity.
Qed.

Lemma header_last_char_deleted_witness :
  exists st f,
    header_lines 8 initial unterminated = inl (st, f) /\
    map snd (rom_writes (trace st))
    = [packed_string (repeat "a"%char 254); packed_string (repeat "a"%char 45);
       packed_string (bytes "b"); packed_string (bytes "b"); packed_string (bytes "b");
       packed_string (bytes "b"); packed_string (bytes "b"); packed_string (bytes "xy")].
Proof.
  destruct (header_lines 8 initial unterminated) as [[st f]|st] eqn:H;
    [|vm_compute in H; discriminate].
  exists st, f. split; [reflexivity|].
  destruct (header_last_char_deleted unterminated st f H) as (cs & C & W & _).
  rewrite W. vm_compute in C. injection C as <- _. vm_compute. reflexivity.
Defined.

(** The appends of a header loop that stops short end within the ROM. *)
Lemma header_exit_fits (desc : list ascii) (st : state) :
  header_lines 8 initial desc = inr st -> Forall fits (rom_writes (trace st)).
Proof.
  intros H. apply header_lines_inr in H. destruct H as (cs & F & L & E).
  destruct (header_fold cs initial [] F initial_holds) as (evs & T & _ & FW & _).
  { cbn [initial romindx]. unfold ENUMROMSZ. lia. }
  subst st. cbn [print log trace]. rewrite T. cbn [initial trace List.app].
  rewrite rom_writes_app. cbn [rom_writes flat_map List.app]. rewrite app_nil_r.
  eapply Forall_impl; [|exact FW]. cbn beta.
  intros w [A C]. cbn [initial romindx] in C. unfold fits, ENUMROMSZ. lia.
Qed.

(** C10.  The header loop tests nothing, and needs not: each of its
    appends writes at most 255 bytes, so that the offset is at most 2040
    after the 8 of them, below the 2048 bytes of the ROM, and no byte is
    stored outside of it.  The loop prints nothing, unless the file ends
    before the 8th string, where it prints that and nothing else. *)
Theorem header_appends_fit (desc : list ascii) :
  match header_lines 8 initial desc with
  | inl (st, _) =>
      List.length (rom_writes (trace st)) = 8%nat /\
      Forall (fun w => (List.length (snd w) <= 255)%nat /\
                       fst w + Z.of_nat (List.length (snd w)) <= 2040)
             (rom_writes (trace st)) /\
      0 <= romindx st <= 2040 /\ 2040 < ENUMROMSZ /\
      ~ In (Overrun "rom") (trace st) /\
      printed stdout (trace st) = []
  | inr st =>
      Forall (fun w => (List.length (snd w) <= 255)%nat /\
                       fst w + Z.of_nat (List.length (snd w)) <= 2040)
             (rom_writes (trace st)) /\
      ~ In (Overrun "rom") (trace st) /\
      printed stdout (trace st) = [fprintf "Not enough ROM strings\n" []]
  end.
Proof.
  assert (B : forall cs tr,
             Forall (fun c => (List.length c <= 255)%nat) cs ->
             map snd (rom_writes tr) = map header_bytes cs ->
             Forall (fun w => (List.length (snd w) <= 255)%nat) (rom_writes tr)).
  { intros cs tr F. revert cs F. induction (rom_writes tr) as [|w ws IH]; intros cs F E.
    - constructor.
    - destruct cs as [|c cs]; [discriminate|]. inversion E as [[E1 E2]].
      inversion F; subst. constructor; [|eapply IH; eauto].
      rewrite E1, header_bytes_length.
      pose proof (header_string_length c ltac:(assumption)). lia. }
  assert (J : forall (l : list (Z * list ascii)) (P Q : Z * list ascii -> Prop),
             Forall P l -> Forall Q l -> Forall (fun w => P w /\ Q w) l).
  { intros l P Q HP HQ. induction HP; inversion HQ; subst; constructor; auto. }
  destruct (header_lines 8 initial desc) as [[st f]|st] eqn:H.
  - destruct (header_lines_result _ _ _ H) as (cs & _ & L & F & W & FW & _ & P & O & _ & R & _).
    split; [|split; [|split; [|split; [|split]]]].
    + rewrite <- (length_map snd), W, length_map. exact L.
    + apply J; [eapply B; eauto|].
      eapply Forall_impl; [|exact FW]. cbn beta. tauto.
    + exact R.
    + reflexivity.
    + exact O.
    + apply P.
  - apply header_lines_inr in H. destruct H as (cs & F & L & E).
    destruct (header_fold cs initial [] F initial_holds) as
      (evs & T & W & FW & _ & P & O & _).
    { cbn [initial romindx]. unfold ENUMROMSZ. lia. }
    subst st. cbn [print log trace]. rewrite T. cbn [initial trace List.app].
    rewrite rom_writes_app, printed_app, P. cbn [rom_writes printed flat_map List.app].
    rewrite app_nil_r. split; [|split].
    + apply J; [eapply B; eauto|].
      eapply Forall_impl; [|exact FW]. cbn beta.
      intros w [A C]. cbn [initial romindx] in C. lia.
    + intros I. apply in_app_or in I. destruct I as [I|[I|[]]]; [tauto | discriminate].
    + reflexivity.
Qed.

(** ** One pass of the peripheral loop *)

Lemma fscanf_peri_trace (peri : list ascii) (st : state) :
  exists evs, trace (fscanf_peri peri st) = trace st ++ evs /\
              rom_writes evs = [] /\ invocations evs = [] /\
              (forall f, printed f evs = []) /\
              (evs = [] \/ evs = [Overrun "peri"]).
Proof.
  unfold fscanf_peri. destruct (_ <? PERILEN).
  - exists []. rewrite app_nil_r. repeat split; auto.
  - exists [Overrun "peri"]. repeat split; auto.
Qed.

Lemma fscanf_peri_fields (peri : list ascii) (st : state) :
  slot (fscanf_peri peri st) = slot st /\ pin (fscanf_peri peri st) = pin st /\
  rom (fscanf_peri peri st) = rom st /\ romindx (fscanf_peri peri st) = romindx st.
Proof. unfold fscanf_peri. destruct (_ <? PERILEN); repeat split. Qed.

Lemma fscanf_peri_holds (peri : list ascii) (st : state) (content : list ascii) :
  rom_holds st content -> rom_holds (fscanf_peri peri st) content.
Proof.
  unfold rom_holds. destruct (fscanf_peri_fields peri st) as (_ & _ & -> & ->). auto.
Qed.

Lemma after_invoke_trace (e : ENUMERATORS) (peri : string) (st : state) :
  trace (after_invoke e peri st)
  = trace st
    ++ Invoke e (slot st) (pin st) peri
       :: map (Output stdout) (fst (invoke e (slot st) (pin st) peri))
    ++ Output pincludes (include_line e)
       :: RomWrite (romindx st) (packed_string (bytes (libname e)))
       :: (if romindx st + Z.of_nat (String.length (libname e)) + 1 <? ENUMROMSZ
           then [] else [Overrun "rom"]).
Proof.
  unfold after_invoke. rewrite rom_sprintf_trace.
  cbn [print log set_pin trace romindx].
  rewrite <- !app_assoc. reflexivity.
Qed.

Lemma after_invoke_fields (e : ENUMERATORS) (peri : string) (st : state) :
  slot (after_invoke e peri st) = slot st /\
  pin (after_invoke e peri st) = snd (invoke e (slot st) (pin st) peri) /\
  romindx (after_invoke e peri st)
  = romindx st + Z.of_nat (String.length (libname e)) + 1.
Proof.
  unfold after_invoke. rewrite rom_sprintf_romindx. repeat split.
Qed.

Lemma after_invoke_holds (e : ENUMERATORS) (peri : string) (st : state) (content : list ascii) :
  rom_holds st content ->
  romindx st + Z.of_nat (String.length (libname e)) + 1 <= ENUMROMSZ ->
  rom_holds (after_invoke e peri st) (content ++ packed_string (bytes (libname e))).
Proof.
  intros H F. unfold after_invoke. apply rom_sprintf_holds; assumption.
Qed.

Lemma peripheral_comment (argv0 : string) (peri : list ascii) (st : state) :
  is_comment peri = true -> peripheral argv0 peri st = Next (fscanf_peri peri st).
Proof. intros H. unfold peripheral. rewrite H. reflexivity. Qed.

Lemma peripheral_unknown (argv0 : string) (peri : list ascii) (st : state) :
  is_comment peri = false -> search (c_str peri) enumerators = None ->
  peripheral argv0 peri st
  = Exit 1 (print stderr (unknown_peripheral argv0 (c_str peri)) (fscanf_peri peri st)).
Proof. intros H1 H2. unfold peripheral. rewrite H1, H2. reflexivity. Qed.

Lemma peripheral_found (argv0 : string) (peri : list ascii) (st : state) (e : ENUMERATORS) :
  is_comment peri = false -> search (c_str peri) enumerators = Some e ->
  peripheral argv0 peri st
  = let st3 := after_invoke e (c_str peri) (fscanf_peri peri st) in
    if romindx st3 >? ENUMROMSZ then Exit 1 (print stdout rom_overflow st3)
    else Next (set_slot (slot st3 + 1) st3).
Proof.
  intros H1 H2. unfold peripheral. rewrite H1, H2. cbn [negb].
  unfold after_invoke.
  destruct (invoke e (slot (fscanf_peri peri st)) (pin (fscanf_peri peri st)) (c_str peri))
    as [out p]. reflexivity.
Qed.

Lemma steps_app (argv0 : string) (a b : list (list ascii)) (st : state) :
  steps argv0 (a ++ b) st
  = match steps argv0 a st with
    | Next st' => steps argv0 b st'
    | Exit status st' => Exit status st'
    end.
Proof.
  revert st; induction a as [|t a IH]; intros st; cbn [steps List.app]; [reflexivity|].
  destruct (peripheral argv0 t st); [apply IH | reflexivity].
Qed.

(** ** The end of the file *)

Lemma pair_fst (p : Z * state) (a : Z) : fst p = a -> p = (a, snd p).
Proof. destruct p. cbn. now intros ->. Qed.

Lemma pair_eq (p : Z * state) (a : Z) (b : state) : p = (a, b) -> fst p = a /\ snd p = b.
Proof. intros ->. split; reflexivity. Qed.

Lemma finish_fields (signed_char : bool) (st : state) :
  fst (finish signed_char st) = 0 /\
  slot (snd (finish signed_char st)) = slot st /\
  pin (snd (finish signed_char st)) = pin st /\
  rom (snd (finish signed_char st)) = rom st /\
  romindx (snd (finish signed_char st)) = romindx st.
Proof. repeat split. Qed.

Lemma finish_trace (signed_char : bool) (st : state) :
  exists evs,
    trace (snd (finish signed_char st)) = trace st ++ evs /\
    rom_writes evs = [] /\ invocations evs = [] /\
    printed stdout evs = [endmodule] /\ printed stderr evs = [] /\
    printed pincludes evs = [] /\
    printed penumlst evs = rom_listing signed_char (rom st).
Proof.
  unfold finish. cbn [snd log print trace rom].
  generalize (rom_listing signed_char (rom st)). intros l.
  exists (Output stdout endmodule :: map (Output penumlst) l).
  rewrite <- app_assoc. split; [reflexivity|].
  split; [apply (rom_writes_Output penumlst)|].
  split; [apply (invocations_Output penumlst)|].
  split; [rewrite printed_same_cons, printed_Output_other by discriminate; reflexivity|].
  split; [rewrite printed_other_cons by discriminate; apply printed_Output_other; discriminate|].
  split; [rewrite printed_other_cons by discriminate; apply printed_Output_other; discriminate|].
  rewrite printed_other_cons by discriminate. apply printed_Output_same.
Qed.

Lemma peripheral_case (argv0 : string) (peri : list ascii) (st : state) :
  (is_comment peri = true /\ peripheral argv0 peri st = Next (fscanf_peri peri st))
  \/ (is_comment peri = false /\ search (c_str peri) enumerators = None /\
      peripheral argv0 peri st
      = Exit 1 (print stderr (unknown_peripheral argv0 (c_str peri)) (fscanf_peri peri st)))
  \/ (exists e, is_comment peri = false /\ search (c_str peri) enumerators = Some e /\
                In e enumerators /\
                let st3 := after_invoke e (c_str peri) (fscanf_peri peri st) in
                (ENUMROMSZ < romindx st3 /\
                 peripheral argv0 peri st = Exit 1 (print stdout rom_overflow st3))
                \/ (romindx st3 <= ENUMROMSZ /\
                    peripheral argv0 peri st = Next (set_slot (slot st3 + 1) st3))).
Proof.
  destruct (is_comment peri) eqn:C.
  - left. split; [reflexivity | now apply peripheral_comment].
  - right. destruct (search (c_str peri) enumerators) as [e|] eqn:S.
    + right. exists e. split; [reflexivity|]. split; [reflexivity|].
      split; [eapply search_In; eauto|].
      rewrite (peripheral_found argv0 peri st e C S). cbn zeta.
      destruct (romindx _ >? ENUMROMSZ) eqn:G.
      * left. split; [|reflexivity]. apply Z.gtb_lt in G. lia.
      * right. split; [|reflexivity].
        rewrite Z.gtb_ltb in G. apply Z.ltb_ge in G. exact G.
    + left. split; [reflexivity|]. split; [reflexivity|].
      now apply peripheral_unknown.
Qed.

(** Induction over the passes of the loop: [I] holds from pass to pass,
    [Q] where the loop exits. *)
Lemma steps_inv (argv0 : string) (I : state -> Prop) (Q : Z -> state -> Prop)
      (toks : list (list ascii)) :
  (forall peri st st', In peri toks -> I st ->
                       peripheral argv0 peri st = Next st' -> I st') ->
  (forall peri st c st', In peri toks -> I st ->
                         peripheral argv0 peri st = Exit c st' -> Q c st') ->
  forall st, I st ->
             match steps argv0 toks st with
             | Next st' => I st'
             | Exit c st' => Q c st'
             end.
Proof.
  induction toks as [|t toks IH]; intros HN HE st HI; cbn [steps]; [exact HI|].
  destruct (peripheral argv0 t st) as [st'|c st'] eqn:E.
  - apply IH.
    + intros peri s s' Hin. apply HN. now right.
    + intros peri s c s' Hin. apply HE. now right.
    + eapply HN; eauto. now left.
  - eapply HE; eauto. now left.
Qed.

(** ** The overflow test *)

Lemma fits_no_overflow (status : Z) (st : state) :
  Forall fits (rom_writes (trace st)) -> overflow_stops status st.
Proof.
  intros F pre d out post E G. rewrite E in F.
  apply Forall_app in F. destruct F as [_ F]. inversion F as [|w ws Hw _]; subst.
  unfold fits in Hw. cbn [fst snd] in Hw. lia.
Qed.

Lemma last_unfit (ws pre post : list (Z * list ascii)) (w x : Z * list ascii) :
  Forall fits ws -> ~ fits x -> ws ++ [w] = pre ++ x :: post ->
  post = [] /\ x = w.
Proof.
  revert pre; induction ws as [|a ws IH]; intros pre F N E.
  - destruct pre as [|b pre].
    + inversion E; subst. auto.
    + inversion E as [[E1 E2]]. destruct pre; discriminate.
  - inversion F as [|? ? Fa Fws]; subst. destruct pre as [|b pre].
    + inversion E; subst. contradiction.
    + inversion E; subst. eapply IH; eauto.
Qed.

Lemma peripheral_overflow_next (argv0 : string) (peri : list ascii) (st st' : state) :
  no_overflow_yet st -> peripheral argv0 peri st = Next st' -> no_overflow_yet st'.
Proof.
  intros [F P] E.
  destruct (fscanf_peri_trace peri st) as (ev0 & T0 & W0 & _ & P0 & _).
  destruct (fscanf_peri_fields peri st) as (_ & _ & _ & R0).
  destruct (peripheral_case argv0 peri st) as [[_ H]|[(_ & _ & H)|(e & _ & _ & _ & H)]].
  - rewrite H in E. inversion E; subst. unfold no_overflow_yet.
    rewrite T0, rom_writes_app, printed_app, W0, P0, !app_nil_r. auto.
  - rewrite H in E. discriminate.
  - cbn zeta in H. destruct H as [[_ H]|[G H]]; rewrite H in E; [discriminate|].
    inversion E; subst; clear E H.
    destruct (after_invoke_fields e (c_str peri) (fscanf_peri peri st)) as (_ & _ & R).
    unfold no_overflow_yet. cbn [set_slot trace].
    rewrite after_invoke_trace, T0.
    autorewrite with proj. rewrite W0, P0, P. autorewrite with proj.
    split; [|reflexivity].
    apply Forall_app. split; [exact F|].
    constructor; [|constructor].
    unfold fits, packed_string; cbn [fst snd].
    rewrite length_app, length_bytes; cbn [List.length]. lia.
Qed.

Lemma peripheral_overflow_exit (argv0 : string) (peri : list ascii) (st : state)
      (c : Z) (st' : state) :
  no_overflow_yet st -> peripheral argv0 peri st = Exit c st' -> overflow_stops c st'.
Proof.
  intros [F P] E.
  destruct (fscanf_peri_trace peri st) as (ev0 & T0 & W0 & _ & P0 & _).
  destruct (fscanf_peri_fields peri st) as (_ & _ & _ & R0).
  destruct (peripheral_case argv0 peri st) as [[_ H]|[(_ & _ & H)|(e & _ & _ & _ & H)]].
  - rewrite H in E. discriminate.
  - rewrite H in E. inversion E; subst. apply fits_no_overflow.
    cbn [print log trace]. rewrite T0. autorewrite with proj. rewrite W0.
    autorewrite with proj. exact F.
  - cbn zeta in H. destruct H as [[G H]|[_ H]]; rewrite H in E; [|discriminate].
    inversion E; subst. clear E H.
    destruct (after_invoke_fields e (c_str peri) (fscanf_peri peri st)) as (_ & _ & R).
    rewrite R, R0 in G.
    assert (T : trace (print stdout rom_overflow (after_invoke e (c_str peri) (fscanf_peri peri st)))
                = (trace st ++ ev0
                   ++ Invoke e (slot (fscanf_peri peri st)) (pin (fscanf_peri peri st)) (c_str peri)
                   :: map (Output stdout)
                        (fst (invoke e (slot (fscanf_peri peri st))
                                     (pin (fscanf_peri peri st)) (c_str peri)))
                   ++ [Output pincludes (include_line e)])
                  ++ [RomWrite (romindx st) (packed_string (bytes (libname e)));
                      Overrun "rom"; Output stdout rom_overflow]).
    { cbn [print log trace]. rewrite after_invoke_trace, T0, R0.
      replace (romindx st + Z.of_nat (String.length (libname e)) + 1 <? ENUMROMSZ) with false
        by (symmetry; apply Z.ltb_ge; lia).
      rewrite <- !app_assoc. cbn [List.app]. rewrite <- !app_assoc. reflexivity. }
    intros pre d out post Hw Hd. rewrite T in Hw.
    autorewrite with proj in Hw. rewrite W0 in Hw. autorewrite with proj in Hw.
    destruct (last_unfit _ _ _ _ (d, out) F ltac:(unfold fits; cbn [fst snd]; lia) Hw)
      as [Hpost Hx].
    inversion Hx; subst. split; [reflexivity|]. split; [reflexivity|]. split.
    + rewrite T. autorewrite with proj. rewrite P, P0. reflexivity.
    + eexists. exact T.
Qed.

Lemma header_no_overflow (desc : list ascii) (st : state) (f : list ascii) :
  header_lines 8 initial desc = inl (st, f) -> no_overflow_yet st.
Proof.
  intros H. destruct (header_lines_result _ _ _ H) as (cs & _ & _ & _ & _ & FW & _ & P & _).
  split; [|apply P].
  eapply Forall_impl; [|exact FW]. cbn beta. intros w [A B]. unfold fits, ENUMROMSZ. lia.
Qed.

(** C3.  An append that leaves the offset above 2048 ends the run: in
    the trace of any run of [main], an append to the ROM whose end
    offset exceeds [ENUMROMSZ] is the last append, it is followed by the
    overflow message and nothing else, the exit status is 1 and nothing
    is written to enumerator.lst.  (The 8 header appends end at 2040 at
    most; the library name appends are tested one by one.) *)
Theorem overflow_aborts (signed_char : bool) (argv0 : string) (desc : list ascii)
        (status : Z) (st : state) :
  main signed_char argv0 desc = (status, st) ->
  forall pre d out post,
    rom_writes (trace st) = pre ++ (d, out) :: post ->
    d + Z.of_nat (List.length out) > ENUMROMSZ ->
    post = [] /\ status = 1 /\ printed penumlst (trace st) = [] /\
    exists tr, trace st = tr ++ [RomWrite d out; Overrun "rom"; Output stdout rom_overflow].
Proof.
  intros M. change (overflow_stops status st).
  unfold main in M. destruct (header_lines 8 initial desc) as [[st0 f]|st0] eqn:H.
  - pose proof (header_no_overflow _ _ _ H) as I0.
    pose proof (steps_inv argv0 no_overflow_yet overflow_stops (tokens f)
                  (fun peri s s' _ => peripheral_overflow_next argv0 peri s s')
                  (fun peri s c s' _ => peripheral_overflow_exit argv0 peri s c s')
                  st0 I0) as S.
    unfold peripherals in M. destruct (steps argv0 (tokens f) st0) as [st1|c st1].
    + destruct (finish_trace signed_char st1) as (evs & T & W & _).
      destruct (pair_eq _ _ _ M) as [M1 M2]. subst status st. apply fits_no_overflow.
      rewrite T, rom_writes_app, W, app_nil_r. apply S.
    + inversion M; subst. exact S.
  - inversion M; subst. apply fits_no_overflow.
    apply header_exit_fits with (desc := desc). exact H.
Qed.

Lemma overflow_aborts_witness :
  exists st,
    main true "buildmain" overflow_then_unknown = (1, st) /\
    printed penumlst (trace st) = [] /\
    exists tr, trace st = tr ++ [RomWrite 2040 (packed_string (bytes "enumerator"));
                                 Overrun "rom"; Output stdout rom_overflow].
Proof.
  destruct (main true "buildmain" overflow_then_unknown) as [c st] eqn:M.
  assert (E : st = snd (main true "buildmain" overflow_then_unknown))
    by (rewrite M; reflexivity).
  destruct (overflow_aborts true "buildmain" overflow_then_unknown c st M
              (firstn 8 (rom_writes (trace st))) 2040
              (packed_string (bytes "enumerator")) [])
    as (_ & -> & P & T).
  - rewrite E. vm_compute. reflexivity.
  - vm_compute. reflexivity.
  - exists st. split; [reflexivity|]. split; [exact P | exact T].
Defined.

(** ** The ROM image of a run *)

Lemma drivers_no_invocation (a b : list event) :
  invocations b = [] -> drivers (a ++ b) = drivers a.
Proof. intros H. rewrite drivers_app. unfold drivers at 2. rewrite H. apply app_nil_r. Qed.

Lemma rom_holds_ext (st st' : state) (c c' : list ascii) :
  rom st = rom st' -> romindx st = romindx st' -> c = c' ->
  rom_holds st' c' -> rom_holds st c.
Proof. unfold rom_holds. intros -> -> ->. auto. Qed.

Lemma peripheral_packs (argv0 : string) (hdr : list ascii) (peri : list ascii) (st st' : state) :
  packs hdr st -> peripheral argv0 peri st = Next st' -> packs hdr st'.
Proof.
  unfold packs. intros I E.
  destruct (fscanf_peri_trace peri st) as (ev0 & T0 & _ & I0 & _ & _).
  pose proof (fscanf_peri_holds peri st _ I) as H0.
  destruct (fscanf_peri_fields peri st) as (_ & _ & _ & R0).
  destruct (peripheral_case argv0 peri st) as [[_ H]|[(_ & _ & H)|(e & _ & _ & _ & H)]].
  - rewrite H in E. inversion E; subst.
    rewrite T0, drivers_no_invocation by exact I0. exact H0.
  - rewrite H in E. discriminate.
  - cbn zeta in H. destruct H as [[_ H]|[G H]]; rewrite H in E; [discriminate|].
    inversion E; subst; clear E H.
    destruct (after_invoke_fields e (c_str peri) (fscanf_peri peri st)) as (_ & _ & R).
    rewrite R in G.
    pose proof (after_invoke_holds e (c_str peri) _ _ H0 G) as H3.
    change (rom_holds (after_invoke e (c_str peri) (fscanf_peri peri st))
              (hdr ++ drivers (trace (after_invoke e (c_str peri) (fscanf_peri peri st))))).
    replace (hdr ++ drivers (trace (after_invoke e (c_str peri) (fscanf_peri peri st))))
      with ((hdr ++ drivers (trace st)) ++ packed_string (bytes (libname e))); [exact H3|].
    rewrite after_invoke_trace, T0, <- app_assoc. f_equal.
    rewrite drivers_app, (drivers_no_invocation _ _ I0). f_equal.
    unfold drivers. autorewrite with proj. cbn [flat_map]. symmetry. apply app_nil_r.
Qed.

Lemma peripheral_exit_status (argv0 : string) (peri : list ascii) (st : state)
      (c : Z) (st' : state) :
  peripheral argv0 peri st = Exit c st' -> c = 1.
Proof.
  intros E.
  destruct (peripheral_case argv0 peri st) as [[_ H]|[(_ & _ & H)|(e & _ & _ & _ & H)]].
  - rewrite H in E. discriminate.
  - rewrite H in E. now inversion E.
  - cbn zeta in H. destruct H as [[_ H]|[_ H]]; rewrite H in E; [now inversion E | discriminate].
Qed.

(** The ROM of a run that ends well: the header strings, then the
    library names of the peripherals invoked. *)
Lemma main_rom (signed_char : bool) (argv0 : string) (desc : list ascii) (st : state) :
  main signed_char argv0 desc = (0, st) ->
  exists cs f,
    fgets_lines 8 desc = Some (cs, f) /\
    rom_holds st (flat_map header_bytes cs ++ drivers (trace st)).
Proof.
  intros M. unfold main in M.
  destruct (header_lines 8 initial desc) as [[st0 f]|st0] eqn:H; [|inversion M].
  destruct (header_lines_result _ _ _ H) as (cs & H1 & _ & _ & _ & _ & I & _ & _ & Hh & _).
  exists cs, f. split; [exact H1|].
  assert (I0 : packs (flat_map header_bytes cs) st0).
  { unfold packs, drivers. rewrite I. cbn [flat_map]. rewrite app_nil_r. exact Hh. }
  pose proof (steps_inv argv0 (packs (flat_map header_bytes cs)) (fun c _ => c = 1) (tokens f)
                (fun peri s s' _ => peripheral_packs argv0 _ peri s s')
                (fun peri s c s' _ _ => peripheral_exit_status argv0 peri s c s') st0 I0) as S.
  unfold peripherals in M. destruct (steps argv0 (tokens f) st0) as [st1|c st1].
  - destruct (finish_trace signed_char st1) as (evs & T & _ & Iv & _).
    destruct (pair_eq _ _ _ M) as [M1 M2]. subst st. unfold packs in S.
    eapply rom_holds_ext; [reflexivity | reflexivity | | exact S].
    f_equal. rewrite T. apply drivers_no_invocation. exact Iv.
  - inversion M; subst. discriminate.
Qed.

Lemma header_bytes_line (l : list ascii) :
  ~ In NUL l -> header_bytes (l ++ [LF]) = packed_string l.
Proof.
  intros H. unfold header_bytes. rewrite c_str_nul_free_id.
  - now rewrite removelast_last.
  - intros I. apply in_app_or in I. destruct I as [I|[I|[]]]; [tauto | discriminate].
Qed.

(** C2, amended.  For a description file whose first 8 lines end in a
    newline, hold no NUL and have at most 254 characters before the
    newline: when the run ends well, the ROM is these 8 lines, each
    without its newline and followed by a NUL, then the library name of
    each peripheral invoked followed by a NUL, in order, then zeros up
    to its 2048 bytes. *)
Theorem rom_image (signed_char : bool) (argv0 : string)
        (hs : list (list ascii)) (rest : list ascii) (st : state) :
  List.length hs = 8%nat ->
  Forall (fun l => ~ In LF l /\ ~ In NUL l /\ (List.length l <= 254)%nat) hs ->
  main signed_char argv0 (flat_map (fun l => l ++ [LF]) hs ++ rest) = (0, st) ->
  let content := flat_map packed_string hs ++ drivers (trace st) in
  rom st = content ++ repeat NUL (Z.to_nat ENUMROMSZ - List.length content) /\
  (List.length content <= Z.to_nat ENUMROMSZ)%nat /\
  Z.of_nat (List.length (rom st)) = ENUMROMSZ.
Proof.
  intros L F M content.
  destruct (main_rom _ _ _ _ M) as (cs & f & H1 & Hh).
  assert (F' : Forall (fun l => ~ In LF l /\ (List.length l <= 254)%nat) hs)
    by (eapply Forall_impl; [|exact F]; cbn beta; tauto).
  pose proof (fgets_lines_text hs rest F') as T. rewrite L in T.
  rewrite T in H1. injection H1 as <- <-.
  assert (E : flat_map header_bytes (map (fun l => l ++ [LF]) hs) = flat_map packed_string hs).
  { clear - F. induction F as [|l hs (_ & Hl & _) _ IH]; [reflexivity|].
    cbn [map flat_map]. rewrite IH, header_bytes_line by exact Hl. reflexivity. }
  rewrite E in Hh. destruct Hh as (R1 & _ & R3). fold content in R1, R3.
  split; [exact R1|]. split; [exact R3|].
  rewrite R1, length_app, repeat_length. unfold ENUMROMSZ in *. lia.
Qed.

Lemma rom_image_witness :
  exists st, main true "buildmain" servo4_null = (0, st) /\
             firstn 37 (rom st)
             = flat_map (fun s => packed_string (bytes s))
                        (placeholder_headers ++ ["servo4"; "null"]) ++ [NUL].
Proof.
  destruct (main true "buildmain" servo4_null) as [c st] eqn:M.
  assert (C : c = 0) by (apply (f_equal fst) in M; vm_compute in M; congruence).
  subst c. exists st. split; [reflexivity|].
  destruct (rom_image true "buildmain" (map bytes placeholder_headers)
                      (text ["servo4"; "null"]) st) as (R & _).
  - reflexivity.
  - repeat constructor; vm_compute; intuition discriminate.
  - exact M.
  - rewrite R. apply (f_equal snd) in M. cbn [snd] in M. rewrite <- M. vm_compute. reflexivity.
Defined.

(** C2, as stated, fails where a header line does not fit a read: the
    first line of [long_first_line] is read as two strings, so that the
    ROM holds 254 of its characters, a NUL, and the 45 that follow the
    one dropped, where the claim has the 300 of them. *)
Lemma rom_image_counterexample :
  fst (main true "buildmain" long_first_line) = 0 /\
  rom (snd (main true "buildmain" long_first_line))
  <> spec_rom long_first_line (trace (snd (main true "buildmain" long_first_line))).
Proof.
  split; [vm_compute; reflexivity|].
  intros H. apply (f_equal (fun l => nth 254 l "x"%char)) in H.
  vm_compute in H. discriminate.
Qed.

(** ** Addresses and pins *)

Lemma rom_need_nonneg (es : list ENUMERATORS) : 0 <= rom_need es.
Proof.
  unfold rom_need. induction es as [|e es IH]; cbn [map sumZ fold_right]; [lia|].
  unfold sumZ in IH. lia.
Qed.

Lemma sumZ_app (a b : list Z) : sumZ (a ++ b) = sumZ a + sumZ b.
Proof. unfold sumZ. induction a as [|x a IH]; cbn [List.app fold_right]; lia. Qed.

Lemma allocate_length (l : list (ENUMERATORS * string)) (s p : Z) :
  List.length (allocate s p l) = List.length l.
Proof.
  revert s p; induction l as [|[e n] l IH]; intros s p; cbn [allocate List.length];
    [reflexivity | now rewrite IH].
Qed.

Lemma allocate_nth (l : list (ENUMERATORS * string)) (s p : Z) (k : nat)
      (e : ENUMERATORS) (s' p' : Z) (n : string) :
  nth_error (allocate s p l) k = Some (e, s', p', n) ->
  nth_error l k = Some (e, n) /\ s' = s + Z.of_nat k /\
  p' = p + sumZ (map pinCount (firstn k (map fst l))).
Proof.
  revert s p k; induction l as [|[e0 n0] l IH]; intros s p k; cbn [allocate].
  - destruct k; discriminate.
  - destruct k as [|k]; cbn [nth_error].
    + intros H. inversion H; subst. cbn. repeat split; lia.
    + intros H. apply IH in H. destruct H as (H1 & H2 & H3).
      split; [exact H1|]. split; [lia|].
      cbn [map fst firstn sumZ fold_right]. unfold sumZ in H3. lia.
Qed.

Lemma map_seq_shift (p : Z) (n len m : nat) :
  map (fun k => p + Z.of_nat k) (seq (n + m) len)
  = map (fun k => p + Z.of_nat n + Z.of_nat k) (seq m len).
Proof.
  revert m; induction len as [|len IH]; intros m; cbn [seq map]; [reflexivity|].
  f_equal; [lia|]. rewrite <- IH. f_equal. f_equal. lia.
Qed.

Lemma pin_range_app (p a b : Z) :
  0 <= a -> 0 <= b -> pin_range p (a + b) = pin_range p a ++ pin_range (p + a) b.
Proof.
  intros Ha Hb. unfold pin_range.
  rewrite Z2Nat.inj_add by lia. rewrite seq_app, map_app. f_equal.
  cbn [Nat.add]. rewrite <- (Nat.add_0_r (Z.to_nat a)), map_seq_shift.
  rewrite Z2Nat.id by lia. reflexivity.
Qed.

Lemma pins_of_app (a b : list call) : pins_of (a ++ b) = pins_of a ++ pins_of b.
Proof. apply flat_map_app. Qed.

Lemma pinCount_sum_nonneg (l : list (ENUMERATORS * string)) :
  Forall (fun x => In (fst x) enumerators) l ->
  0 <= sumZ (map pinCount (map fst l)).
Proof.
  induction 1 as [|[e n] l He _ IH]; cbn [map sumZ fold_right fst]; [lia|].
  cbn [fst] in He. pose proof (pinCount_bounds e He). unfold sumZ in IH. lia.
Qed.

(** The pins assigned by successive instances follow one another. *)
Lemma pins_of_allocate (l : list (ENUMERATORS * string)) (s p : Z) :
  Forall (fun x => In (fst x) enumerators) l ->
  pins_of (flat_map emitted (allocate s p l))
  = pin_range p (sumZ (map pinCount (map fst l))).
Proof.
  intros F. revert s p. induction F as [|[e n] l He F' IH]; intros s p; [reflexivity|].
  cbn [allocate flat_map map fst emitted sumZ fold_right].
  cbn [fst] in He.
  rewrite pins_of_app, IH, (invoke_pins e s p n He).
  fold (sumZ (map pinCount (map fst l))).
  symmetry. apply pin_range_app.
  - apply (pinCount_bounds e He).
  - apply pinCount_sum_nonneg. exact F'.
Qed.

Lemma names_comment (t : list ascii) (toks : list (list ascii)) :
  is_comment t = true -> names (t :: toks) = names toks.
Proof. intros H. unfold names. cbn [filter]. rewrite H. reflexivity. Qed.

Lemma names_name (t : list ascii) (toks : list (list ascii)) :
  is_comment t = false -> names (t :: toks) = t :: names toks.
Proof. intros H. unfold names. cbn [filter]. rewrite H. reflexivity. Qed.

(** The loop over tokens that are all found, in a ROM large enough. *)
Lemma steps_success (argv0 : string) (toks : list (list ascii)) :
  forall (es : list ENUMERATORS) (st : state),
    Forall2 (fun t e => search (c_str t) enumerators = Some e) (names toks) es ->
    romindx st + rom_need es <= ENUMROMSZ ->
    exists st',
      steps argv0 toks st = Next st' /\
      invocations (trace st')
      = invocations (trace st) ++ allocate (slot st) (pin st) (instances es toks) /\
      printed stdout (trace st')
      = printed stdout (trace st)
        ++ flat_map emitted (allocate (slot st) (pin st) (instances es toks)) /\
      printed pincludes (trace st')
      = printed pincludes (trace st) ++ map include_line es /\
      printed stderr (trace st') = printed stderr (trace st) /\
      printed penumlst (trace st') = printed penumlst (trace st).
Proof.
  induction toks as [|t toks IH]; intros es st F Hfit.
  - inversion F; subst. exists st. cbn [steps instances combine allocate flat_map map].
    rewrite !app_nil_r. repeat split.
  - cbn [steps].
    destruct (fscanf_peri_trace t st) as (ev0 & T0 & _ & I0 & P0 & _).
    destruct (fscanf_peri_fields t st) as (S0 & N0 & _ & R0).
    destruct (is_comment t) eqn:C.
    + rewrite (peripheral_comment argv0 t st C).
      rewrite (names_comment _ _ C) in F.
      destruct (IH es (fscanf_peri t st) F) as (st' & E & Iv & Po & Pi & Pe & Pl);
        [rewrite R0; exact Hfit|].
      exists st'. split; [exact E|].
      unfold instances in *. rewrite (names_comment _ _ C).
      rewrite Iv, Po, Pi, Pe, Pl, T0, S0, N0.
      autorewrite with proj. rewrite I0, !P0. autorewrite with proj. repeat split.
    + rewrite (names_name _ _ C) in F. inversion F as [|? e ? es' Se F']; subst.
      rewrite (peripheral_found argv0 t st e C Se). cbn zeta.
      destruct (after_invoke_fields e (c_str t) (fscanf_peri t st)) as (S3 & N3 & R3).
      pose proof (rom_need_nonneg es') as NN.
      assert (Hn : rom_need (e :: es')
                   = Z.of_nat (String.length (libname e)) + 1 + rom_need es') by reflexivity.
      replace (romindx (after_invoke e (c_str t) (fscanf_peri t st)) >? ENUMROMSZ) with false
        by (symmetry; rewrite Z.gtb_ltb; apply Z.ltb_ge; lia).
      match goal with |- context [steps argv0 toks ?s] => set (st2 := s) end.
      destruct (IH es' st2 F') as (st' & E & Iv & Po & Pi & Pe & Pl).
      { subst st2. cbn [set_slot romindx]. lia. }
      exists st'. split; [exact E|].
      pose proof (search_In _ _ _ Se) as He.
      assert (T2 : trace st2 = trace (after_invoke e (c_str t) (fscanf_peri t st)))
        by reflexivity.
      assert (S2 : slot st2 = slot st + 1) by (subst st2; cbn [set_slot slot]; lia).
      assert (N2 : pin st2 = pin st + pinCount e).
      { subst st2. cbn [set_slot pin]. rewrite N3, (invoke_snd e _ _ _ He). lia. }
      unfold instances in *. rewrite (names_name _ _ C).
      cbn [map combine allocate flat_map emitted].
      rewrite Iv, Po, Pi, Pe, Pl, T2, after_invoke_trace, T0, S0, N0, S2, N2.
      autorewrite with proj. rewrite I0, !P0. autorewrite with proj.
      rewrite <- !app_assoc. repeat split.
Qed.

(** ** Comments, and tokens that fit [peri] *)

Lemma is_comment_spec (t : list ascii) : is_comment t = spec_comment t.
Proof. destruct t as [|c t]; reflexivity. Qed.

Lemma names_spec (toks : list (list ascii)) : names toks = spec_names toks.
Proof.
  unfold names, spec_names. apply filter_ext. intros t. rewrite is_comment_spec. reflexivity.
Qed.

Lemma fscanf_peri_short (peri : list ascii) (st : state) :
  short peri -> fscanf_peri peri st = st.
Proof.
  unfold short, fscanf_peri. intros H.
  destruct (Z.ltb_spec (Z.of_nat (List.length peri)) PERILEN); [reflexivity | lia].
Qed.

Lemma header_step_peri (st : state) (c : list ascii) :
  peri_fits st -> peri_fits (header_step st c).
Proof.
  unfold peri_fits, header_step. intros H. rewrite rom_sprintf_trace.
  intros X. apply in_app_iff in X. destruct X as [X|X].
  - destruct (0 <? strlen c); [exact (H X)|].
    cbn [log trace] in X. apply in_app_iff in X. destruct X as [X|[X|[]]];
      [exact (H X) | discriminate X].
  - destruct X as [X|X]; [discriminate X|].
    destruct (_ <? ENUMROMSZ); [contradiction|]. destruct X as [X|[]]. discriminate X.
Qed.

Lemma header_lines_peri (n : nat) (st : state) (f : list ascii) :
  peri_fits st ->
  match header_lines n st f with
  | inl (st', _) => peri_fits st'
  | inr st' => peri_fits st'
  end.
Proof.
  revert st f. induction n as [|n IH]; intros st f H; cbn [header_lines]; [exact H|].
  destruct (fgets ROMSTRLN f) as [[c f1]|].
  - apply IH. apply (header_step_peri st c H).
  - unfold peri_fits, print, log. cbn [trace]. intros X. apply in_app_iff in X.
    destruct X as [X|[X|[]]]; [exact (H X) | discriminate X].
Qed.

Lemma peripheral_peri (argv0 : string) (peri : list ascii) (st : state) :
  short peri -> peri_fits st ->
  match peripheral argv0 peri st with
  | Next st' => peri_fits st'
  | Exit _ st' => peri_fits st'
  end.
Proof.
  intros S H. pose proof (fscanf_peri_short peri st S) as F0.
  assert (P : forall (g : stream) (c : call) (s : state), peri_fits s -> peri_fits (print g c s)).
  { unfold peri_fits, print, log. cbn [trace]. intros g c s Hs X. apply in_app_iff in X.
    destruct X as [X|[X|[]]]; [exact (Hs X) | discriminate X]. }
  destruct (peripheral_case argv0 peri st) as [[_ E]|[(_ & _ & E)|(e & _ & _ & _ & E)]].
  - rewrite E, F0. exact H.
  - rewrite E, F0. apply P, H.
  - cbn zeta in E. rewrite F0 in E.
    assert (A : peri_fits (after_invoke e (c_str peri) st)).
    { unfold peri_fits. rewrite after_invoke_trace. intros X. apply in_app_iff in X.
      destruct X as [X|[X|X]]; [exact (H X) | discriminate X |].
      apply in_app_iff in X. destruct X as [X|[X|[X|X]]]; try discriminate X.
      - apply in_map_iff in X. destruct X as (c & X & _). discriminate X.
      - destruct (_ <? ENUMROMSZ); [contradiction|]. destruct X as [X|[]]. discriminate X. }
    destruct E as [[_ E]|[_ E]]; rewrite E; [apply P, A | exact A].
Qed.

Lemma steps_peri (argv0 : string) (toks : list (list ascii)) (st : state) :
  Forall short toks -> peri_fits st ->
  match steps argv0 toks st with
  | Next st' => peri_fits st'
  | Exit _ st' => peri_fits st'
  end.
Proof.
  intros F. revert st. induction F as [|t toks S F IH]; intros st H; cbn [steps]; [exact H|].
  pose proof (peripheral_peri argv0 t st S H) as P.
  destruct (peripheral argv0 t st); [apply IH; exact P | exact P].
Qed.

Lemma finish_peri (signed_char : bool) (st : state) :
  peri_fits st -> peri_fits (snd (finish signed_char st)).
Proof.
  unfold peri_fits, finish, print, log. cbn [snd trace]. intros H X.
  apply in_app_iff in X. destruct X as [X|X].
  - apply in_app_iff in X. destruct X as [X|[X|[]]]; [exact (H X) | discriminate X].
  - apply in_map_iff in X. destruct X as (c & X & _). discriminate X.
Qed.

Lemma initial_peri : peri_fits initial.
Proof. intros X. exact X. Qed.

(** Where every token fits [peri], no [fscanf] of the run of [main]
    runs over it. *)
Lemma main_peri_fits (signed_char : bool) (argv0 : string) (desc : list ascii) :
  short_tokens desc -> peri_fits (snd (main signed_char argv0 desc)).
Proof.
  intros S. unfold main.
  pose proof (header_lines_peri 8 initial desc initial_peri) as HP.
  destruct (header_lines 8 initial desc) as [[st0 f]|st0] eqn:H; [|exact HP].
  destruct (header_lines_inl _ _ _ _ _ H) as (cs & Hc & _).
  pose proof (steps_peri argv0 (tokens f) st0 (S cs f Hc) HP) as SP.
  unfold peripherals. destruct (steps argv0 (tokens f) st0); [|exact SP].
  apply finish_peri, SP.
Qed.

Lemma short_tokens_of (desc : list ascii) (st0 : state) (f : list ascii) :
  header_lines 8 initial desc = inl (st0, f) -> Forall short (tokens f) -> short_tokens desc.
Proof.
  intros H S cs f' Hc. rewrite (header_lines_ok 8 initial desc cs f' Hc) in H.
  assert (E : f' = f) by congruence. rewrite E. exact S.
Qed.

Lemma short_forallb (toks : list (list ascii)) :
  forallb (fun t => Z.of_nat (List.length t) <? PERILEN) toks = true -> Forall short toks.
Proof.
  intros H. apply Forall_forall. intros t Ht. rewrite forallb_forall in H.
  apply Z.ltb_lt, H, Ht.
Qed.

Lemma short_tokens_check (desc : list ascii) :
  match fgets_lines 8 desc with
  | Some (_, f) => forallb (fun t => Z.of_nat (List.length t) <? PERILEN) (tokens f)
  | None => true
  end = true ->
  short_tokens desc.
Proof.
  intros H cs f Hc. rewrite Hc in H. apply short_forallb, H.
Qed.

Lemma combine_nth_error {A B : Type} (a : list A) (b : list B) (k : nat) (x : A) (y : B) :
  nth_error (combine a b) k = Some (x, y) ->
  nth_error a k = Some x /\ nth_error b k = Some y.
Proof.
  revert b k; induction a as [|a0 a IH]; intros [|b0 b] [|k]; cbn; try discriminate.
  - intros H. inversion H. auto.
  - apply IH.
Qed.

Lemma map_fst_combine {A B : Type} (a : list A) (b : list B) :
  List.length a = List.length b -> map fst (combine a b) = a.
Proof.
  revert b; induction a as [|a0 a IH]; intros [|b0 b] H; cbn in *; try discriminate;
    [reflexivity|]. f_equal. apply IH. lia.
Qed.

Lemma found_in_table (ts : list (list ascii)) (es : list ENUMERATORS) :
  Forall2 (fun t e => search (c_str t) enumerators = Some e) ts es ->
  List.length es = List.length ts /\ Forall (fun e => In e enumerators) es.
Proof.
  induction 1 as [|t e ts es H _ [IH1 IH2]]; [split; [reflexivity | constructor]|].
  split; [simpl; lia|]. constructor; [eapply search_In; eauto | exact IH2].
Qed.

(** C1.  For a valid description file: one with its 8 header strings,
    whose tokens, comments and names, all have fewer than 20 characters
    (they fit [peri]), whose tokens that do not begin with [#] are all
    found in the table (the entries [es], in order) and whose library
    names fit the ROM.  The run ends with status 0 and no [fscanf] runs
    over [peri]; as many peripherals are invoked as there are such
    tokens; the [k]-th (from 0) is the entry found for the [k]-th
    token, invoked at address [k] with, as first pin, the sum of the
    pin counts of the entries before it; and the pins assigned on
    [stdout] are, in order, 0, 1, ... up to the sum of all the pin
    counts, each once. *)
Theorem allocation (signed_char : bool) (argv0 : string) (desc : list ascii)
        (st0 : state) (f : list ascii) (es : list ENUMERATORS) :
  header_lines 8 initial desc = inl (st0, f) ->
  Forall short (tokens f) ->
  Forall2 (fun t e => search (c_str t) enumerators = Some e) (spec_names (tokens f)) es ->
  romindx st0 + rom_need es <= ENUMROMSZ ->
  exists st,
    main signed_char argv0 desc = (0, st) /\
    peri_fits st /\
    List.length (invocations (trace st)) = List.length (spec_names (tokens f)) /\
    (forall k e s p n,
        nth_error (invocations (trace st)) k = Some (e, s, p, n) ->
        nth_error es k = Some e /\
        option_map c_str (nth_error (spec_names (tokens f)) k) = Some n /\
        s = Z.of_nat k /\
        p = sumZ (map pinCount (firstn k es))) /\
    pins_of (printed stdout (trace st)) = pin_range 0 (sumZ (map pinCount es)).
Proof.
  intros H Sh F Hfit. rewrite <- names_spec in *.
  destruct (header_lines_result _ _ _ H) as (_ & _ & _ & _ & _ & _ & I0 & P0 & _ & _ & _ & S0 & N0).
  destruct (steps_success argv0 (tokens f) es st0 F Hfit) as (st1 & E & Iv & Po & _).
  destruct (finish_trace signed_char st1) as (evs & T & _ & Ie & Pe & _).
  destruct (found_in_table _ _ F) as [L In_es].
  assert (M : main signed_char argv0 desc = (0, snd (finish signed_char st1))).
  { unfold main, peripherals. rewrite H, E. apply surjective_pairing. }
  exists (snd (finish signed_char st1)). split; [exact M|]. split.
  { pose proof (main_peri_fits signed_char argv0 desc (short_tokens_of _ _ _ H Sh)) as PF.
    rewrite M in PF. exact PF. }
  assert (Lc : List.length es = List.length (map c_str (names (tokens f))))
    by (rewrite length_map; exact L).
  rewrite T, invocations_app, printed_app, Ie, Pe, app_nil_r, Iv, Po, I0, P0, S0, N0.
  cbn [List.app]. unfold instances. split; [|split].
  - rewrite allocate_length, length_combine, <- Lc, Nat.min_id. exact L.
  - intros k e s p n Hk. apply allocate_nth in Hk. destruct Hk as (Hk & Hs & Hp).
    apply combine_nth_error in Hk. destruct Hk as [Hk1 Hk2].
    rewrite map_fst_combine in Hp by exact Lc.
    rewrite nth_error_map in Hk2.
    repeat split; try assumption; lia.
  - rewrite pins_of_app, pins_of_allocate.
    + rewrite map_fst_combine by exact Lc. apply app_nil_r.
    + apply Forall_forall. intros [e n] Hin. cbn [fst].
      apply in_combine_l in Hin. rewrite Forall_forall in In_es. auto.
Qed.

Lemma allocation_witness :
  exists st,
    main true "buildmain" commented_servo4 = (0, st) /\
    map c_str (tokens (skipn 24 commented_servo4))
    = ["#one"; "#"; "servo4"; "null"; "#"] /\
    map (fun i => let '(e, s, p, n) := i in (n, s, p)) (invocations (trace st))
    = [("servo4", 0, 0); ("null", 1, 4)] /\
    pins_of (printed stdout (trace st)) = [0; 1; 2; 3].
Proof.
  destruct (header_lines 8 initial commented_servo4) as [[st0 f]|st0] eqn:H;
    [|vm_compute in H; discriminate].
  assert (Hf : f = skipn 24 commented_servo4)
    by (vm_compute in H; injection H as _ <-; reflexivity).
  assert (Hr : romindx st0 = 24)
    by (vm_compute in H; injection H as <- _; reflexivity).
  destruct (allocation true "buildmain" commented_servo4 st0 f
              [entry "servo4" "servo4" "servo4" servo4; entry "null" "null" "null" null] H)
    as (st & M & _ & _ & _ & P).
  - rewrite Hf. apply short_forallb. vm_compute. reflexivity.
  - rewrite Hf.
    change (spec_names (tokens (skipn 24 commented_servo4)))
      with [bytes "servo4"; bytes "null"].
    repeat constructor.
  - rewrite Hr. unfold rom_need, sumZ, ENUMROMSZ.
    cbn [map fold_right libname String.length]. lia.
  - exists st. split; [exact M|]. split; [vm_compute; reflexivity|]. split; [|exact P].
    apply (f_equal snd) in M. cbn [snd] in M. rewrite <- M. vm_compute. reflexivity.
Defined.

(** ** Unknown peripherals *)

Lemma peripheral_quiet_next (argv0 : string) (peri : list ascii) (st st' : state) :
  quiet st -> peripheral argv0 peri st = Next st' -> quiet st'.
Proof.
  intros (Q1 & Q2 & Q3) E.
  destruct (fscanf_peri_trace peri st) as (ev0 & T0 & _ & _ & P0 & _).
  destruct (peripheral_case argv0 peri st) as [[_ H]|[(_ & _ & H)|(e & _ & _ & He & H)]].
  - rewrite H in E. inversion E; subst. unfold quiet.
    rewrite T0, !printed_app, !P0, !app_nil_r. auto.
  - rewrite H in E. discriminate.
  - cbn zeta in H. destruct H as [[_ H]|[_ H]]; rewrite H in E; [discriminate|].
    inversion E; subst; clear E H. unfold quiet. cbn [set_slot trace].
    rewrite after_invoke_trace, T0.
    autorewrite with proj. rewrite !P0, Q1, Q2. autorewrite with proj.
    split; [reflexivity|]. split; [reflexivity|].
    rewrite existsb_app, Q3. apply invoke_no_endmodule. exact He.
Qed.

Lemma peripheral_quiet_exit (argv0 : string) (peri : list ascii) (st : state)
      (c : Z) (st' : state) :
  (is_comment peri = false -> search (c_str peri) enumerators <> None) ->
  quiet st -> peripheral argv0 peri st = Exit c st' ->
  c = 1 /\ quiet st' /\ exists tr, trace st' = tr ++ [Output stdout rom_overflow].
Proof.
  intros K (Q1 & Q2 & Q3) E.
  destruct (fscanf_peri_trace peri st) as (ev0 & T0 & _ & _ & P0 & _).
  destruct (peripheral_case argv0 peri st) as [[_ H]|[(C & S & H)|(e & _ & _ & He & H)]].
  - rewrite H in E. discriminate.
  - exfalso. apply (K C S).
  - cbn zeta in H. destruct H as [[_ H]|[_ H]]; rewrite H in E; [|discriminate].
    inversion E; subst; clear E H. split; [reflexivity|]. split.
    + unfold quiet. cbn [print log trace]. rewrite after_invoke_trace, T0.
      autorewrite with proj. rewrite !P0, Q1, Q2. autorewrite with proj.
      split; [reflexivity|]. split; [reflexivity|].
      rewrite !existsb_app, Q3, (invoke_no_endmodule e _ _ _ He). reflexivity.
    + cbn [print log trace]. eexists. reflexivity.
Qed.

Lemma steps_known (argv0 : string) (pre : list (list ascii)) (st : state) :
  Forall (fun t => is_comment t = false -> search (c_str t) enumerators <> None) pre ->
  quiet st ->
  match steps argv0 pre st with
  | Next st' => quiet st'
  | Exit c st' => c = 1 /\ quiet st' /\ exists tr, trace st' = tr ++ [Output stdout rom_overflow]
  end.
Proof.
  intros F. rewrite Forall_forall in F.
  apply (steps_inv argv0 quiet
           (fun c st' => c = 1 /\ quiet st' /\
                         exists tr, trace st' = tr ++ [Output stdout rom_overflow])).
  - intros peri s s' _. apply peripheral_quiet_next.
  - intros peri s c s' Hin. apply peripheral_quiet_exit. apply F. exact Hin.
Qed.

(** C8, amended.  For a description file with its 8 header strings and
    a token that does not begin with [#] and is not in the table, the
    tokens before it being comments or found, and all of them, that
    token included, having fewer than 20 characters (they fit [peri]):
    the run ends with status 1, with nothing written to enumerator.lst,
    the module not closed, and no [fscanf] run over [peri].  Either the
    tokens before it were all processed, and the run ends on the
    message that names the token, with nothing else done for it; or
    the ROM overflowed on one of them, and the run ended there, on the
    overflow message, with nothing on [stderr]. *)
Theorem unknown_peripheral_aborts (signed_char : bool) (argv0 : string)
        (desc : list ascii) (st0 : state) (f : list ascii)
        (pre : list (list ascii)) (tok : list ascii) (post : list (list ascii)) :
  header_lines 8 initial desc = inl (st0, f) ->
  tokens f = pre ++ tok :: post ->
  Forall short pre -> short tok ->
  Forall (fun t => spec_comment t = false -> search (c_str t) enumerators <> None) pre ->
  spec_comment tok = false ->
  search (c_str tok) enumerators = None ->
  exists st,
    main signed_char argv0 desc = (1, st) /\
    peri_fits st /\
    printed penumlst (trace st) = [] /\
    existsb is_endmodule (printed stdout (trace st)) = false /\
    ((exists stp,
         steps argv0 pre st0 = Next stp /\
         st = print stderr (unknown_peripheral argv0 (c_str tok)) stp)
     \/ (steps argv0 pre st0 = Exit 1 st /\
         printed stderr (trace st) = [] /\
         exists tr, trace st = tr ++ [Output stdout rom_overflow])).
Proof.
  intros H T Sp St F C S.
  assert (F' : Forall (fun t => is_comment t = false -> search (c_str t) enumerators <> None) pre).
  { eapply Forall_impl; [|exact F]. cbn beta. intros t Ht. rewrite is_comment_spec. exact Ht. }
  rewrite <- is_comment_spec in C.
  destruct (header_lines_result _ _ _ H) as (_ & _ & _ & _ & _ & _ & _ & P0 & _).
  assert (Q0 : quiet st0) by (unfold quiet; rewrite !P0; auto).
  pose proof (header_lines_peri 8 initial desc initial_peri) as PF0. rewrite H in PF0.
  pose proof (steps_known argv0 pre st0 F' Q0) as K.
  pose proof (steps_peri argv0 pre st0 Sp PF0) as PF.
  unfold main, peripherals. rewrite H, T, steps_app.
  destruct (steps argv0 pre st0) as [stp|c stp] eqn:E.
  - cbn [steps]. rewrite (peripheral_unknown argv0 tok stp C S).
    rewrite (fscanf_peri_short tok stp St).
    eexists. split; [reflexivity|].
    destruct K as (K1 & K2 & K3).
    split.
    { unfold peri_fits. cbn [print log trace]. intros X. apply in_app_iff in X.
      destruct X as [X|[X|[]]]; [exact (PF X) | discriminate X]. }
    cbn [print log trace].
    autorewrite with proj. rewrite K1. autorewrite with proj.
    split; [reflexivity|]. split; [exact K3|].
    left. exists stp. split; reflexivity.
  - destruct K as (-> & (K1 & K2 & K3) & K4).
    exists stp. split; [reflexivity|]. split; [exact PF|].
    split; [exact K1|]. split; [exact K3|].
    right. split; [reflexivity|]. split; [exact K2 | exact K4].
Qed.

Lemma unknown_peripheral_aborts_witness :
  exists st,
    main true "buildmain" unknown_after_comment = (1, st) /\
    printed stderr (trace st) = [unknown_peripheral "buildmain" "bogus"] /\
    map (fun i => let '(e, s, p, n) := i in (n, s, p)) (invocations (trace st))
    = [("servo4", 0, 0)].
Proof.
  destruct (header_lines 8 initial unknown_after_comment) as [[st0 f]|st0] eqn:H;
    [|vm_compute in H; discriminate].
  assert (Hf : f = text ["#motors"; "servo4"; "bogus"; "null"])
    by (vm_compute in H; injection H as _ <-; reflexivity).
  destruct (unknown_peripheral_aborts true "buildmain" unknown_after_comment st0 f
              [bytes "#motors"; bytes "servo4"] (bytes "bogus") [bytes "null"] H)
    as (st & M & _).
  - rewrite Hf. vm_compute. reflexivity.
  - apply short_forallb. vm_compute. reflexivity.
  - unfold short. vm_compute. reflexivity.
  - constructor; [intros X; vm_compute in X; discriminate X|].
    constructor; [intros _; vm_compute; discriminate|]. constructor.
  - reflexivity.
  - reflexivity.
  - exists st. split; [exact M|].
    apply (f_equal snd) in M. cbn [snd] in M. rewrite <- M. vm_compute. split; reflexivity.
Defined.

(** C8, as stated, fails where the ROM overflows first: in
    [overflow_then_unknown] the token [bogus] is not a comment and is
    not in the table, and the run ends with status 1 on the overflow
    message of the peripheral before it, with nothing on [stderr]: no
    message names the token. *)
Lemma unknown_peripheral_aborts_counterexample :
  exists st0 f,
    header_lines 8 initial overflow_then_unknown = inl (st0, f) /\
    In (bytes "bogus") (names (tokens f)) /\
    search (c_str (bytes "bogus")) enumerators = None /\
    fst (main true "buildmain" overflow_then_unknown) = 1 /\
    printed stderr (trace (snd (main true "buildmain" overflow_then_unknown))) = [] /\
    printed stdout (trace (snd (main true "buildmain" overflow_then_unknown)))
    = fst (perilist 0 0 "enumerator") ++ [rom_overflow].
Proof.
  eexists. exists (text ["enumerator"; "bogus"]).
  split; [vm_compute; reflexivity|].
  split; [vm_compute; tauto|]. split; [reflexivity|].
  split; [vm_compute; reflexivity|].
  split; vm_compute; reflexivity.
Qed.

(** ** The ROM listing *)

Lemma countdown_S (hi : Z) (n : nat) :
  countdown hi (S n) = hi :: countdown (hi - 1) n.
Proof.
  unfold countdown. cbn [seq map]. f_equal; [lia|].
  rewrite <- seq_shift, map_map. apply map_ext. intros k. lia.
Qed.

Lemma load_app_r (pre l : list ascii) (k : nat) :
  load (pre ++ l) (Z.of_nat (List.length pre + k)) = nth k l NUL.
Proof.
  unfold load. replace (Z.of_nat (List.length pre + k) <? 0) with false
    by (symmetry; apply Z.ltb_ge; lia).
  rewrite Nat2Z.id, app_nth2 by lia. f_equal. lia.
Qed.

(** Reading a slice of a buffer from its last byte down to its first. *)
Lemma load_countdown (l pre post : list ascii) :
  map (load (pre ++ l ++ post))
      (countdown (Z.of_nat (List.length pre + List.length l) - 1) (List.length l))
  = rev l.
Proof.
  revert post. induction l as [|x l IH] using rev_ind; intros post; [reflexivity|].
  rewrite length_app, rev_app_distr. cbn [List.length rev List.app].
  rewrite Nat.add_1_r, countdown_S. cbn [map]. f_equal.
  - replace (Z.of_nat (List.length pre + S (List.length l)) - 1)
      with (Z.of_nat (List.length pre + List.length l)) by lia.
    rewrite load_app_r, <- app_assoc, app_nth2 by lia.
    rewrite Nat.sub_diag. reflexivity.
  - rewrite <- app_assoc. cbn [List.app].
    replace (Z.of_nat (List.length pre + S (List.length l)) - 1 - 1)
      with (Z.of_nat (List.length pre + List.length l) - 1) by lia.
    apply IH.
Qed.

Lemma chunk_split (buf : list ascii) (i : nat) :
  (32 * (i + 1) <= List.length buf)%nat ->
  buf = firstn (32 * i) buf ++ chunk buf i ++ skipn (32 * (i + 1)) buf /\
  List.length (firstn (32 * i) buf) = (32 * i)%nat /\
  List.length (chunk buf i) = 32%nat.
Proof.
  intros H. unfold chunk. split; [|split].
  - rewrite <- (firstn_skipn (32 * i) buf) at 1. f_equal.
    rewrite <- (firstn_skipn 32 (skipn (32 * i) buf)) at 1. f_equal.
    rewrite skipn_skipn. f_equal. lia.
  - rewrite length_firstn. lia.
  - rewrite length_firstn, length_skipn. lia.
Qed.

(** The record of a chunk reads the chunk from its last byte down. *)
Lemma record_bytes (buf : list ascii) (i : nat) :
  (32 * (i + 1) <= List.length buf)%nat ->
  map (load buf) (countdown (32 * (Z.of_nat i + 1) - 1) 32) = rev (chunk buf i).
Proof.
  intros H. destruct (chunk_split buf i H) as (E & L1 & L2).
  pose proof (load_countdown (chunk buf i) (firstn (32 * i) buf)
                             (skipn (32 * (i + 1)) buf)) as P.
  rewrite L1, L2, <- E in P.
  replace (32 * (Z.of_nat i + 1) - 1) with (Z.of_nat (32 * i + 32) - 1) by lia.
  exact P.
Qed.

Lemma record_payload_eq (signed_char : bool) (buf : list ascii) (i : Z) :
  record_payload (rom_record signed_char buf i)
  = flat_map (fun j => fmt_02x false (int_of_char signed_char (load buf j)))
             (countdown (32 * (i + 1) - 1) 32).
Proof.
  unfold record_payload, rom_record. cbn [tl].
  rewrite removelast_last. rewrite flat_map_concat_map, map_map, <- flat_map_concat_map.
  apply flat_map_ext. intros j.
  change (sprintf (fprintf "%02x" [Int (int_of_char signed_char (load buf j))]))
    with (fmt_02x false (int_of_char signed_char (load buf j)) ++ []).
  apply app_nil_r.
Qed.

(** A byte prints as two digits that parse back to it. *)
Lemma hex_byte (c : ascii) :
  exists h d, fmt_02x false (code c) = [h; d] /\
              forall r, unhex (h :: d :: r)
                        = match unhex r with Some bs => Some (c :: bs) | None => None end.
Proof.
  destruct c as [[] [] [] [] [] [] [] []];
    (eexists; eexists; split; [vm_compute; reflexivity|]);
    intros r; cbn [unhex]; destruct (unhex r); reflexivity.
Qed.

Lemma int_of_char_plain (signed_char : bool) (c : ascii) :
  plain signed_char c = true -> int_of_char signed_char c = code c.
Proof.
  unfold plain, int_of_char. intros H. apply orb_true_iff in H. destruct H as [H|H].
  - destruct signed_char; [discriminate | reflexivity].
  - apply Z.ltb_lt in H.
    replace (128 <=? code c) with false by (symmetry; apply Z.leb_gt; exact H).
    now rewrite andb_false_r.
Qed.

Lemma hex_bytes (signed_char : bool) (l : list ascii) :
  Forall (fun c => plain signed_char c = true) l ->
  List.length (flat_map (fun c => fmt_02x false (int_of_char signed_char c)) l)
  = (2 * List.length l)%nat /\
  unhex (flat_map (fun c => fmt_02x false (int_of_char signed_char c)) l) = Some l.
Proof.
  induction 1 as [|c l Hc _ [IH1 IH2]]; [split; reflexivity|].
  cbn [flat_map]. rewrite (int_of_char_plain _ _ Hc).
  destruct (hex_byte c) as (h & d & E & U). rewrite E. cbn [List.app List.length].
  split; [lia|]. rewrite U, IH2. reflexivity.
Qed.

Lemma flat_map_comp {A B C : Type} (f : A -> B) (g : B -> list C) (l : list A) :
  flat_map (fun x => g (f x)) l = flat_map g (map f l).
Proof. induction l as [|a l IH]; cbn [flat_map map]; [reflexivity | now rewrite IH]. Qed.

(** Where the bytes of a chunk print the same for a signed and an
    unsigned [char], its record has 64 digits and decodes to it. *)
Lemma record_roundtrip (signed_char : bool) (buf : list ascii) (i : nat) :
  (32 * (i + 1) <= List.length buf)%nat ->
  Forall (fun c => plain signed_char c = true) (chunk buf i) ->
  let payload := record_payload (rom_record signed_char buf (Z.of_nat i)) in
  List.length payload = 64%nat /\ decode_record payload = Some (chunk buf i).
Proof.
  intros H F payload. subst payload. rewrite record_payload_eq.
  rewrite (flat_map_comp (load buf)
             (fun c => fmt_02x false (int_of_char signed_char c))).
  rewrite (record_bytes buf i H).
  destruct (chunk_split buf i H) as (_ & _ & L).
  assert (F' : Forall (fun c => plain signed_char c = true) (rev (chunk buf i))).
  { apply Forall_forall. intros c Hc. rewrite Forall_forall in F. apply F.
    now apply in_rev in Hc. }
  destruct (hex_bytes signed_char _ F') as [H1 H2].
  split.
  - rewrite H1, length_rev, L. reflexivity.
  - unfold decode_record. rewrite H2. cbn [option_map]. now rewrite rev_involutive.
Qed.

Lemma firstn_plus {A : Type} (a b : nat) (l : list A) :
  firstn (a + b) l = firstn a l ++ firstn b (skipn a l).
Proof.
  revert l; induction a as [|a IH]; intros l; [reflexivity|].
  destruct l as [|x l]; cbn [Nat.add firstn skipn List.app].
  - now rewrite firstn_nil.
  - f_equal. apply IH.
Qed.

(** The first [n] chunks of a buffer, end to end. *)
Lemma chunks_concat (buf : list ascii) (n : nat) :
  flat_map (chunk buf) (seq 0 n) = firstn (32 * n) buf.
Proof.
  induction n as [|n IH]; [reflexivity|].
  rewrite seq_S, flat_map_app, IH. cbn [flat_map Nat.add]. rewrite app_nil_r.
  unfold chunk. replace (32 * S n)%nat with (32 * n + 32)%nat by lia.
  symmetry. apply firstn_plus.
Qed.

Lemma chunk_firstn (buf : list ascii) (n i : nat) :
  (i < n)%nat -> forall c, In c (chunk buf i) -> In c (firstn (32 * n) buf).
Proof.
  intros H c Hc. rewrite <- chunks_concat. apply in_flat_map.
  exists i. split; [apply in_seq; lia | exact Hc].
Qed.

(** A run that ends well has printed the listing of its ROM, and
    nothing else, on enumerator.lst. *)
Lemma main_listing (signed_char : bool) (argv0 : string) (desc : list ascii) (st : state) :
  main signed_char argv0 desc = (0, st) ->
  printed penumlst (trace st) = rom_listing signed_char (rom st) /\
  Z.of_nat (List.length (rom st)) = ENUMROMSZ.
Proof.
  intros M. split.
  - unfold main in M.
    destruct (header_lines 8 initial desc) as [[st0 f]|st0] eqn:H; [|inversion M].
    pose proof (header_no_overflow _ _ _ H) as I0.
    pose proof (steps_inv argv0 no_overflow_yet (fun c _ => c = 1) (tokens f)
                  (fun peri s s' _ => peripheral_overflow_next argv0 peri s s')
                  (fun peri s c s' _ _ => peripheral_exit_status argv0 peri s c s')
                  st0 I0) as S.
    unfold peripherals in M. destruct (steps argv0 (tokens f) st0) as [st1|c st1].
    + destruct (finish_trace signed_char st1) as (evs & T & _ & _ & _ & _ & _ & P).
      destruct (pair_eq _ _ _ M) as [_ M2]. subst st.
      rewrite T, printed_app, P. destruct S as [_ ->]. reflexivity.
    + inversion M; subst. discriminate.
  - destruct (main_rom _ _ _ _ M) as (cs & f & _ & R & _ & L).
    rewrite R, length_app, repeat_length. unfold ENUMROMSZ in *. lia.
Qed.

(** The 16 records of a listing are labelled INIT_00 to INIT_0F. *)
Lemma listing_labels (signed_char : bool) (buf : list ascii) :
  rom_listing signed_char buf
  = flat_map (fun i => rom_record signed_char buf (Z.of_nat i)) (seq 0 16) /\
  map (fun i => string_of_list_ascii
                  (flat_map sprintf (firstn 1 (rom_record signed_char buf (Z.of_nat i)))))
      (seq 0 16)
  = ["    .INIT_00(256'h"; "    .INIT_01(256'h"; "    .INIT_02(256'h"; "    .INIT_03(256'h";
     "    .INIT_04(256'h"; "    .INIT_05(256'h"; "    .INIT_06(256'h"; "    .INIT_07(256'h";
     "    .INIT_08(256'h"; "    .INIT_09(256'h"; "    .INIT_0A(256'h"; "    .INIT_0B(256'h";
     "    .INIT_0C(256'h"; "    .INIT_0D(256'h"; "    .INIT_0E(256'h"; "    .INIT_0F(256'h"].
Proof. split; reflexivity. Qed.

Lemma decode_listing_chunks (signed_char : bool) (buf : list ascii) (n : nat) (l : list nat) :
  Forall (fun i => (i < n)%nat) l ->
  (32 * n <= List.length buf)%nat ->
  Forall (fun c => plain signed_char c = true) (firstn (32 * n) buf) ->
  decode_listing (map (fun i => record_payload (rom_record signed_char buf (Z.of_nat i))) l)
  = Some (flat_map (chunk buf) l).
Proof.
  intros Hl Hn F. induction Hl as [|i l Hi _ IH]; [reflexivity|].
  cbn [map decode_listing flat_map]. rewrite IH.
  destruct (record_roundtrip signed_char buf i) as [_ ->]; [lia | | reflexivity].
  apply Forall_forall. intros c Hc. rewrite Forall_forall in F. apply F.
  eapply chunk_firstn; eauto.
Qed.

(** C4, amended.  For a ROM of 2048 bytes whose first 512 bytes print
    the same for a signed and an unsigned [char] (they are below 128, or
    plain [char] is unsigned): each of the 16 records has 64 digits and
    decodes to its 32 bytes of the ROM, record [i] to the bytes from
    [32 * i] on, and the 16 chunks decoded make, end to end, the first
    512 bytes of the ROM.  The bytes from 512 on are not in the
    listing. *)
Theorem listing_roundtrip (signed_char : bool) (buf : list ascii) :
  Z.of_nat (List.length buf) = ENUMROMSZ ->
  forallb (plain signed_char) (firstn 512 buf) = true ->
  (forall i, (i < 16)%nat ->
             let payload := record_payload (rom_record signed_char buf (Z.of_nat i)) in
             List.length payload = 64%nat /\
             decode_record payload = Some (chunk buf i)) /\
  decode_listing (listing_payloads signed_char buf) = Some (firstn 512 buf).
Proof.
  intros L F. unfold ENUMROMSZ in L.
  assert (F' : Forall (fun c => plain signed_char c = true) (firstn (32 * 16) buf)).
  { apply Forall_forall. rewrite forallb_forall in F. exact F. }
  split.
  - intros i Hi. apply record_roundtrip; [lia|].
    apply Forall_forall. intros c Hc. rewrite Forall_forall in F'. apply F'.
    eapply chunk_firstn; eauto.
  - unfold listing_payloads.
    rewrite (decode_listing_chunks signed_char buf 16); [| | lia | exact F'].
    + now rewrite chunks_concat.
    + apply Forall_forall. intros i Hi. apply in_seq in Hi. lia.
Qed.

Lemma listing_roundtrip_witness :
  let buf := rom (snd (main true "buildmain" servo4_null)) in
  decode_listing (listing_payloads true buf) = Some (firstn 512 buf) /\
  firstn 37 buf
  = flat_map (fun s => packed_string (bytes s))
             (placeholder_headers ++ ["servo4"; "null"]) ++ [NUL].
Proof.
  cbn zeta. split.
  - apply (listing_roundtrip true (rom (snd (main true "buildmain" servo4_null)))).
    + vm_compute. reflexivity.
    + vm_compute. reflexivity.
  - vm_compute. reflexivity.
Defined.

(** C4, as stated, fails on a ROM used beyond its byte 512, whatever
    the sign of [char]: the run of [large_rom] ends well with the
    character [h] at offset 512 of its ROM, and its listing decodes to
    512 bytes, not to the 2048 of the ROM. *)
Lemma listing_roundtrip_counterexample :
  let buf := rom (snd (main false "buildmain" large_rom)) in
  fst (main false "buildmain" large_rom) = 0 /\
  Z.of_nat (List.length buf) = ENUMROMSZ /\
  nth 512 buf NUL = "h"%char /\
  decode_listing (listing_payloads false buf) = Some (firstn 512 buf) /\
  decode_listing (listing_payloads false buf) <> Some buf.
Proof.
  cbn zeta. split; [vm_compute; reflexivity|]. split; [vm_compute; reflexivity|].
  split; [vm_compute; reflexivity|].
  assert (D : decode_listing (listing_payloads false (rom (snd (main false "buildmain" large_rom))))
              = Some (firstn 512 (rom (snd (main false "buildmain" large_rom)))))
    by (vm_compute; reflexivity).
  split; [exact D|]. intros H.
  apply (f_equal (fun o => match o with
                           | Some l => Z.of_nat (List.length l)
                           | None => 0
                           end)) in H.
  vm_compute in H. discriminate.
Qed.

(** C5 on the code, where plain [char] is signed: the first header line
    of [latin1_header] starts with the byte E9; the run ends well, and
    the first record of its listing has 70 digits, not 64: the digits
    of the 31 bytes after it and [ffffffe9].  Where plain [char] is
    unsigned the same byte prints as [e9]. *)
Theorem listing_payload_signed_char :
  let r := main true "buildmain" latin1_header in
  fst r = 0 /\
  printed penumlst (trace (snd r)) = rom_listing true (rom (snd r)) /\
  List.length (record_payload (rom_record true (rom (snd r)) 0)) = 70%nat /\
  string_of_list_ascii (skipn 62 (record_payload (rom_record true (rom (snd r)) 0)))
  = "ffffffe9" /\
  string_of_list_ascii (skipn 62 (record_payload (rom_record false (rom (snd r)) 0)))
  = "e9".
Proof.
  cbn zeta. split; [vm_compute; reflexivity|]. split.
  - apply (main_listing true "buildmain" latin1_header).
    apply pair_fst. vm_compute. reflexivity.
  - split; [vm_compute; reflexivity|]. split; vm_compute; reflexivity.
Qed.

(** ** The range of the integers of [main] *)

Lemma bounded_exit (st : state) : bounded st -> bounded_at_exit st.
Proof.
  intros (A & B & C & D). unfold bounded_at_exit, ENUMROMSZ in *.
  split; [lia|]. split; [lia|]. split; [lia|].
  eapply Forall_impl; [|exact D]. intros [[[e s] p] n]. lia.
Qed.

Lemma bounded_at_exit_print (f : stream) (c : call) (st : state) :
  bounded_at_exit st -> bounded_at_exit (print f c st).
Proof.
  unfold bounded_at_exit. cbn [print log slot pin romindx trace].
  change [Output f c] with (map (Output f) [c]).
  rewrite invocations_app, invocations_Output, app_nil_r. auto.
Qed.

Lemma peripheral_bounded (argv0 : string) (peri : list ascii) (st : state) :
  bounded st ->
  match peripheral argv0 peri st with
  | Next st' => bounded st'
  | Exit _ st' => bounded_at_exit st'
  end.
Proof.
  intros (A & B & C & D).
  destruct (fscanf_peri_trace peri st) as (ev0 & T0 & _ & I0 & _ & _).
  destruct (fscanf_peri_fields peri st) as (S0 & N0 & _ & R0).
  assert (B0 : bounded (fscanf_peri peri st)).
  { unfold bounded. rewrite S0, N0, R0, T0, invocations_app, I0, app_nil_r. auto. }
  destruct (peripheral_case argv0 peri st) as [[_ H]|[(_ & _ & H)|(e & _ & _ & He & H)]].
  - rewrite H. exact B0.
  - rewrite H. apply bounded_at_exit_print, bounded_exit, B0.
  - cbn zeta in H.
    destruct (after_invoke_fields e (c_str peri) (fscanf_peri peri st)) as (S3 & N3 & R3).
    pose proof (libname_length e He) as LL.
    pose proof (pinCount_bounds e He) as PB.
    rewrite (invoke_snd e _ _ _ He) in N3.
    assert (I3 : Forall (fun i => let '(_, s, p, _) := i in 0 <= s <= 512 /\ 0 <= p <= 8 * s)
                        (invocations (trace (after_invoke e (c_str peri) (fscanf_peri peri st))))).
    { rewrite after_invoke_trace, T0. autorewrite with proj. rewrite I0.
      autorewrite with proj. apply Forall_app. split; [exact D|].
      constructor; [|constructor]. rewrite S0, N0. unfold ENUMROMSZ in *. lia. }
    destruct H as [[G H]|[G H]]; rewrite H.
    + apply bounded_at_exit_print. unfold bounded_at_exit.
      rewrite S3, N3, R3, S0, N0, R0. unfold ENUMROMSZ in *.
      split; [lia|]. split; [lia|]. split; [lia|].
      eapply Forall_impl; [|exact I3]. intros [[[e' s] p] n]. lia.
    + unfold bounded. cbn [set_slot slot pin romindx trace].
      rewrite S3, N3, S0, N0. rewrite R3, R0 in G |- *. unfold ENUMROMSZ in *.
      split; [lia|]. split; [lia|]. split; [lia|]. exact I3.
Qed.

Lemma steps_bounded (argv0 : string) (toks : list (list ascii)) (st : state) :
  bounded st ->
  match steps argv0 toks st with
  | Next st' => bounded st'
  | Exit _ st' => bounded_at_exit st'
  end.
Proof.
  revert st. induction toks as [|t toks IH]; intros st B; cbn [steps]; [exact B|].
  pose proof (peripheral_bounded argv0 t st B) as P.
  destruct (peripheral argv0 t st); [apply IH; exact P | exact P].
Qed.

(** No integer of [main] leaves the range of a 32-bit [int]: in the
    final state of every run the slot is at most 512, the pin at most
    4104 and the ROM index at most 2059, and every invocation was given
    a slot of at most 512 and a pin of at most 4096. *)
Lemma run_ints_bounded (signed_char : bool) (argv0 : string) (desc : list ascii) :
  bounded_at_exit (snd (main signed_char argv0 desc)).
Proof.
  unfold main. destruct (header_lines 8 initial desc) as [[st0 f]|st0] eqn:H.
  - destruct (header_lines_result _ _ _ H) as (_ & _ & _ & _ & _ & _ & I0 & _ & _ & _ & R & S0 & N0).
    assert (B0 : bounded st0).
    { unfold bounded, ENUMROMSZ. rewrite S0, N0, I0.
      split; [lia|]. split; [lia|]. split; [lia|]. constructor. }
    unfold peripherals.
    pose proof (steps_bounded argv0 (tokens f) st0 B0) as S.
    destruct (steps argv0 (tokens f) st0) as [st1|c st1]; [|exact S].
    apply bounded_exit in S.
    destruct (finish_trace signed_char st1) as (evs & T & _ & Iv & _).
    destruct S as (A & B & C & D). unfold bounded_at_exit.
    destruct (finish_fields signed_char st1) as (_ & -> & -> & _ & ->).
    rewrite T, invocations_app, Iv, app_nil_r. auto.
  - apply header_lines_inr in H. destruct H as (cs & F & L & ->).
    destruct (header_fold cs initial [] F initial_holds) as
      (evs & T & _ & _ & Iv & _ & _ & _ & R & S0 & N0).
    { cbn [initial romindx]. unfold ENUMROMSZ. lia. }
    cbn [snd]. apply bounded_at_exit_print. unfold bounded_at_exit.
    rewrite S0, N0, T. cbn [initial slot pin romindx trace List.app] in *.
    rewrite Iv. unfold ENUMROMSZ.
    split; [lia|]. split; [lia|]. split; [lia|]. constructor.
Qed.

(** * Further properties *)

(** ** The shape of a run *)

Lemma header_lines_fail (n : nat) (st : state) (f : list ascii) :
  fgets_lines n f = None -> exists st', header_lines n st f = inr st'.
Proof.
  revert st f; induction n as [|n IH]; intros st f; cbn [header_lines fgets_lines];
    [discriminate|].
  destruct (fgets ROMSTRLN f) as [[c f1]|]; [|eexists; reflexivity].
  destruct (fgets_lines n f1) as [[cs r]|] eqn:E; [discriminate|].
  intros _. apply IH. exact E.
Qed.

Lemma header_lines_inr_none (n : nat) (st : state) (f : list ascii) (st' : state) :
  header_lines n st f = inr st' -> fgets_lines n f = None.
Proof.
  intros H. destruct (fgets_lines n f) as [[cs r]|] eqn:E; [|reflexivity].
  rewrite (header_lines_ok n st f cs r E) in H. discriminate.
Qed.

Lemma header_exit_result (desc : list ascii) (st : state) :
  header_lines 8 initial desc = inr st ->
  fgets_lines 8 desc = None /\
  exists st0, st = print stdout not_enough st0 /\
              invocations (trace st0) = [] /\ (forall g, printed g (trace st0) = []) /\
              (List.length (rom_writes (trace st0)) < 8)%nat /\
              ~ In (Overrun "rom") (trace st0) /\
              slot st0 = 0 /\ pin st0 = 0 /\ 0 <= romindx st0 <= 2040.
Proof.
  intros H. split; [exact (header_lines_inr_none _ _ _ _ H)|].
  apply header_lines_inr in H. destruct H as (cs & F & L & E).
  destruct (header_fold cs initial [] F initial_holds) as
    (evs & T & W & _ & Iv & P & O & _ & R & S0 & N0).
  { cbn [initial romindx]. unfold ENUMROMSZ. lia. }
  exists (fold_left header_step cs initial). split; [exact E|].
  rewrite T. cbn [initial trace List.app romindx slot pin] in *.
  split; [exact Iv|]. split; [exact P|]. split.
  { rewrite <- (length_map snd), W, length_map. exact L. }
  split; [exact O|]. split; [exact S0|]. split; [exact N0|]. lia.
Qed.

(** Reasoning on every run of [main]: [I] holds at the head of the
    peripheral loop, [Q] at every exit. *)
Lemma run_inv (signed_char : bool) (argv0 : string) (desc : list ascii)
      (I : state -> Prop) (Q : Z -> state -> Prop) :
  (forall st f, header_lines 8 initial desc = inl (st, f) -> I st) ->
  (forall peri st, I st ->
                   match peripheral argv0 peri st with
                   | Next st' => I st'
                   | Exit c st' => Q c st'
                   end) ->
  (forall st, I st -> Q 0 (snd (finish signed_char st))) ->
  (forall st, header_lines 8 initial desc = inr st -> Q 1 st) ->
  Q (fst (main signed_char argv0 desc)) (snd (main signed_char argv0 desc)).
Proof.
  intros H0 HS HF HE. unfold main.
  destruct (header_lines 8 initial desc) as [[st0 f]|st0] eqn:H.
  - unfold peripherals.
    pose proof (steps_inv argv0 I Q (tokens f)) as S.
    specialize (S (fun peri st st' _ Hi E =>
                     eq_ind _ (fun r => match r with Next s => I s | Exit c s => Q c s end)
                            (HS peri st Hi) _ E)).
    specialize (S (fun peri st c st' _ Hi E =>
                     eq_ind _ (fun r => match r with Next s => I s | Exit c s => Q c s end)
                            (HS peri st Hi) _ E)).
    specialize (S st0 (H0 st0 f eq_refl)).
    destruct (steps argv0 (tokens f) st0) as [st1|c st1]; cbn [fst snd]; [|exact S].
    destruct (finish_fields signed_char st1) as (F & _).
    rewrite (pair_fst _ _ F). cbn [fst snd]. apply HF. exact S.
  - cbn [fst snd]. apply HE. reflexivity.
Qed.

(** ** Modules instantiated and files included *)

Lemma search_name (peri : list ascii) (e : ENUMERATORS) :
  search (c_str peri) enumerators = Some e ->
  periname e = c_str peri /\ In e enumerators.
Proof.
  intros H. split; [|exact (search_In _ _ _ H)].
  rewrite (search_find _ _ enumerators_names (c_str_nul_free peri)) in H.
  apply find_some in H. destruct H as [_ H]. apply String.eqb_eq in H. exact H.
Qed.

Lemma invoke_module :
  Forall (fun e => forall addr p : Z,
              modules_of (fst (invoke e addr p (periname e))) = [incname e])
         enumerators.
Proof.
  unfold enumerators. repeat constructor.
Qed.

Lemma modules_of_app (a b : list call) :
  modules_of (a ++ b) = modules_of a ++ modules_of b.
Proof. apply flat_map_app. Qed.

Lemma invoked_app (a b : list event) : invoked (a ++ b) = invoked a ++ invoked b.
Proof. unfold invoked. rewrite invocations_app. apply map_app. Qed.

Lemma peripheral_included (argv0 : string) (peri : list ascii) (st : state) :
  included_modules st ->
  match peripheral argv0 peri st with
  | Next st' => included_modules st'
  | Exit _ st' => included_modules st'
  end.
Proof.
  intros (A & B).
  destruct (fscanf_peri_trace peri st) as (ev0 & T0 & _ & I0 & P0 & _).
  assert (B0 : included_modules (fscanf_peri peri st)).
  { unfold included_modules, invoked.
    rewrite T0, !printed_app, invocations_app, I0, !P0, !app_nil_r. auto. }
  destruct (peripheral_case argv0 peri st) as [[_ H]|[(_ & _ & H)|(e & _ & Hs & He & H)]].
  - rewrite H. exact B0.
  - rewrite H. destruct B0 as [B1 B2]. unfold included_modules, invoked in *.
    cbn [print log trace].
    rewrite invocations_app, !printed_app. cbn. rewrite !app_nil_r. auto.
  - cbn zeta in H. destruct (search_name _ _ Hs) as [Hn _].
    assert (I3 : included_modules (after_invoke e (c_str peri) (fscanf_peri peri st))).
    { destruct B0 as [B1 B2]. unfold included_modules, invoked in *.
      rewrite after_invoke_trace.
      rewrite invocations_app, !printed_app, modules_of_app, !map_app, B1, B2.
      autorewrite with proj. cbn [map entry_of].
      rewrite <- Hn.
      rewrite (proj1 (Forall_forall _ _) invoke_module e He). auto. }
    destruct H as [[G H]|[G H]]; rewrite H.
    + destruct I3 as [I3 I4]. unfold included_modules, invoked in *.
      cbn [print log trace].
      rewrite invocations_app, !printed_app, modules_of_app, I3, I4.
      cbn. rewrite !app_nil_r. auto.
    + exact I3.
Qed.

Lemma included_include_lines (es : list ENUMERATORS) :
  flat_map included (map include_line es) = map incname es.
Proof.
  induction es as [|e es IH]; [reflexivity|].
  cbn [map flat_map]. rewrite IH. reflexivity.
Qed.

(** X1.  In every run, completed or aborted, the modules instantiated
    on stdout are, in order, the include files of the entries invoked,
    and includes.tmp holds exactly one include line for each of them, in
    the same order: a module is instantiated if and only if its file is
    included, an alias instantiating (and including) the module it
    stands for. *)
Theorem modules_are_included (signed_char : bool) (argv0 : string) (desc : list ascii) :
  let st := snd (main signed_char argv0 desc) in
  modules_of (printed stdout (trace st)) = map incname (invoked (trace st)) /\
  printed pincludes (trace st) = map include_line (invoked (trace st)) /\
  flat_map included (printed pincludes (trace st)) = modules_of (printed stdout (trace st)).
Proof.
  cbn zeta.
  assert (K : included_modules (snd (main signed_char argv0 desc))).
  { apply (run_inv signed_char argv0 desc included_modules (fun _ => included_modules)).
    - intros st f H.
      destruct (header_lines_result _ _ _ H) as (_ & _ & _ & _ & _ & _ & I0 & P0 & _).
      unfold included_modules, invoked. rewrite I0, !P0. split; reflexivity.
    - intros peri st. apply peripheral_included.
    - intros st (A & B).
      destruct (finish_trace signed_char st) as (evs & T & _ & Iv & P1 & _ & P3 & _).
      unfold included_modules, invoked in *.
      rewrite T, invocations_app, !printed_app, Iv, P1, P3, modules_of_app, !app_nil_r, A, B.
      split; reflexivity.
    - intros st H. destruct (header_exit_result _ _ H) as (_ & st0 & -> & I0 & P0 & _).
      unfold included_modules, invoked. cbn [print log trace].
      rewrite invocations_app, !printed_app, I0, !P0. split; reflexivity. }
  destruct K as [A B]. split; [exact A|]. split; [exact B|].
  rewrite B, A. apply included_include_lines.
Qed.

(** ** Addresses and pins in every run *)

Lemma allocate_snoc (l : list (ENUMERATORS * string)) (s p : Z) (e : ENUMERATORS) (n : string) :
  allocate s p (l ++ [(e, n)]) =
  allocate s p l ++ [(e, s + Z.of_nat (List.length l), p + sumZ (map pinCount (map fst l)), n)].
Proof.
  revert s p. induction l as [|[e' n'] l IH]; intros s p.
  - cbn. rewrite !Z.add_0_r. reflexivity.
  - cbn [allocate List.app List.length map fst sumZ fold_right]. rewrite IH.
    cbn [List.app]. f_equal. f_equal.
    replace (s + 1 + Z.of_nat (List.length l)) with (s + Z.of_nat (S (List.length l))) by lia.
    replace (p + pinCount e' + sumZ (map pinCount (map fst l)))
      with (p + (pinCount e' + fold_right Z.add 0 (map pinCount (map fst l))))
      by (unfold sumZ; lia).
    reflexivity.
Qed.

Lemma map_fst_request (l : list (ENUMERATORS * Z * Z * string)) :
  map fst (map request_of l) = map entry_of l.
Proof.
  induction l as [|[[[e s] p] n] l IH]; [reflexivity|].
  cbn [map request_of entry_of fst]. rewrite IH. reflexivity.
Qed.

Lemma invoked_in_table (st : state) :
  Forall (fun e => In e enumerators) (invoked (trace st)) ->
  0 <= sumZ (map pinCount (invoked (trace st))).
Proof.
  generalize (invoked (trace st)). intros l F. induction F as [|e l He F IH]; cbn; [lia|].
  pose proof (pinCount_bounds e He). fold (sumZ (map pinCount l)). lia.
Qed.

Lemma peripheral_gap_free (argv0 : string) (peri : list ascii) (st : state) :
  let I := fun s => gap_free s /\ Forall (fun e => In e enumerators) (invoked (trace s)) in
  I st /\ slot st = Z.of_nat (List.length (invocations (trace st))) ->
  match peripheral argv0 peri st with
  | Next st' => I st' /\ slot st' = Z.of_nat (List.length (invocations (trace st')))
  | Exit _ st' => I st'
  end.
Proof.
  cbn zeta. intros (((A & B & C) & D) & E).
  destruct (fscanf_peri_trace peri st) as (ev0 & T0 & _ & I0 & P0 & _).
  destruct (fscanf_peri_fields peri st) as (S0 & N0 & _ & R0).
  assert (B0 : (gap_free (fscanf_peri peri st) /\
                Forall (fun e => In e enumerators) (invoked (trace (fscanf_peri peri st)))) /\
               slot (fscanf_peri peri st) =
               Z.of_nat (List.length (invocations (trace (fscanf_peri peri st))))).
  { unfold gap_free, invoked in *.
    rewrite T0, !printed_app, invocations_app, I0, !P0, !app_nil_r, S0, N0. auto. }
  destruct (peripheral_case argv0 peri st) as [[_ H]|[(_ & _ & H)|(e & _ & Hs & He & H)]].
  - rewrite H. exact B0.
  - rewrite H. destruct B0 as [[(B1 & B2 & B3) B4] _]. unfold gap_free, invoked in *.
    cbn [print log trace slot pin].
    rewrite invocations_app, !printed_app. cbn. rewrite !app_nil_r. auto.
  - cbn zeta in H.
    set (st0 := fscanf_peri peri st) in *.
    destruct (after_invoke_fields e (c_str peri) st0) as (S3 & N3 & R3).
    rewrite (invoke_snd e _ _ _ He) in N3.
    destruct B0 as [[(B1 & B2 & B3) B4] B5].
    assert (I3 : (gap_free (after_invoke e (c_str peri) st0) /\
                  Forall (fun e => In e enumerators)
                         (invoked (trace (after_invoke e (c_str peri) st0)))) /\
                 slot (after_invoke e (c_str peri) st0) + 1 =
                 Z.of_nat (List.length (invocations (trace (after_invoke e (c_str peri) st0))))).
    { pose proof (invoked_in_table st0 B4) as NN.
      pose proof (pinCount_bounds e He) as PB.
      unfold gap_free, invoked in *. rewrite after_invoke_trace, N3, S3.
      rewrite invocations_app, !printed_app.
      autorewrite with proj. cbn [map request_of entry_of].
      rewrite !map_app. cbn [map request_of entry_of].
      rewrite allocate_snoc, <- B1, map_fst_request, length_map, <- B5, <- B2, !Z.add_0_l.
      split; [split; [split; [reflexivity|]|]|].
      + split.
        * rewrite sumZ_app, <- B2. cbn. lia.
        * rewrite pins_of_app, B3, (invoke_pins e _ _ _ He).
          rewrite pin_range_app by lia. rewrite Z.add_0_l. reflexivity.
      + apply Forall_app. split; [exact B4|]. constructor; [exact He|constructor].
      + rewrite length_app. cbn [List.length]. lia. }
    destruct H as [[G H]|[G H]]; rewrite H.
    + destruct I3 as [[(I3 & I4 & I5) I6] _]. unfold gap_free, invoked in *.
      cbn [print log trace slot pin].
      rewrite invocations_app, !printed_app, pins_of_app. cbn. rewrite !app_nil_r. auto.
    + destruct I3 as [I3 I4]. split; [exact I3|]. cbn [set_slot trace slot]. exact I4.
Qed.

Lemma run_gap_free (signed_char : bool) (argv0 : string) (desc : list ascii) :
  let r := main signed_char argv0 desc in
  (gap_free (snd r) /\ Forall (fun e => In e enumerators) (invoked (trace (snd r)))) /\
  (fst r = 0 -> slot (snd r) = Z.of_nat (List.length (invocations (trace (snd r))))).
Proof.
  cbn zeta.
  set (I := fun s => gap_free s /\ Forall (fun e => In e enumerators) (invoked (trace s))).
  change ((fun c s => I s /\ (c = 0 -> slot s = Z.of_nat (List.length (invocations (trace s)))))
            (fst (main signed_char argv0 desc)) (snd (main signed_char argv0 desc))).
  apply (run_inv signed_char argv0 desc
           (fun s => I s /\ slot s = Z.of_nat (List.length (invocations (trace s))))).
  - intros st f H.
    destruct (header_lines_result _ _ _ H) as (_ & _ & _ & _ & _ & _ & I0 & P0 & _ & _ & _ & S0 & N0).
    unfold I, gap_free, invoked. rewrite I0, !P0, S0, N0.
    repeat split; constructor.
  - intros peri st HI. pose proof (peripheral_gap_free argv0 peri st HI) as P.
    pose proof (peripheral_exit_status argv0 peri st) as X.
    destruct (peripheral argv0 peri st) as [st'|c st']; [exact P|].
    split; [exact P|]. intros ->. specialize (X 0 st' eq_refl). discriminate.
  - intros st [HI HS].
    destruct (finish_trace signed_char st) as (evs & T & _ & Iv & P1 & _ & _ & _).
    destruct (finish_fields signed_char st) as (_ & F1 & F2 & _).
    destruct HI as [(A & B & C) D]. unfold I, gap_free, invoked in *.
    rewrite T, F1, F2, invocations_app, !printed_app, Iv, P1, pins_of_app, !app_nil_r.
    cbn. auto.
  - intros st H. destruct (header_exit_result _ _ H) as (_ & st0 & -> & I0 & P0 & _ & _ & S0 & N0 & _).
    unfold I, gap_free, invoked. cbn [print log trace slot pin].
    rewrite invocations_app, !printed_app, I0, !P0, N0. cbn.
    split; [|discriminate]. repeat split; constructor.
Qed.

(** X2.  In every run, completed or aborted, the instances take the
    addresses 0, 1, 2, ... in order and each the pins that follow those
    of the instance before it; the next free pin is the sum of the pin
    counts of the entries invoked, and the connector pins assigned on
    stdout are exactly 0, 1, ..., that sum less one, in order and each
    once.  When the run completes, the slot counter is the number of
    instances. *)
Theorem allocation_every_run (signed_char : bool) (argv0 : string) (desc : list ascii) :
  let r := main signed_char argv0 desc in
  let st := snd r in
  invocations (trace st) = allocate 0 0 (map request_of (invocations (trace st))) /\
  pin st = sumZ (map pinCount (invoked (trace st))) /\
  pins_of (printed stdout (trace st)) = pin_range 0 (pin st) /\
  Forall (fun e => In e enumerators) (invoked (trace st)) /\
  (fst r = 0 -> slot st = Z.of_nat (List.length (invocations (trace st)))).
Proof.
  cbn zeta. destruct (run_gap_free signed_char argv0 desc) as [[(A & B & C) D] E]. auto.
Qed.

(** ** The exit status *)

Lemma peripheral_exit_aborted (argv0 : string) (peri : list ascii) (st : state) :
  quiet st /\ romindx st <= ENUMROMSZ ->
  match peripheral argv0 peri st with
  | Next st' => quiet st' /\ romindx st' <= ENUMROMSZ
  | Exit c st' => c = 1 /\ loop_aborted argv0 st'
  end.
Proof.
  intros [Qs R].
  destruct (fscanf_peri_trace peri st) as (ev0 & T0 & _ & I0 & P0 & _).
  destruct (fscanf_peri_fields peri st) as (S0 & N0 & _ & R0).
  assert (Q0 : quiet (fscanf_peri peri st)).
  { destruct Qs as (Q1 & Q2 & Q3). unfold quiet.
    rewrite T0, !printed_app, !P0, !app_nil_r. auto. }
  pose proof (peripheral_quiet_next argv0 peri st) as QN.
  destruct (peripheral_case argv0 peri st) as [[_ H]|[(_ & Hs & H)|(e & _ & Hs & He & H)]].
  - rewrite H in *. split; [apply (QN _ Qs eq_refl) | rewrite R0; exact R].
  - rewrite H. split; [reflexivity|]. destruct Q0 as (Q1 & Q2 & Q3).
    unfold loop_aborted. cbn [print log trace]. rewrite !printed_app, Q1.
    split; [reflexivity|]. split; [cbn; rewrite app_nil_r; exact Q3|].
    left. exists (trace (fscanf_peri peri st)), (c_str peri). auto.
  - cbn zeta in H. destruct H as [[G H]|[G H]]; rewrite H in *.
    + split; [reflexivity|].
      assert (Q3 : quiet (after_invoke e (c_str peri) (fscanf_peri peri st))).
      { destruct Q0 as (Q1 & Q2 & Q3). unfold quiet. rewrite after_invoke_trace.
        rewrite !printed_app, Q1, Q2. autorewrite with proj.
        split; [reflexivity|]. split; [reflexivity|].
        rewrite existsb_app, Q3. apply invoke_no_endmodule. exact He. }
      destruct Q3 as (Q1 & Q2 & Q3).
      unfold loop_aborted. cbn [print log trace romindx]. rewrite !printed_app, Q1.
      split; [reflexivity|]. split; [rewrite existsb_app, Q3; reflexivity|].
      right. unfold overflow_exit. cbn [print log trace romindx]. rewrite !printed_app, Q2.
      eexists. split; [reflexivity|]. split; [reflexivity|]. exact G.
    + split; [apply (QN _ Qs eq_refl)|]. cbn [set_slot romindx]. exact G.
Qed.

Lemma loop_ends (signed_char : bool) (argv0 : string) (toks : list (list ascii)) (st : state) :
  quiet st -> romindx st <= ENUMROMSZ ->
  let r := peripherals signed_char argv0 toks st in
  (fst r = 0 /\ completed signed_char (snd r)) \/ (fst r = 1 /\ loop_aborted argv0 (snd r)).
Proof.
  intros Q0 R0. cbn zeta. unfold peripherals.
  pose proof (steps_inv argv0 (fun s => quiet s /\ romindx s <= ENUMROMSZ)
                        (fun c s => c = 1 /\ loop_aborted argv0 s) toks) as S.
  specialize (S (fun peri s s' _ Hi E =>
                   eq_ind _ (fun r => match r with
                                      | Next s => quiet s /\ romindx s <= ENUMROMSZ
                                      | Exit c s => c = 1 /\ loop_aborted argv0 s
                                      end)
                          (peripheral_exit_aborted argv0 peri s Hi) _ E)).
  specialize (S (fun peri s c s' _ Hi E =>
                   eq_ind _ (fun r => match r with
                                      | Next s => quiet s /\ romindx s <= ENUMROMSZ
                                      | Exit c s => c = 1 /\ loop_aborted argv0 s
                                      end)
                          (peripheral_exit_aborted argv0 peri s Hi) _ E)).
  specialize (S st (conj Q0 R0)).
  destruct (steps argv0 toks st) as [st1|c st1]; [|right; exact S].
  destruct S as [(Q1 & Q2 & Q3) R]. left.
  destruct (finish_trace signed_char st1) as (evs & T & _ & _ & P1 & P2 & _ & P4).
  destruct (finish_fields signed_char st1) as (F0 & _ & _ & F3 & F4).
  split; [exact F0|].
  unfold completed. rewrite T, F3, F4, !printed_app, P1, P2, P4, Q1, Q2.
  split; [reflexivity|]. split; [reflexivity|]. split; [exact R|].
  eexists. split; [reflexivity | exact Q3].
Qed.

Lemma header_quiet (desc : list ascii) (st : state) (f : list ascii) :
  header_lines 8 initial desc = inl (st, f) -> quiet st /\ romindx st <= ENUMROMSZ.
Proof.
  intros H.
  destruct (header_lines_result _ _ _ H) as (_ & _ & _ & _ & _ & _ & _ & P0 & _ & _ & R & _).
  unfold quiet. rewrite !P0. unfold ENUMROMSZ. repeat split; try reflexivity. lia.
Qed.

Lemma header_exit_aborted (argv0 : string) (desc : list ascii) (st : state) :
  header_lines 8 initial desc = inr st ->
  aborted argv0 st /\ printed pincludes (trace st) = [].
Proof.
  intros H. destruct (header_exit_result _ _ H) as (_ & st0 & -> & I0 & P0 & _).
  unfold aborted, missing_header_exit. cbn [print log trace].
  rewrite invocations_app, !printed_app, I0, !P0.
  split; [|reflexivity]. split; [reflexivity|]. split; [reflexivity|]. left. auto.
Qed.

(** X3.  Every run of [main] on a description file whose tokens all
    have fewer than 20 characters (so that no [fscanf] runs over
    [peri]) ends in one of two ways.  With status 0: stdout ends with
    the line that closes the module, printed once, enumerator.lst holds
    the listing of the final ROM, stderr is empty and at most 2048
    bytes of ROM were asked for.  With status 1: enumerator.lst is
    empty, the module is not closed, and the last thing done was to
    print one message: the missing-header message (alone on stdout,
    nothing invoked), the unknown-peripheral message (alone on stderr,
    naming a string that is not in the table), or the ROM-overflow
    message (stderr empty, more than 2048 bytes asked for). *)
Theorem exit_status (signed_char : bool) (argv0 : string) (desc : list ascii) :
  short_tokens desc ->
  let r := main signed_char argv0 desc in
  peri_fits (snd r) /\
  ((fst r = 0 /\ completed signed_char (snd r)) \/ (fst r = 1 /\ aborted argv0 (snd r))).
Proof.
  intros Sh. cbn zeta. split; [apply main_peri_fits, Sh|]. unfold main.
  destruct (header_lines 8 initial desc) as [[st0 f]|st0] eqn:H.
  - destruct (header_quiet _ _ _ H) as [Q0 R0].
    destruct (loop_ends signed_char argv0 (tokens f) st0 Q0 R0) as [L|[L1 (A & B & C)]];
      [left; exact L|].
    right. split; [exact L1|]. unfold aborted. auto.
  - right. split; [reflexivity|]. apply (header_exit_aborted argv0 desc). exact H.
Qed.

Lemma exit_status_witness :
  short_tokens commented_servo4 /\ short_tokens unknown_after_comment /\
  (fst (main true "buildmain" commented_servo4) = 0 /\
   completed true (snd (main true "buildmain" commented_servo4))) /\
  (fst (main true "buildmain" unknown_after_comment) = 1 /\
   aborted "buildmain" (snd (main true "buildmain" unknown_after_comment))).
Proof.
  assert (S1 : short_tokens commented_servo4)
    by (apply short_tokens_check; vm_compute; reflexivity).
  assert (S2 : short_tokens unknown_after_comment)
    by (apply short_tokens_check; vm_compute; reflexivity).
  split; [exact S1|]. split; [exact S2|]. split.
  - destruct (exit_status true "buildmain" commented_servo4 S1) as [_ [A|[A _]]];
      [exact A | vm_compute in A; discriminate A].
  - destruct (exit_status true "buildmain" unknown_after_comment S2) as [_ [[A _]|A]];
      [vm_compute in A; discriminate A | exact A].
Defined.

(** X4.  The 8 header reads decide alone whether the run stops on the
    missing-header message: when one of the 8 [fgets] finds the end of
    the file (an empty file, or fewer than 8 lines), and only then, the
    run ends with status 1 and that message alone on stdout; nothing is
    invoked, and nothing is written to stderr, to includes.tmp or to
    enumerator.lst. *)
Theorem missing_header (signed_char : bool) (argv0 : string) (desc : list ascii) :
  let r := main signed_char argv0 desc in
  fgets_lines 8 desc = None <->
  fst r = 1 /\ printed stdout (trace (snd r)) = [not_enough] /\
  printed stderr (trace (snd r)) = [] /\ printed pincludes (trace (snd r)) = [] /\
  printed penumlst (trace (snd r)) = [] /\ invocations (trace (snd r)) = [].
Proof.
  cbn zeta. unfold main. split.
  - intros N. destruct (header_lines_fail 8 initial desc N) as [st H]. rewrite H.
    destruct (header_exit_aborted argv0 _ _ H) as [(A & _ & [(B & C & D)|[U|O]]) E].
    + cbn [fst snd]. split; [reflexivity|]. repeat (split; [assumption|]). assumption.
    + exfalso. destruct (header_exit_result _ _ H) as (_ & st0 & -> & _ & P0 & _).
      destruct U as (tr & peri & T & _). cbn [print log trace] in T.
      apply app_inj_tail in T. destruct T as [_ T]. discriminate.
    + exfalso. destruct (header_exit_result _ _ H) as (_ & st0 & -> & _ & P0 & _).
      destruct O as (tr & T & _). cbn [print log trace] in T.
      apply app_inj_tail in T. destruct T as [_ T]. discriminate.
  - destruct (header_lines 8 initial desc) as [[st0 f]|st0] eqn:H;
      [|intros _; exact (header_lines_inr_none _ _ _ _ H)].
    intros (S & O & E & _). exfalso.
    destruct (header_quiet _ _ _ H) as [Q0 R0].
    destruct (loop_ends signed_char argv0 (tokens f) st0 Q0 R0)
      as [[L _]|[_ (_ & _ & [(tr & peri & T & _)|(tr & T & _)])]].
    + rewrite S in L. discriminate.
    + rewrite T, printed_app in E. cbn in E. destruct (printed stderr tr); discriminate.
    + rewrite T, printed_app in O. cbn in O.
      destruct (printed stdout tr) as [|c [|c' l]]; discriminate.
Qed.

Lemma missing_header_witness :
  fgets_lines 8 seven_lines = None /\
  fst (main true "buildmain" seven_lines) = 1 /\
  printed stdout (trace (snd (main true "buildmain" seven_lines))) = [not_enough].
Proof.
  assert (N : fgets_lines 8 seven_lines = None) by reflexivity.
  split; [exact N|].
  apply (missing_header true "buildmain" seven_lines) in N.
  destruct N as (A & B & _). split; [exact A | exact B].
Defined.

(** ** Comments and layout *)

Lemma same_output_refl (a : state) : same_output a a.
Proof. unfold same_output. auto 10. Qed.

Lemma same_output_app (a b : state) (s p i : Z) (r : list ascii) (evs : list event) :
  same_output a b ->
  same_output (mkState s p r i (trace a ++ evs)) (mkState s p r i (trace b ++ evs)).
Proof.
  intros (_ & _ & _ & _ & P & I & W). unfold same_output. cbn [slot pin rom romindx trace].
  rewrite invocations_app, rom_writes_app, I, W, invocations_app, rom_writes_app.
  repeat (split; [reflexivity|]). split; [|auto].
  intros g. rewrite !printed_app, P. reflexivity.
Qed.

Lemma same_output_fscanf (peri : list ascii) (a b : state) :
  same_output a b -> same_output (fscanf_peri peri a) b.
Proof.
  intros (S & N & R & X & P & I & W).
  destruct (fscanf_peri_trace peri a) as (ev0 & T0 & W0 & I0 & P0 & _).
  destruct (fscanf_peri_fields peri a) as (S0 & N0 & R0 & X0).
  unfold same_output. rewrite S0, N0, R0, X0, T0, invocations_app, rom_writes_app, I0, W0, !app_nil_r.
  repeat (split; [assumption|]). split; [|auto].
  intros g. rewrite printed_app, P0, app_nil_r. apply P.
Qed.

(** A pass of the peripheral loop reads the variables of the state and
    adds to its trace: it does the same from two states with the same
    output. *)
Lemma peripheral_same (argv0 : string) (peri : list ascii) (a b : state) :
  same_output a b -> same_flow (peripheral argv0 peri a) (peripheral argv0 peri b).
Proof.
  intros H. pose proof H as (S & N & R & X & _).
  destruct a as [s p r i ta], b as [s' p' r' i' tb]. cbn [slot pin rom romindx] in S, N, R, X.
  subst s' p' r' i'.
  assert (F : same_output (fscanf_peri peri (mkState s p r i ta))
                          (fscanf_peri peri (mkState s p r i tb))).
  { unfold fscanf_peri. destruct (Z.of_nat (List.length peri) <? PERILEN); [exact H|].
    unfold log. cbn [slot pin rom romindx trace].
    apply (same_output_app _ _ s p i r _ H). }
  unfold peripheral.
  destruct (fscanf_peri_fields peri (mkState s p r i ta)) as (Sa & Na & Ra & Xa).
  destruct (fscanf_peri_fields peri (mkState s p r i tb)) as (Sb & Nb & Rb & Xb).
  cbn [slot pin rom romindx] in Sa, Na, Ra, Xa, Sb, Nb, Rb, Xb.
  revert F Sa Na Ra Xa Sb Nb Rb Xb.
  generalize (fscanf_peri peri (mkState s p r i ta)) (fscanf_peri peri (mkState s p r i tb)).
  intros [s1 p1 r1 i1 t1] [s2 p2 r2 i2 t2] F. cbn [slot pin rom romindx].
  intros -> -> -> -> -> -> -> ->.
  destruct (is_comment peri); [exact F|].
  destruct (search (c_str peri) enumerators) as [e|].
  - destruct (invoke e s p (c_str peri)) as [out q].
    unfold print, log, set_pin, set_slot, rom_sprintf. cbn [slot pin rom romindx trace].
    destruct (i + Z.of_nat (List.length (sprintf (fprintf "%s%c" [Str (libname e); Int 0])))
              >? ENUMROMSZ);
      cbn [same_flow]; rewrite <- !app_assoc; [split; [reflexivity|]|];
      apply (same_output_app (mkState s p r i t1) (mkState s p r i t2) _ _ _ _ _ F).
  - unfold print, log. cbn [same_flow slot pin rom romindx trace]. split; [reflexivity|].
    apply (same_output_app (mkState s p r i t1) (mkState s p r i t2) _ _ _ _ _ F).
Qed.

Lemma steps_same (argv0 : string) (toks : list (list ascii)) (a b : state) :
  same_output a b -> same_flow (steps argv0 toks a) (steps argv0 toks b).
Proof.
  revert a b. induction toks as [|t toks IH]; intros a b H; cbn [steps]; [exact H|].
  pose proof (peripheral_same argv0 t a b H) as P.
  destruct (peripheral argv0 t a) as [a'|c a'], (peripheral argv0 t b) as [b'|d b'];
    cbn [same_flow] in P; try contradiction; [apply IH; exact P | exact P].
Qed.

Lemma steps_names (argv0 : string) (toks : list (list ascii)) (a b : state) :
  same_output a b -> same_flow (steps argv0 toks a) (steps argv0 (names toks) b).
Proof.
  revert a b. induction toks as [|t toks IH]; intros a b H; [exact H|].
  destruct (is_comment t) eqn:C.
  - rewrite (names_comment t toks C). cbn [steps]. rewrite (peripheral_comment argv0 t a C).
    apply IH. apply same_output_fscanf. exact H.
  - rewrite (names_name t toks C). cbn [steps].
    pose proof (peripheral_same argv0 t a b H) as P.
    destruct (peripheral argv0 t a) as [a'|c a'], (peripheral argv0 t b) as [b'|d b'];
      cbn [same_flow] in P; try contradiction; [apply IH; exact P | exact P].
Qed.

Lemma same_flow_trans (x y z : flow) : same_flow x y -> same_flow y z -> same_flow x z.
Proof.
  assert (T : forall a b c, same_output a b -> same_output b c -> same_output a c).
  { intros a b c (A1 & A2 & A3 & A4 & A5 & A6 & A7) (B1 & B2 & B3 & B4 & B5 & B6 & B7).
    unfold same_output.
    rewrite A1, A2, A3, A4, A6, A7, B1, B2, B3, B4, B6, B7.
    repeat (split; [reflexivity|]). split; [|auto].
    intros g. rewrite A5. apply B5. }
  destruct x, y, z; cbn [same_flow]; try contradiction; try (intros [] _; contradiction).
  - apply T.
  - intros [-> A] [-> B]. split; [reflexivity|]. exact (T _ _ _ A B).
Qed.

Lemma same_flow_sym (x y : flow) : same_flow x y -> same_flow y x.
Proof.
  assert (T : forall a b, same_output a b -> same_output b a).
  { intros a b (A1 & A2 & A3 & A4 & A5 & A6 & A7). unfold same_output.
    rewrite A1, A2, A3, A4, A6, A7. repeat (split; [reflexivity|]). split; [|auto].
    intros g. symmetry. apply A5. }
  destruct x, y; cbn [same_flow]; try contradiction.
  - apply T.
  - intros [-> A]. split; [reflexivity|]. apply T. exact A.
Qed.

Lemma finish_same (signed_char : bool) (a b : state) :
  same_output a b ->
  same_output (snd (finish signed_char a)) (snd (finish signed_char b)).
Proof.
  intros H. destruct a as [s p r i ta], b as [s' p' r' i' tb].
  pose proof H as (S & N & R & X & _). cbn [slot pin rom romindx] in S, N, R, X.
  subst s' p' r' i'. unfold finish, print, log. cbn [snd slot pin rom romindx trace].
  rewrite <- !app_assoc. apply (same_output_app _ _ _ _ _ _ _ H).
Qed.

(** X5.  Only the names count.  Take two description files whose
    tokens all have fewer than 20 characters (so that no [fscanf] runs
    over [peri]), whose 8 header reads give the same strings and whose
    remaining tokens are the same once those that begin with [#] are
    left out.  They give the same run: the same exit status, final
    slot, pin and ROM, the same text on each of the four streams, the
    same invocations.  The skip is by token: white space and line
    breaks play no part, and what follows a [#] and a space on a line
    is read as names. *)
Theorem names_decide (signed_char : bool) (argv0 : string) (desc1 desc2 : list ascii)
        (cs : list (list ascii)) (f1 f2 : list ascii) :
  fgets_lines 8 desc1 = Some (cs, f1) ->
  fgets_lines 8 desc2 = Some (cs, f2) ->
  Forall short (tokens f1) -> Forall short (tokens f2) ->
  spec_names (tokens f1) = spec_names (tokens f2) ->
  peri_fits (snd (main signed_char argv0 desc1)) /\
  peri_fits (snd (main signed_char argv0 desc2)) /\
  fst (main signed_char argv0 desc1) = fst (main signed_char argv0 desc2) /\
  same_output (snd (main signed_char argv0 desc1)) (snd (main signed_char argv0 desc2)).
Proof.
  intros H1 H2 S1 S2 E. rewrite <- !names_spec in E.
  pose proof (header_lines_ok 8 initial desc1 cs f1 H1) as L1.
  pose proof (header_lines_ok 8 initial desc2 cs f2 H2) as L2.
  split; [apply main_peri_fits, (short_tokens_of _ _ _ L1 S1)|].
  split; [apply main_peri_fits, (short_tokens_of _ _ _ L2 S2)|].
  unfold main. rewrite L1, L2.
  set (st0 := fold_left header_step cs initial). unfold peripherals.
  pose proof (steps_names argv0 (tokens f1) st0 st0 (same_output_refl st0)) as A.
  pose proof (steps_names argv0 (tokens f2) st0 st0 (same_output_refl st0)) as B.
  rewrite <- E in B. pose proof (same_flow_trans _ _ _ A (same_flow_sym _ _ B)) as C.
  destruct (steps argv0 (tokens f1) st0) as [a|c a], (steps argv0 (tokens f2) st0) as [b|d b];
    cbn [same_flow] in C; try contradiction.
  - destruct (finish_fields signed_char a) as (Fa & _).
    destruct (finish_fields signed_char b) as (Fb & _).
    rewrite Fa, Fb. split; [reflexivity|]. apply finish_same. exact C.
  - exact C.
Qed.

Lemma names_decide_witness :
  let r1 := main true "buildmain" servo4_null in
  let r2 := main true "buildmain" commented_servo4 in
  map c_str (tokens (bytes "#one" ++ [LF] ++ bytes "# servo4" ++ [LF; LF] ++ bytes "   null #"))
  = ["#one"; "#"; "servo4"; "null"; "#"] /\
  fst r1 = fst r2 /\ same_output (snd r1) (snd r2).
Proof.
  split; [reflexivity|].
  apply (names_decide true "buildmain" servo4_null commented_servo4
           (map (fun l => bytes l ++ [LF]) placeholder_headers)
           (text ["servo4"; "null"])
           (bytes "#one" ++ [LF] ++ bytes "# servo4" ++ [LF; LF] ++ bytes "   null #")).
  - reflexivity.
  - reflexivity.
  - apply short_forallb. reflexivity.
  - apply short_forallb. reflexivity.
  - reflexivity.
Defined.

(** ** Reading the ROM back *)

Lemma unpack_string (s : list ascii) (cur rest : list ascii) :
  ~ In NUL s -> unpack cur (s ++ NUL :: rest) = (rev cur ++ s) :: unpack [] rest.
Proof.
  revert cur. induction s as [|c s IH]; intros cur N; cbn [unpack List.app].
  - rewrite app_nil_r. reflexivity.
  - destruct (Ascii.eqb c NUL) eqn:E.
    + apply Ascii.eqb_eq in E. exfalso. apply N. left. exact E.
    + rewrite IH by (intros X; apply N; right; exact X).
      cbn [rev]. rewrite <- app_assoc. reflexivity.
Qed.

Lemma unpack_packed (ss : list (list ascii)) :
  Forall (fun s => ~ In NUL s) ss -> unpack [] (flat_map packed_string ss) = ss.
Proof.
  induction 1 as [|s ss N F IH]; [reflexivity|].
  cbn [flat_map]. unfold packed_string at 1. rewrite <- app_assoc. cbn [List.app].
  rewrite (unpack_string s [] _ N), IH. reflexivity.
Qed.

Lemma libname_nul_free (e : ENUMERATORS) : In e enumerators -> ~ In NUL (bytes (libname e)).
Proof.
  revert e. apply Forall_forall. unfold enumerators.
  repeat constructor; vm_compute; intuition discriminate.
Qed.

Lemma drivers_invoked (tr : list event) :
  drivers tr = flat_map packed_string (map (fun e => bytes (libname e)) (invoked tr)).
Proof.
  unfold drivers, invoked. induction (invocations tr) as [|[[[e s] p] n] l IH]; [reflexivity|].
  cbn [flat_map map entry_of]. rewrite IH. reflexivity.
Qed.

Lemma header_bytes_packed (cs : list (list ascii)) :
  flat_map header_bytes cs = flat_map packed_string (map (fun c => bytes (header_string c)) cs).
Proof.
  induction cs as [|c cs IH]; [reflexivity|].
  cbn [flat_map map]. rewrite IH. unfold header_bytes.
  rewrite header_string_removelast. reflexivity.
Qed.

Lemma rom_unpack (signed_char : bool) (argv0 : string) (desc : list ascii) (st : state) :
  main signed_char argv0 desc = (0, st) ->
  exists cs f,
    fgets_lines 8 desc = Some (cs, f) /\
    unpack [] (rom_used st) =
    map (fun c => bytes (header_string c)) cs
        ++ map (fun e => bytes (libname e)) (invoked (trace st)).
Proof.
  intros M. destruct (main_rom _ _ _ _ M) as (cs & f & H & (R1 & R2 & R3)).
  pose proof (run_gap_free signed_char argv0 desc) as G. rewrite M in G. cbn [fst snd] in G.
  destruct G as [[_ D] _].
  exists cs, f. split; [exact H|].
  unfold rom_used. rewrite R2, Nat2Z.id, R1, firstn_app, Nat.sub_diag, firstn_all.
  cbn [firstn]. rewrite app_nil_r, header_bytes_packed, drivers_invoked, <- flat_map_app.
  apply unpack_packed. apply Forall_app. split.
  - apply Forall_forall. intros x X. apply in_map_iff in X. destruct X as (c & <- & _).
    apply c_str_nul_free.
  - apply Forall_forall. intros x X. apply in_map_iff in X. destruct X as (e & <- & X).
    rewrite Forall_forall in D. apply libname_nul_free, D, X.
Qed.

(** X6.  The ROM of a completed run reads back.  Cutting the bytes in
    use at their NULs gives the 8 header strings (each as stored, its
    last character deleted) followed by the library names of the
    peripherals invoked, in order and nothing else; the peripheral
    invoked at address [k] has its library name as string number
    [8 + k], counting from 0. *)
Theorem rom_reads_back (signed_char : bool) (argv0 : string) (desc : list ascii) (st : state) :
  main signed_char argv0 desc = (0, st) ->
  exists cs f,
    fgets_lines 8 desc = Some (cs, f) /\
    unpack [] (rom_used st) =
    map (fun c => bytes (header_string c)) cs
        ++ map (fun e => bytes (libname e)) (invoked (trace st)) /\
    forall k e s p n,
      nth_error (invocations (trace st)) k = Some (e, s, p, n) ->
      s = Z.of_nat k /\ nth_error (unpack [] (rom_used st)) (8 + k) = Some (bytes (libname e)).
Proof.
  intros M. destruct (rom_unpack _ _ _ _ M) as (cs & f & H & U).
  pose proof (run_gap_free signed_char argv0 desc) as G. rewrite M in G. cbn [fst snd] in G.
  destruct G as [[(A & _) _] _].
  destruct (fgets_lines_chunks _ _ _ _ H) as (_ & L & _).
  exists cs, f. split; [exact H|]. split; [exact U|].
  intros k e s p n N. split.
  - rewrite A in N. apply allocate_nth in N. destruct N as (_ & N & _). lia.
  - rewrite U, nth_error_app2 by (rewrite length_map; lia).
    rewrite length_map, L. replace (8 + k - 8)%nat with k by lia.
    unfold invoked. rewrite !nth_error_map, N. reflexivity.
Qed.

Lemma rom_reads_back_witness :
  exists st, main true "buildmain" servo4_null = (0, st) /\
             unpack [] (rom_used st) =
             map bytes (placeholder_headers ++ ["servo4"; "null"]).
Proof.
  destruct (main true "buildmain" servo4_null) as [c st] eqn:M.
  assert (C : c = 0) by (apply (f_equal fst) in M; vm_compute in M; symmetry; exact M).
  subst c. exists st. split; [reflexivity|].
  destruct (rom_reads_back true "buildmain" servo4_null st M) as (cs & f & H & U & _).
  rewrite U. vm_compute in H. injection H as <- _.
  apply (f_equal snd) in M. cbn [snd] in M. rewrite <- M. vm_compute. reflexivity.
Defined.

(** ** The capacity of the ROM *)

Lemma header_fold_romindx (cs : list (list ascii)) (st : state) :
  romindx (fold_left header_step cs st) = romindx st + header_need cs.
Proof.
  revert st. induction cs as [|c cs IH]; intros st; cbn [fold_left].
  - unfold header_need. cbn. lia.
  - rewrite IH, header_step_romindx. unfold header_need, sumZ. cbn [map fold_right]. lia.
Qed.

Lemma steps_capacity (argv0 : string) (toks : list (list ascii)) :
  forall (es : list ENUMERATORS) (st : state),
    Forall2 (fun t e => search (c_str t) enumerators = Some e) (names toks) es ->
    romindx st <= ENUMROMSZ -> printed stderr (trace st) = [] ->
    (romindx st + rom_need es <= ENUMROMSZ ->
     exists st', steps argv0 toks st = Next st' /\ romindx st' = romindx st + rom_need es) /\
    (ENUMROMSZ < romindx st + rom_need es ->
     exists st', steps argv0 toks st = Exit 1 st' /\ overflow_exit st').
Proof.
  induction toks as [|t toks IH]; intros es st F R E.
  - inversion F; subst. cbn [steps]. unfold rom_need, sumZ. cbn [map fold_right].
    split; intros H; [exists st; split; [reflexivity | lia] | lia].
  - destruct (fscanf_peri_trace t st) as (ev0 & T0 & _ & _ & P0 & _).
    destruct (fscanf_peri_fields t st) as (_ & _ & _ & R0).
    destruct (is_comment t) eqn:C.
    + rewrite (names_comment t toks C) in F. cbn [steps].
      rewrite (peripheral_comment argv0 t st C).
      rewrite <- R0 in *. apply IH; [exact F | exact R |].
      rewrite T0, printed_app, P0, E. reflexivity.
    + rewrite (names_name t toks C) in F. inversion F as [|t' e ts es' Hs F']; subst.
      cbn [steps]. rewrite (peripheral_found argv0 t st e C Hs). cbn zeta.
      set (st3 := after_invoke e (c_str t) (fscanf_peri t st)).
      destruct (after_invoke_fields e (c_str t) (fscanf_peri t st)) as (_ & _ & R3).
      fold st3 in R3. rewrite R0 in R3.
      assert (E3 : printed stderr (trace st3) = []).
      { unfold st3. rewrite after_invoke_trace, T0. autorewrite with proj.
        rewrite P0, E. autorewrite with proj. reflexivity. }
      pose proof (rom_need_nonneg es') as NN.
      assert (RN : rom_need (e :: es') = Z.of_nat (String.length (libname e)) + 1 + rom_need es').
      { unfold rom_need, sumZ. cbn [map fold_right]. reflexivity. }
      rewrite RN.
      destruct (romindx st3 >? ENUMROMSZ) eqn:G.
      * apply Z.gtb_lt in G. split; intros H; [lia|].
        eexists. split; [reflexivity|]. unfold overflow_exit. cbn [print log trace romindx].
        eexists. split; [reflexivity|]. split; [|exact G].
        rewrite printed_app, E3. reflexivity.
      * assert (G' : romindx st3 <= ENUMROMSZ).
        { destruct (Z.gtb_spec (romindx st3) ENUMROMSZ); [discriminate | lia]. }
        destruct (IH es' (set_slot (slot st3 + 1) st3) F' G' E3) as [A B].
        cbn [set_slot romindx] in A, B. rewrite R3 in A, B.
        split; intros H.
        -- destruct A as (st' & A1 & A2); [lia|]. exists st'. split; [exact A1 | lia].
        -- apply B. lia.
Qed.

(** X7.  The capacity of the ROM, for a description file whose tokens
    all have fewer than 20 characters (so that no [fscanf] runs over
    [peri]) and whose tokens that do not begin with [#] are all in the
    table.  The bytes needed are those of the 8 header strings and of
    the library names, each with its NUL.  When they are at most 2048
    the run completes and has used exactly that many; when they are
    more, the run ends with status 1 on the ROM-overflow message.
    (2048 is accepted: the test is [romindx > ENUMROMSZ].) *)
Theorem rom_capacity (signed_char : bool) (argv0 : string) (desc : list ascii)
        (cs : list (list ascii)) (f : list ascii) (es : list ENUMERATORS) :
  fgets_lines 8 desc = Some (cs, f) ->
  Forall short (tokens f) ->
  Forall2 (fun t e => search (c_str t) enumerators = Some e) (spec_names (tokens f)) es ->
  let r := main signed_char argv0 desc in
  let need := header_need cs + rom_need es in
  peri_fits (snd r) /\
  (need <= ENUMROMSZ -> fst r = 0 /\ romindx (snd r) = need) /\
  (ENUMROMSZ < need -> fst r = 1 /\ overflow_exit (snd r)).
Proof.
  intros H Sh F. cbn zeta. rewrite <- names_spec in F.
  pose proof (header_lines_ok 8 initial desc cs f H) as HL.
  split; [apply main_peri_fits, (short_tokens_of _ _ _ HL Sh)|].
  unfold main. rewrite HL.
  destruct (header_quiet _ _ _ HL) as [(_ & Q & _) R].
  pose proof (header_fold_romindx cs initial) as X. cbn [initial romindx] in X.
  rewrite Z.add_0_l in X.
  destruct (steps_capacity argv0 (tokens f) es _ F R Q) as [A B].
  rewrite X in A, B. unfold peripherals. split; intros N.
  - destruct (A N) as (st' & -> & A2).
    destruct (finish_fields signed_char st') as (F0 & _ & _ & _ & F4).
    rewrite F0, F4. auto.
  - destruct (B N) as (st' & -> & B2). cbn [fst snd]. auto.
Qed.

Lemma rom_capacity_witness :
  (fst (main true "buildmain" commented_servo4) = 0 /\
   romindx (snd (main true "buildmain" commented_servo4)) = 36) /\
  (fst (main true "buildmain" exactly_full) = 0 /\
   romindx (snd (main true "buildmain" exactly_full)) = 2048) /\
  (fst (main true "buildmain" overflowing) = 1 /\
   overflow_exit (snd (main true "buildmain" overflowing))).
Proof.
  split; [|split].
  - apply (rom_capacity true "buildmain" commented_servo4
             (map (fun l => bytes l ++ [LF]) placeholder_headers)
             (skipn 24 commented_servo4)
             [entry "servo4" "servo4" "servo4" servo4; entry "null" "null" "null" null]).
    + reflexivity.
    + apply short_forallb. reflexivity.
    + change (spec_names (tokens (skipn 24 commented_servo4)))
        with [bytes "servo4"; bytes "null"].
      repeat constructor.
    + vm_compute. discriminate.
  - apply (rom_capacity true "buildmain" exactly_full
             (map (fun _ => repeat "h"%char 254 ++ [LF]) (seq 0 8)) (text ["dc2"; "rtc"])
             [entry "dc2" "dc2" "dc2" dc2; entry "rtc" "espi" "rtc" espi]).
    + vm_compute. reflexivity.
    + apply short_forallb. reflexivity.
    + change (spec_names (tokens (text ["dc2"; "rtc"]))) with [bytes "dc2"; bytes "rtc"].
      repeat constructor.
    + vm_compute. discriminate.
  - apply (rom_capacity true "buildmain" overflowing
             (map (fun _ => repeat "h"%char 254 ++ [LF]) (seq 0 8)) (text ["enumerator"])
             [entry "enumerator" "enumerator" "enumerator" perilist]).
    + vm_compute. reflexivity.
    + apply short_forallb. reflexivity.
    + change (spec_names (tokens (text ["enumerator"]))) with [bytes "enumerator"].
      repeat constructor.
    + vm_compute. reflexivity.
Defined.

(** ** Stores outside a buffer *)

Lemma overruns_app (a b : list event) : overruns (a ++ b) = overruns a ++ overruns b.
Proof. apply flat_map_app. Qed.

Lemma overruns_Output (g : stream) (cs : list call) : overruns (map (Output g) cs) = [].
Proof. induction cs as [|c cs IH]; [reflexivity | exact IH]. Qed.

Lemma header_overruns (cs : list (list ascii)) (st : state) :
  Forall (fun c => (List.length c <= 255)%nat) cs ->
  romindx st + 255 * Z.of_nat (List.length cs) < ENUMROMSZ ->
  overruns (trace (fold_left header_step cs st)) = [] <->
  overruns (trace st) = [] /\ Forall (fun c => 0 < strlen c) cs.
Proof.
  intros F. revert st. induction F as [|c cs L F IH]; intros st R; cbn [fold_left].
  - split; [intros H; split; [exact H | constructor] | intros [H _]; exact H].
  - cbn [List.length] in R. rewrite Nat2Z.inj_succ in R.
    pose proof (header_string_length c L) as HL.
    rewrite IH by (rewrite header_step_romindx; lia).
    assert (E : overruns (trace (header_step st c)) = [] <->
                overruns (trace st) = [] /\ 0 < strlen c).
    { unfold header_step. rewrite rom_sprintf_trace, overruns_app.
      assert (X : romindx (if 0 <? strlen c then st else log [Overrun "romstr"] st) = romindx st)
        by (destruct (0 <? strlen c); reflexivity).
      rewrite X.
      destruct (Z.ltb_spec (romindx st + Z.of_nat (String.length (header_string c)) + 1) ENUMROMSZ);
        [|lia].
      cbn [overruns flat_map List.app]. rewrite app_nil_r.
      destruct (Z.ltb_spec 0 (strlen c)).
      - split; [intros H'; split; [exact H' | assumption] | intros [H' _]; exact H'].
      - cbn [log trace]. rewrite overruns_app. cbn [overruns flat_map List.app]. split.
        + intros H'. apply app_eq_nil in H'. destruct H' as [_ H']. discriminate.
        + intros [_ H']. lia. }
    rewrite E. split.
    + intros [[A B] C]. split; [exact A|]. constructor; assumption.
    + intros [A B]. inversion B; subst. auto.
Qed.

Lemma peripheral_overruns (argv0 : string) (peri : list ascii) (st st' : state) :
  peripheral argv0 peri st = Next st' -> overrun_free_iff [peri] st st'.
Proof.
  intros E. unfold overrun_free_iff.
  assert (T0 : trace (fscanf_peri peri st)
               = trace st ++ (if Z.of_nat (List.length peri) <? PERILEN then [] else [Overrun "peri"])).
  { unfold fscanf_peri. destruct (_ <? PERILEN); [rewrite app_nil_r|]; reflexivity. }
  destruct (fscanf_peri_fields peri st) as (_ & _ & _ & R0).
  assert (SH : forall P : Prop,
             ((if Z.of_nat (List.length peri) <? PERILEN then [] else ["peri"]) = [] /\ P)
             <-> (Forall short [peri] /\ P)).
  { intros P. unfold short. destruct (Z.ltb_spec (Z.of_nat (List.length peri)) PERILEN).
    - split; intros [_ HP]; split; auto.
    - split; [intros [X _]; discriminate | intros [X _]; inversion X; subst; lia]. }
  destruct (peripheral_case argv0 peri st) as [[_ H]|[(_ & _ & H)|(e & _ & _ & He & H)]].
  - rewrite H in E. inversion E; subst st'. rewrite R0. split; [lia|].
    exists (if Z.of_nat (List.length peri) <? PERILEN then [] else ["peri"]). split.
    + rewrite T0, overruns_app. destruct (_ <? PERILEN); reflexivity.
    + specialize (SH True). split.
      * intros X. destruct (proj1 SH (conj X I)) as [Y _]. split; [exact Y | right; reflexivity].
      * intros [X _]. apply (proj2 SH (conj X I)).
  - rewrite H in E. discriminate.
  - cbn zeta in H. destruct H as [[_ H]|[G H]]; rewrite H in E; [discriminate|].
    inversion E; subst st'; clear E H. cbn [set_slot romindx trace].
    destruct (after_invoke_fields e (c_str peri) (fscanf_peri peri st)) as (_ & _ & R3).
    rewrite R0 in R3. rewrite R3 in *. split; [lia|].
    exists ((if Z.of_nat (List.length peri) <? PERILEN then [] else ["peri"])
            ++ (if romindx st + Z.of_nat (String.length (libname e)) + 1 <? ENUMROMSZ
                then [] else ["rom"])).
    split.
    + rewrite after_invoke_trace, T0, R0, !overruns_app. cbn [overruns flat_map].
      rewrite overruns_app, overruns_Output. cbn [overruns flat_map List.app].
      rewrite <- app_assoc. f_equal. f_equal.
      * destruct (_ <? PERILEN); reflexivity.
      * destruct (_ <? ENUMROMSZ); reflexivity.
    + split.
      * intros X. apply app_eq_nil in X. destruct X as [X Y].
        destruct (proj1 (SH True) (conj X I)) as [Z1 _]. split; [exact Z1|]. left.
        destruct (Z.ltb_spec (romindx st + Z.of_nat (String.length (libname e)) + 1) ENUMROMSZ);
          [assumption | discriminate].
      * intros [X Y]. destruct (proj2 (SH True) (conj X I)) as [-> _]. cbn [List.app].
        destruct (Z.ltb_spec (romindx st + Z.of_nat (String.length (libname e)) + 1) ENUMROMSZ);
          [reflexivity | lia].
Qed.

Lemma overrun_free_iff_cons (t : list ascii) (toks : list (list ascii)) (a b c : state) :
  overrun_free_iff [t] a b -> overrun_free_iff toks b c -> overrun_free_iff (t :: toks) a c.
Proof.
  intros (M1 & l1 & O1 & E1) (M2 & l2 & O2 & E2). split; [lia|].
  exists (l1 ++ l2). split; [rewrite O2, O1, app_assoc; reflexivity|]. split.
  - intros X. apply app_eq_nil in X. destruct X as [X1 X2].
    apply E1 in X1. apply E2 in X2. destruct X1 as [S1 R1], X2 as [S2 R2].
    split; [constructor; [inversion S1; assumption | exact S2]|]. lia.
  - intros [S R]. inversion S as [|? ? St Sts]; subst.
    assert (X1 : l1 = []) by (apply E1; split; [repeat constructor; exact St | lia]).
    assert (X2 : l2 = []) by (apply E2; split; [exact Sts | lia]).
    rewrite X1, X2. reflexivity.
Qed.

Lemma steps_overruns (argv0 : string) (toks : list (list ascii)) (st st' : state) :
  steps argv0 toks st = Next st' -> overrun_free_iff toks st st'.
Proof.
  revert st. induction toks as [|t toks IH]; intros st; cbn [steps].
  - intros E. inversion E; subst. split; [lia|]. exists []. rewrite app_nil_r.
    split; [reflexivity|]. split; [intros _; split; [constructor | right; reflexivity] | reflexivity].
  - destruct (peripheral argv0 t st) as [st1|c st1] eqn:P; [|discriminate].
    intros E. apply (overrun_free_iff_cons t toks st st1 st').
    + apply (peripheral_overruns argv0). exact P.
    + apply IH. exact E.
Qed.

(** X8.  The run of a completed call stays within the three buffers of
    [main] exactly when none of the 8 header strings read is empty (a
    line that starts with a NUL byte is: its last character is then
    sought at index -1 of [romstr]), every token read, comment or
    name, has fewer than 20 characters (or [fscanf] runs over [peri]),
    and fewer than 2048 bytes of ROM are in use at the end (at exactly
    2048, which the overflow test accepts, the terminator that
    [sprintf] adds is stored one byte past the end of [rom]). *)
Theorem within_buffers (signed_char : bool) (argv0 : string) (desc : list ascii)
        (cs : list (list ascii)) (f : list ascii) (st : state) :
  fgets_lines 8 desc = Some (cs, f) ->
  main signed_char argv0 desc = (0, st) ->
  overruns (trace st) = [] <->
  Forall (fun c => 0 < strlen c) cs /\ Forall short (tokens f) /\ romindx st < ENUMROMSZ.
Proof.
  intros H M. unfold main in M.
  pose proof (header_lines_ok 8 initial desc cs f H) as HL. rewrite HL in M.
  destruct (fgets_lines_chunks _ _ _ _ H) as (_ & L & F).
  destruct (header_lines_result _ _ _ HL) as (_ & _ & _ & _ & _ & _ & _ & _ & _ & _ & R0 & _).
  pose proof (header_overruns cs initial F) as HO. cbn [initial romindx trace] in HO.
  rewrite L in HO. specialize (HO ltac:(unfold ENUMROMSZ; lia)).
  unfold peripherals in M.
  destruct (steps argv0 (tokens f) (fold_left header_step cs initial)) as [st1|c st1] eqn:S.
  - apply steps_overruns in S. destruct S as (M1 & l & O & E).
    destruct (finish_fields signed_char st1) as (_ & _ & _ & _ & F4).
    apply pair_eq in M. destruct M as [_ M]. rewrite <- M.
    unfold finish, print, log. cbn [snd trace romindx].
    rewrite !overruns_app, overruns_Output. cbn [overruns flat_map List.app].
    rewrite !app_nil_r, O. unfold ENUMROMSZ in *. split.
    + intros X. apply app_eq_nil in X. destruct X as [X1 X2].
      apply HO in X1. apply E in X2. destruct X1 as [_ X1], X2 as [X2 X3].
      split; [exact X1|]. split; [exact X2|]. lia.
    + intros (X1 & X2 & X3).
      rewrite (proj2 HO (conj eq_refl X1)), (proj2 E (conj X2 (or_introl X3))). reflexivity.
  - apply pair_eq in M. destruct M as [M _].
    pose proof (steps_inv argv0 (fun _ => True) (fun c _ => c = 1) (tokens f)) as SI.
    specialize (SI (fun _ _ _ _ _ _ => I)
                   (fun peri s c s' _ _ E => peripheral_exit_status argv0 peri s c s' E)
                   (fold_left header_step cs initial) I).
    rewrite S in SI. cbn [fst] in M. lia.
Qed.

Lemma within_buffers_witness :
  (exists st, main true "buildmain" servo4_null = (0, st) /\ overruns (trace st) = []) /\
  (exists st, main true "buildmain" exactly_full = (0, st) /\ overruns (trace st) = ["rom"]).
Proof.
  split.
  - destruct (main true "buildmain" servo4_null) as [c st] eqn:M.
    assert (C : c = 0) by (apply (f_equal fst) in M; vm_compute in M; congruence).
    subst c. exists st. split; [reflexivity|].
    apply (within_buffers true "buildmain" servo4_null
             (map (fun l => bytes l ++ [LF]) placeholder_headers) (text ["servo4"; "null"]) st);
      [reflexivity | exact M |].
    split; [repeat constructor|]. split.
    + change (tokens (text ["servo4"; "null"])) with [bytes "servo4"; bytes "null"].
      repeat constructor.
    + apply (f_equal snd) in M. cbn [snd] in M. rewrite <- M. vm_compute. reflexivity.
  - destruct (main true "buildmain" exactly_full) as [c st] eqn:M.
    assert (C : c = 0) by (apply (f_equal fst) in M; vm_compute in M; congruence).
    subst c. exists st. split; [reflexivity|].
    destruct (list_eq_dec string_dec (overruns (trace st)) []) as [E|_].
    + apply (within_buffers true "buildmain" exactly_full
               (map (fun _ => repeat "h"%char 254 ++ [LF]) (seq 0 8)) (text ["dc2"; "rtc"]) st)
        in E; [| vm_compute; reflexivity | exact M].
      destruct E as (_ & _ & E). exfalso.
      apply (f_equal snd) in M. cbn [snd] in M. rewrite <- M in E. vm_compute in E. discriminate.
    + apply (f_equal snd) in M. cbn [snd] in M. rewrite <- M. vm_compute. reflexivity.
Defined.

(** ** The text of an instance *)

(** X9.  Whatever the address, the first pin and the name it is given,
    each function of the table prints signal names of its own address
    only: every number printed that is not a connector pin is the
    address (12 of them at least, those of the bus lines); and the only
    strings it prints with [%s] are the name it was given and the
    module of its entry.  So the text of an instance refers to no other
    instance. *)
Theorem own_signals_only :
  Forall (fun e => forall (addr p : Z) (peri : string),
              Forall (eq addr) (slots_of (fst (invoke e addr p peri))) /\
              (12 <= List.length (slots_of (fst (invoke e addr p peri))))%nat /\
              Forall (fun s => s = peri \/ s = incname e)
                     (flat_map strings_of_call (fst (invoke e addr p peri))))
         enumerators.
Proof.
  unfold enumerators.
  repeat (apply Forall_cons;
          [intros addr p peri; split; [|split];
           [ cbv -[Z.add]; repeat constructor
           | apply Nat.leb_le; vm_compute; reflexivity
           | cbv -[Z.add]; repeat (apply Forall_cons; [auto|]); apply Forall_nil ]|]).
  constructor.
Qed.

(** X10.  [watchdog2] keeps the contract of the functions of the table:
    whatever the name, for every address and first pin that are [int]s
    such that the pin plus 4 is an [int] too, it returns the pin plus
    4, assigns the pins [pin .. pin + 3] in order (all of them
    [int]s), prints signal names of its own address only and
    instantiates the module it is named after.  But no description
    file can ask for it: the name watchdog2 is not in the table, and
    no function of the table prints what it prints. *)
Theorem watchdog2_unreachable :
  (forall (addr p : Z) (peri : string),
      is_int addr -> is_int p -> is_int (p + 4) ->
      snd (watchdog2 addr p peri) = p + 4 /\
      is_int (snd (watchdog2 addr p peri)) /\
      pins_of (fst (watchdog2 addr p peri)) = pin_range p 4 /\
      Forall is_int (pins_of (fst (watchdog2 addr p peri))) /\
      Forall (eq addr) (slots_of (fst (watchdog2 addr p peri))) /\
      modules_of (fst (watchdog2 addr p peri)) = [peri]) /\
  search (c_str (bytes "watchdog2")) enumerators = None /\
  Forall (fun e => forall (addr p : Z) (peri : string),
              fst (invoke e addr p peri) <> fst (watchdog2 addr p peri))
         enumerators.
Proof.
  split; [|split].
  - intros addr p peri Ha Hp Hr.
    assert (P : pins_of (fst (watchdog2 addr p peri)) = pin_range p 4).
    { cbv -[Z.add]. rewrite ?Z.add_0_r. reflexivity. }
    split; [reflexivity|]. split; [exact Hr|]. split; [exact P|]. split.
    + rewrite P. apply pin_range_is_int; assumption.
    + split; [cbv -[Z.add]; repeat constructor | reflexivity].
  - vm_compute. reflexivity.
  - unfold enumerators.
    repeat (apply Forall_cons;
            [intros addr p peri H; apply (f_equal (map fmt)) in H; vm_compute in H; discriminate|]).
    constructor.
Qed.

Lemma watchdog2_unreachable_witness :
  is_int 7 /\ is_int 2147483643 /\ is_int (2147483643 + 4) /\
  snd (watchdog2 7 2147483643 "watchdog2") = 2147483647 /\
  pins_of (fst (watchdog2 7 2147483643 "watchdog2"))
  = [2147483643; 2147483644; 2147483645; 2147483646].
Proof.
  assert (A : is_int 7) by (unfold is_int, INT_MIN, INT_MAX; lia).
  assert (B : is_int 2147483643) by (unfold is_int, INT_MIN, INT_MAX; lia).
  assert (C : is_int (2147483643 + 4)) by (unfold is_int, INT_MIN, INT_MAX; lia).
  split; [exact A|]. split; [exact B|]. split; [exact C|].
  destruct watchdog2_unreachable as [H _].
  destruct (H 7 2147483643 "watchdog2" A B C) as (H1 & _ & H2 & _).
  split; [exact H1 | exact H2].
Defined.

(** ** The table *)

Lemma find_unique (tbl : list ENUMERATORS) (e : ENUMERATORS) :
  NoDup (map periname tbl) -> In e tbl ->
  find (fun x => String.eqb (periname x) (periname e)) tbl = Some e.
Proof.
  induction tbl as [|x tbl IH]; intros N H; [contradiction|].
  cbn [map] in N. inversion N as [|? ? Nx Nt]; subst. cbn [find].
  destruct H as [->|H].
  - rewrite String.eqb_refl. reflexivity.
  - destruct (String.eqb_spec (periname x) (periname e)) as [E|_]; [|apply IH; assumption].
    exfalso. apply Nx. rewrite E. apply in_map. exact H.
Qed.

(** X11.  No row of the table is hidden by another: the 43 names are
    pairwise distinct, so that the search finds, for the name of each
    row, that very row (and with it its include file, its library name
    and its function). *)
Theorem every_row_is_found :
  NoDup (map periname enumerators) /\
  forall e, In e enumerators -> search (periname e) enumerators = Some e.
Proof.
  assert (N : NoDup (map periname enumerators)).
  { replace (map periname enumerators) with (nodup string_dec (map periname enumerators))
      by (vm_compute; reflexivity).
    apply NoDup_nodup. }
  split; [exact N|]. intros e H.
  pose proof (proj1 (Forall_forall _ _) enumerators_names e H) as [Z _].
  rewrite (search_find _ _ enumerators_names Z). apply find_unique; assumption.
Qed.

(** ** The listing and the size of the ROM *)

Lemma load_firstn (n : nat) (buf : list ascii) (j : Z) :
  0 <= j < Z.of_nat n -> load (firstn n buf) j = load buf j.
Proof.
  intros H. unfold load. destruct (Z.ltb_spec j 0); [lia|].
  rewrite nth_firstn. destruct (Nat.ltb_spec (Z.to_nat j) n); [reflexivity | lia].
Qed.

(** X12.  The listing is made of the first 512 bytes of the ROM and of
    nothing else: the bytes at the offsets 512 to 2047 (three quarters
    of the 2048 bytes that the overflow test allows) never reach
    enumerator.lst.  Whatever the buffer, the listing is 16 records of
    34 calls. *)
Theorem listing_ignores_tail (signed_char : bool) (buf : list ascii) :
  rom_listing signed_char buf = rom_listing signed_char (firstn 512 buf) /\
  List.length (rom_listing signed_char buf) = (16 * 34)%nat.
Proof.
  split.
  - unfold rom_listing. rewrite !flat_map_concat_map. f_equal.
    apply map_ext_in. intros i Hi. apply in_seq in Hi.
    unfold rom_record. f_equal. f_equal. unfold countdown. rewrite !map_map.
    apply map_ext_in. intros k Hk. apply in_seq in Hk.
    rewrite load_firstn by lia. reflexivity.
  - unfold rom_listing. cbn [seq flat_map]. rewrite !length_app.
    unfold rom_record, countdown. cbn [List.length].
    rewrite !length_app, !length_map, !length_seq. reflexivity.
Qed.

(** X13.  Aliases.  Two rows of the table that name the same include
    file stand for the same hardware: called for their own names at the
    same address and pin they print the same text, character for
    character, and take the same pins.  An alias therefore shows in the
    ROM only, by its library name. *)
Theorem aliases_print_alike :
  Forall (fun e1 =>
            Forall (fun e2 =>
                      incname e1 = incname e2 ->
                      forall addr p : Z,
                        invoke e1 addr p (periname e1) = invoke e2 addr p (periname e2))
                   enumerators)
         enumerators.
Proof.
  unfold enumerators.
  repeat (apply Forall_cons;
          [repeat (apply Forall_cons;
                   [cbn [incname]; intros H addr p; first [reflexivity | discriminate H]|]);
           apply Forall_nil|]).
  apply Forall_nil.
Qed.

(** ** Reading the names *)

Lemma tokens_nonspace (c : ascii) (f : list ascii) :
  isspace c = false -> exists t ts, tokens (c :: f) = (c :: t) :: ts.
Proof.
  intros H. cbn [tokens]. rewrite H. destruct f as [|c' f']; [eexists; eexists; reflexivity|].
  destruct (isspace c'); [eexists; eexists; reflexivity|].
  destruct (tokens (c' :: f')); eexists; eexists; reflexivity.
Qed.

Lemma tokens_space (a b : list ascii) (w : ascii) :
  isspace w = true -> tokens (a ++ w :: b) = tokens a ++ tokens b.
Proof.
  intros W. induction a as [|c a IH].
  - cbn [List.app tokens]. rewrite W. reflexivity.
  - change ((c :: a) ++ w :: b) with (c :: (a ++ w :: b)).
    cbn [tokens]. destruct (isspace c) eqn:C; [exact IH|].
    destruct a as [|c' a'].
    + cbn [List.app tokens]. rewrite W. reflexivity.
    + change ((c' :: a') ++ w :: b) with (c' :: (a' ++ w :: b)) in *.
      rewrite IH. destruct (isspace c') eqn:C'.
      * reflexivity.
      * destruct (tokens_nonspace c' a' C') as (t & ts & ->). reflexivity.
Qed.

Lemma tokens_word (t : list ascii) :
  t <> [] -> Forall (fun c => isspace c = false) t -> tokens t = [t].
Proof.
  induction t as [|c t IH]; intros N F; [contradiction|].
  inversion F as [|? ? C Ft]; subst. cbn [tokens]. rewrite C.
  destruct t as [|c' t']; [reflexivity|].
  inversion Ft as [|? ? C' _]; subst. rewrite C'.
  rewrite IH; [reflexivity | discriminate | exact Ft].
Qed.

Lemma tokens_words (f : list ascii) :
  Forall (fun t => t <> [] /\ Forall (fun c => isspace c = false) t) (tokens f).
Proof.
  induction f as [|c f IH]; [constructor|].
  cbn [tokens]. destruct (isspace c) eqn:C; [exact IH|].
  destruct f as [|c' f']; [repeat constructor; [discriminate | exact C]|].
  destruct (isspace c') eqn:C'.
  - constructor; [|exact IH]. split; [discriminate | repeat constructor; exact C].
  - destruct (tokens (c' :: f')) as [|t ts]; [repeat constructor; [discriminate | exact C]|].
    inversion IH as [|? ? [_ Ht] Hts]; subst.
    constructor; [|exact Hts]. split; [discriminate | constructor; assumption].
Qed.

(** X14.  The names are read as [fscanf] reads words: no token is
    empty or holds white space; a run of characters without white
    space is one token; and a white space character between two texts
    separates their tokens.  So blanks, tabs, line breaks and empty
    lines between the names play no part, several names may stand on a
    line, and the end of the file needs no newline. *)
Theorem tokens_are_words :
  (forall f, Forall (fun t => t <> [] /\ Forall (fun c => isspace c = false) t) (tokens f)) /\
  (forall t, t <> [] -> Forall (fun c => isspace c = false) t -> tokens t = [t]) /\
  (forall a b w, isspace w = true -> tokens (a ++ w :: b) = tokens a ++ tokens b).
Proof.
  split; [exact tokens_words|]. split; [exact tokens_word | exact tokens_space].
Qed.

(** ** The start of [main] *)






(** ** The text of the numbers *)

Lemma to_int_norm (z : Z) : Z.to_int z = Decimal.norm (Z.to_int z).
Proof. rewrite <- DecimalZ.to_of, DecimalZ.of_to. reflexivity. Qed.

Lemma to_int_nonnil (z : Z) :
  Z.to_int z <> Decimal.Pos Decimal.Nil /\ Z.to_int z <> Decimal.Neg Decimal.Nil.
Proof.
  rewrite to_int_norm. destruct (Z.to_int z) as [d|d]; cbn [Decimal.norm].
  - split; [|discriminate]. intros H. inversion H as [E].
    exact (DecimalFacts.unorm_nonnil d E).
  - destruct (Decimal.nzhead d) eqn:E; split; discriminate.
Qed.

Lemma string_of_int_inj (a b : Z) :
  NilZero.string_of_int (Z.to_int a) = NilZero.string_of_int (Z.to_int b) -> a = b.
Proof.
  intros H. apply DecimalZ.to_int_inj.
  destruct (to_int_nonnil a) as [A1 A2], (to_int_nonnil b) as [B1 B2].
  pose proof (NilZero.isi _ A1 A2) as Ia. pose proof (NilZero.isi _ B1 B2) as Ib.
  rewrite H in Ia. rewrite Ia in Ib. inversion Ib. reflexivity.
Qed.

Lemma leading_zero (z : Z) (s : string) :
  NilZero.string_of_int (Z.to_int z) = String "0" s -> z = 0.
Proof.
  intros H. destruct z as [|p|p]; [reflexivity| |discriminate H].
  exfalso. pose proof (to_int_norm (Z.pos p)) as N.
  pose proof (DecimalZ.of_to (Z.pos p)) as O.
  change (Z.to_int (Z.pos p)) with (Decimal.Pos (Pos.to_uint p)) in *.
  cbn [Decimal.norm] in N. inversion N as [U]. clear N.
  cbn [NilZero.string_of_int] in H.
  destruct (Pos.to_uint p) as [|u|u|u|u|u|u|u|u|u|u] eqn:E; try discriminate H.
  - symmetry in U. exact (DecimalFacts.unorm_nonnil _ U).
  - rewrite DecimalFacts.unorm_D0 in U.
    destruct u as [|u|u|u|u|u|u|u|u|u|u]; try discriminate U.
    + cbn in O. discriminate O.
    + pose proof (DecimalFacts.nb_digits_unorm (Decimal.D0 u) ltac:(discriminate)) as L.
      rewrite <- U in L. cbn [Decimal.nb_digits] in L. lia.
Qed.

(** X16.  The text of [%02d].  Two different integers never print the
    same, so that the signal names [p%02d...] of two addresses, and
    the pins [`PIN_%02d] of two numbers, differ; the text has two
    characters from 0 to 99, and never fewer. *)
Theorem numbers_print_apart :
  (forall a b : Z, fmt_02d a = fmt_02d b -> a = b) /\
  (forall z : Z, 0 <= z < 100 -> List.length (fmt_02d z) = 2%nat) /\
  (forall z : Z, (2 <= List.length (fmt_02d z))%nat).
Proof.
  assert (W : forall z, (2 <= List.length (fmt_02d z))%nat).
  { intros z. unfold fmt_02d.
    destruct (Nat.ltb_spec (List.length (bytes (NilZero.string_of_int (Z.to_int z)))) 2) as [L|L];
      [|exact L].
    cbn [List.length].
    destruct (NilZero.string_of_int (Z.to_int z)) eqn:E; [|cbn; lia].
    destruct (to_int_nonnil z) as [A1 A2]. pose proof (NilZero.isi _ A1 A2) as I.
    rewrite E in I. discriminate I. }
  split; [|split; [|exact W]].
  - intros a b H. unfold fmt_02d in H. unfold bytes in H.
    set (sa := NilZero.string_of_int (Z.to_int a)) in *.
    set (sb := NilZero.string_of_int (Z.to_int b)) in *.
    assert (J : forall x y : string, list_ascii_of_string x = list_ascii_of_string y -> x = y).
    { intros x y E. rewrite <- (string_of_list_ascii_of_string x),
                            <- (string_of_list_ascii_of_string y), E. reflexivity. }
    destruct (Nat.ltb_spec (List.length (list_ascii_of_string sa)) 2) as [La|La],
             (Nat.ltb_spec (List.length (list_ascii_of_string sb)) 2) as [Lb|Lb].
    + inversion H as [E]. apply string_of_int_inj, J, E.
    + exfalso. destruct sb as [|c sb'] eqn:Eb; [discriminate H|].
      cbn [list_ascii_of_string] in H. inversion H; subst c.
      pose proof (leading_zero b sb' Eb) as Z0. subst b. vm_compute in Eb.
      inversion Eb; subst sb'. cbn in Lb. lia.
    + exfalso. destruct sa as [|c sa'] eqn:Ea; [discriminate H|].
      cbn [list_ascii_of_string] in H. inversion H; subst c.
      pose proof (leading_zero a sa' Ea) as Z0. subst a. vm_compute in Ea.
      inversion Ea; subst sa'. cbn in La. lia.
    + apply string_of_int_inj, J, H.
  - intros z Hz.
    assert (F : forallb (fun n => (List.length (fmt_02d (Z.of_nat n)) =? 2)%nat) (seq 0 100) = true)
      by (vm_compute; reflexivity).
    rewrite forallb_forall in F. specialize (F (Z.to_nat z)).
    rewrite Z2Nat.id in F by lia. apply Nat.eqb_eq, F, in_seq. lia.
Qed.

(** ** What stdout holds *)

Lemma fragments_app (a b : list event) : fragments (a ++ b) = fragments a ++ fragments b.
Proof. unfold fragments. rewrite invocations_app. apply flat_map_app. Qed.

Lemma peripheral_fragments (argv0 : string) (peri : list ascii) (st : state) :
  printed stdout (trace st) = fragments (trace st) /\ printed stderr (trace st) = [] ->
  match peripheral argv0 peri st with
  | Next st' => printed stdout (trace st') = fragments (trace st') /\
                printed stderr (trace st') = []
  | Exit c st' => exists tail, printed stdout (trace st') = fragments (trace st') ++ tail /\
                               last_line argv0 c (printed stderr (trace st')) tail
  end.
Proof.
  intros [A B].
  destruct (fscanf_peri_trace peri st) as (ev0 & T0 & _ & I0 & P0 & _).
  assert (F0 : printed stdout (trace (fscanf_peri peri st)) = fragments (trace (fscanf_peri peri st))
               /\ printed stderr (trace (fscanf_peri peri st)) = []).
  { unfold fragments. rewrite T0, !printed_app, invocations_app, I0, !P0, !app_nil_r. auto. }
  destruct F0 as [A0 B0].
  destruct (peripheral_case argv0 peri st) as [[_ H]|[(_ & _ & H)|(e & _ & _ & He & H)]].
  - rewrite H. auto.
  - rewrite H. exists []. cbn [print log trace].
    rewrite fragments_app, !printed_app, A0, B0. cbn. rewrite !app_nil_r.
    split; [reflexivity|]. right. right. right. split; [reflexivity|]. split; [reflexivity|].
    eexists. reflexivity.
  - cbn zeta in H.
    assert (F3 : printed stdout (trace (after_invoke e (c_str peri) (fscanf_peri peri st)))
                 = fragments (trace (after_invoke e (c_str peri) (fscanf_peri peri st)))
                 /\ printed stderr (trace (after_invoke e (c_str peri) (fscanf_peri peri st))) = []).
    { unfold fragments in *. rewrite after_invoke_trace.
      rewrite invocations_app, !printed_app, A0, B0. autorewrite with proj.
      rewrite flat_map_app. cbn [flat_map emitted]. rewrite ?app_nil_r. auto. }
    destruct F3 as [A3 B3].
    destruct H as [[G H]|[G H]]; rewrite H.
    + exists [rom_overflow]. cbn [print log trace].
      rewrite fragments_app, !printed_app, A3, B3. cbn. rewrite !app_nil_r.
      split; [reflexivity|]. right. left. auto.
    + cbn [set_slot trace]. auto.
Qed.

Lemma run_fragments (signed_char : bool) (argv0 : string) (desc : list ascii) :
  let r := main signed_char argv0 desc in
  exists tail,
    printed stdout (trace (snd r)) = fragments (trace (snd r)) ++ tail /\
    last_line argv0 (fst r) (printed stderr (trace (snd r))) tail.
Proof.
  cbn zeta.
  apply (run_inv signed_char argv0 desc
           (fun s => printed stdout (trace s) = fragments (trace s) /\
                     printed stderr (trace s) = [])
           (fun c s => exists tail, printed stdout (trace s) = fragments (trace s) ++ tail /\
                                    last_line argv0 c (printed stderr (trace s)) tail)).
  - intros st f H.
    destruct (header_lines_result _ _ _ H) as (_ & _ & _ & _ & _ & _ & I0 & P0 & _).
    unfold fragments. rewrite I0, !P0. auto.
  - intros peri st. apply peripheral_fragments.
  - intros st [A B].
    destruct (finish_trace signed_char st) as (evs & T & _ & Iv & P1 & P2 & _).
    exists [endmodule]. unfold fragments in *.
    rewrite T, invocations_app, !printed_app, Iv, P1, P2, A, B, !app_nil_r.
    split; [reflexivity|]. left. auto.
  - intros st H. destruct (header_exit_result _ _ H) as (_ & st0 & -> & I0 & P0 & _).
    exists [not_enough]. unfold fragments. cbn [print log trace].
    rewrite invocations_app, !printed_app, I0, !P0. cbn.
    split; [reflexivity|]. right. right. left. auto.
Qed.

(** X17.  In a run on a description file whose tokens all have fewer
    than 20 characters (so that no [fscanf] runs over [peri]), stdout
    holds the text of the instances invoked, in the order of the
    invocations, and then one line at most: the line that closes the
    module when the status is 0, the ROM-overflow or the missing-header
    message when the run stops on one of them, and nothing when it
    stops on an unknown peripheral, whose message goes to stderr.
    Nothing else is printed on stdout or on stderr. *)
Theorem stdout_is_fragments (signed_char : bool) (argv0 : string) (desc : list ascii) :
  short_tokens desc ->
  let r := main signed_char argv0 desc in
  peri_fits (snd r) /\
  exists tail,
    printed stdout (trace (snd r)) = fragments (trace (snd r)) ++ tail /\
    last_line argv0 (fst r) (printed stderr (trace (snd r))) tail.
Proof.
  intros Sh. cbn zeta. split; [apply main_peri_fits, Sh | apply run_fragments].
Qed.

Lemma stdout_is_fragments_witness :
  short_tokens unknown_after_comment /\
  printed stdout (trace (snd (main true "buildmain" unknown_after_comment)))
  = fst (servo4 0 0 "servo4") /\
  printed stderr (trace (snd (main true "buildmain" unknown_after_comment)))
  = [unknown_peripheral "buildmain" "bogus"].
Proof.
  assert (S : short_tokens unknown_after_comment)
    by (apply short_tokens_check; vm_compute; reflexivity).
  split; [exact S|].
  destruct (stdout_is_fragments true "buildmain" unknown_after_comment S)
    as (_ & tail & A & [(B & _)|[(_ & _ & B)|[(_ & _ & B)|(_ & -> & _)]]]).
  - vm_compute in B. discriminate B.
  - vm_compute in B. discriminate B.
  - vm_compute in B. discriminate B.
  - rewrite A, app_nil_r. split; vm_compute; reflexivity.
Defined.

(** ** The largest design *)

Lemma header_need_length (cs : list (list ascii)) : Z.of_nat (List.length cs) <= header_need cs.
Proof.
  unfold header_need, sumZ. induction cs as [|c cs IH]; cbn [map fold_right List.length]; lia.
Qed.

Lemma header_romindx_8 (desc : list ascii) (st : state) (f : list ascii) :
  header_lines 8 initial desc = inl (st, f) -> 8 <= romindx st <= 2040.
Proof.
  intros H.
  destruct (header_lines_result _ _ _ H) as (cs & Hc & L & _ & _ & _ & _ & _ & _ & _ & R & _).
  rewrite (header_lines_ok 8 initial desc cs f Hc) in H.
  assert (E : fold_left header_step cs initial = st) by congruence.
  pose proof (header_fold_romindx cs initial) as X. cbn [initial romindx] in X.
  pose proof (header_need_length cs) as N. rewrite L in N. rewrite E in X. lia.
Qed.

Lemma peripheral_count (argv0 : string) (peri : list ascii) (st : state) :
  8 + 4 * Z.of_nat (List.length (invocations (trace st))) <= romindx st <= ENUMROMSZ /\
  pin st <= 8 * Z.of_nat (List.length (invocations (trace st))) ->
  match peripheral argv0 peri st with
  | Next st' =>
      8 + 4 * Z.of_nat (List.length (invocations (trace st'))) <= romindx st' <= ENUMROMSZ /\
      pin st' <= 8 * Z.of_nat (List.length (invocations (trace st')))
  | Exit _ st' =>
      (List.length (invocations (trace st')) <= 511)%nat /\
      pin st' <= 8 * Z.of_nat (List.length (invocations (trace st')))
  end.
Proof.
  intros [A B].
  destruct (fscanf_peri_trace peri st) as (ev0 & T0 & _ & I0 & _ & _).
  destruct (fscanf_peri_fields peri st) as (S0 & N0 & _ & R0).
  destruct (peripheral_case argv0 peri st) as [[_ H]|[(_ & _ & H)|(e & _ & _ & He & H)]].
  - rewrite H. rewrite T0, invocations_app, I0, app_nil_r, R0, N0. auto.
  - rewrite H. cbn [print log trace pin].
    rewrite T0, !invocations_app, I0, N0. cbn [invocations flat_map List.app]. rewrite ?app_nil_r.
    unfold ENUMROMSZ in *. split; lia.
  - cbn zeta in H.
    destruct (after_invoke_fields e (c_str peri) (fscanf_peri peri st)) as (_ & N3 & R3).
    rewrite (invoke_snd e _ _ _ He) in N3. rewrite R0 in R3. rewrite N0 in N3.
    pose proof (libname_length e He) as LL. pose proof (pinCount_bounds e He) as PB.
    assert (L3 : List.length (invocations (trace (after_invoke e (c_str peri) (fscanf_peri peri st))))
                 = S (List.length (invocations (trace st)))).
    { rewrite after_invoke_trace, T0. autorewrite with proj. rewrite I0.
      autorewrite with proj. rewrite length_app. cbn [List.length]. lia. }
    destruct H as [[G H]|[G H]]; rewrite H.
    + cbn [print log trace pin]. rewrite invocations_app. cbn [invocations flat_map List.app]. rewrite ?app_nil_r.
      rewrite L3, N3. unfold ENUMROMSZ in *. split; lia.
    + cbn [set_slot trace pin romindx]. rewrite L3, N3, R3 in *.
      unfold ENUMROMSZ in *. split; lia.
Qed.

(** X18.  The largest design.  Each peripheral takes 4 bytes of ROM at
    least and the header strings 8: a run that completes has at most
    510 instances, a run that does not at most 511, and the pins in
    use are at most 8 an instance.  510 is reached, by eight empty
    header lines and 510 times dc2. *)
Theorem at_most_510_instances (signed_char : bool) (argv0 : string) :
  (forall desc : list ascii,
      let r := main signed_char argv0 desc in
      let n := List.length (invocations (trace (snd r))) in
      (n <= 511)%nat /\ (fst r = 0 -> (n <= 510)%nat) /\ pin (snd r) <= 8 * Z.of_nat n) /\
  fst (main signed_char argv0 largest_design) = 0 /\
  List.length (invocations (trace (snd (main signed_char argv0 largest_design)))) = 510%nat.
Proof.
  split.
  - intros desc. cbn zeta.
    assert (K : (fun c s => ((List.length (invocations (trace s)) <= 511)%nat /\
                             (c = 0 -> (List.length (invocations (trace s)) <= 510)%nat)) /\
                            pin s <= 8 * Z.of_nat (List.length (invocations (trace s))))
                  (fst (main signed_char argv0 desc)) (snd (main signed_char argv0 desc))).
    { apply (run_inv signed_char argv0 desc
               (fun s => 8 + 4 * Z.of_nat (List.length (invocations (trace s)))
                         <= romindx s <= ENUMROMSZ /\
                         pin s <= 8 * Z.of_nat (List.length (invocations (trace s))))).
      - intros st f H. pose proof (header_romindx_8 _ _ _ H) as R.
        destruct (header_lines_result _ _ _ H)
          as (_ & _ & _ & _ & _ & _ & I0 & _ & _ & _ & _ & _ & N0).
        rewrite I0, N0. cbn [List.length]. unfold ENUMROMSZ. lia.
      - intros peri st HI. pose proof (peripheral_count argv0 peri st HI) as P.
        pose proof (peripheral_exit_status argv0 peri st) as X.
        destruct (peripheral argv0 peri st) as [st'|c st']; [exact P|].
        destruct P as [P1 P2]. split; [split; [exact P1|] | exact P2].
        intros ->. specialize (X 0 st' eq_refl). discriminate.
      - intros st [A B].
        destruct (finish_trace signed_char st) as (evs & T & _ & Iv & _).
        destruct (finish_fields signed_char st) as (_ & _ & F2 & _).
        rewrite T, F2, invocations_app, Iv, app_nil_r. unfold ENUMROMSZ in *.
        split; [split; [|intros _]; lia | exact B].
      - intros st H. destruct (header_exit_result _ _ H) as (_ & st0 & -> & I0 & _ & _ & _ & _ & N0 & _).
        cbn [print log trace pin]. rewrite invocations_app, I0, N0.
        cbn [invocations flat_map List.app List.length].
        split; [split; [|intros _]; lia | lia]. }
    destruct K as [[K1 K2] K3]. auto.
  - destruct signed_char; split; vm_compute; reflexivity.
Qed.

(** ** From the listing back to the names *)

(** X19.  From enumerator.lst back to the names.  For a completed run
    that uses at most the 512 bytes of ROM that are listed, with bytes
    that print as two digits: decoding the 16 records written to
    enumerator.lst and cutting the bytes in use at their NULs gives the
    8 header strings and then the library names of the peripherals
    invoked, in order. *)
Theorem listing_carries_names (signed_char : bool) (argv0 : string) (desc : list ascii)
        (st : state) :
  main signed_char argv0 desc = (0, st) ->
  romindx st <= 512 ->
  forallb (plain signed_char) (firstn 512 (rom st)) = true ->
  exists cs f buf,
    fgets_lines 8 desc = Some (cs, f) /\
    printed penumlst (trace st) = rom_listing signed_char (rom st) /\
    decode_listing (listing_payloads signed_char (rom st)) = Some buf /\
    unpack [] (firstn (Z.to_nat (romindx st)) buf) =
    map (fun c => bytes (header_string c)) cs
        ++ map (fun e => bytes (libname e)) (invoked (trace st)).
Proof.
  intros M R F.
  destruct (rom_unpack _ _ _ _ M) as (cs & f & H & U).
  destruct (main_listing _ _ _ _ M) as [P L]. unfold ENUMROMSZ in L.
  exists cs, f, (firstn 512 (rom st)).
  split; [exact H|]. split; [exact P|]. split.
  - unfold listing_payloads.
    rewrite (decode_listing_chunks signed_char (rom st) 16); [| | lia |].
    + now rewrite chunks_concat.
    + apply Forall_forall. intros i Hi. apply in_seq in Hi. lia.
    + apply Forall_forall. rewrite forallb_forall in F. exact F.
  - rewrite firstn_firstn. unfold rom_used in U.
    replace (Nat.min (Z.to_nat (romindx st)) 512) with (Z.to_nat (romindx st)) by lia.
    exact U.
Qed.

Lemma listing_carries_names_witness :
  exists st buf,
    main true "buildmain" servo4_null = (0, st) /\
    decode_listing (listing_payloads true (rom st)) = Some buf /\
    unpack [] (firstn (Z.to_nat (romindx st)) buf) =
    map bytes (placeholder_headers ++ ["servo4"; "null"]).
Proof.
  destruct (main true "buildmain" servo4_null) as [c st] eqn:M.
  assert (C : c = 0) by (apply (f_equal fst) in M; vm_compute in M; congruence).
  subst c.
  assert (S : st = snd (main true "buildmain" servo4_null)) by (rewrite M; reflexivity).
  destruct (listing_carries_names true "buildmain" servo4_null st M)
    as (cs & f & buf & H & _ & D & U).
  - rewrite S. vm_compute. discriminate.
  - rewrite S. vm_compute. reflexivity.
  - exists st, buf. split; [reflexivity|]. split; [exact D|].
    rewrite U. vm_compute in H. injection H as <- _.
    rewrite S. vm_compute. reflexivity.
Defined.
